(** * rte_ring: a ring queue over caller-supplied storage

    Shallow embedding of [src/rte_ring.h].  The C code keeps four 32-bit
    counters and a byte region; every function below follows one C
    function, statement by statement.  [printf] calls are dropped.

    Conventions
    - a [uint32_t] is a [Z] in [0, 2^32); every C operation that can wrap
      is written with [U32.wrap];
    - an [int] is a [Z] in [-2^31, 2^31);
    - a memory region is a [list byte];
    - a computation returns an [outcome]: [Ok] with the result,
      [Undefined] where C gives no meaning to the statement (division by
      zero, a copy outside a region), [Spins] where a loop has not left
      after [fuel] rounds. *)

From Stdlib Require Import ZArith List Lia Bool.
From Stdlib Require Import Strings.Byte.
Import ListNotations.
Open Scope Z_scope.

(** ** 32-bit unsigned arithmetic *)

Module U32.

Definition modulus : Z := 2 ^ 32.

Definition wrap (z : Z) : Z := z mod modulus.

End U32.

(** ** Outcomes of a C computation *)

Inductive outcome (A : Type) : Type :=
| Ok (a : A)
| Undefined
| Spins.

Arguments Ok {A} a.
Arguments Undefined {A}.
Arguments Spins {A}.

Definition bind {A B : Type} (c : outcome A) (k : A -> outcome B) : outcome B :=
  match c with
  | Ok a => k a
  | Undefined => Undefined
  | Spins => Spins
  end.

Notation "x <- c ;; k" := (bind c (fun x => k))
  (at level 61, c at next level, right associativity).
Notation "' p <- c ;; k" := (bind c (fun p => k))
  (at level 61, p pattern, c at next level, right associativity).

(** ** Data model *)

(** [enum rte_ring_queue_behavior] *)
Inductive rte_ring_queue_behavior : Type :=
| RTE_RING_QUEUE_FIXED
| RTE_RING_QUEUE_VARIABLE.

(** [struct rte_ring].  The four counters live in the first 512 bytes of
    the caller's block and the structure points at them; here they are
    fields.  [data] is the region from byte 512 to the end of the
    block. *)
Record rte_ring : Type := mk_ring {
  size : Z;
  mask : Z;
  capacity : Z;
  elemlen : Z;
  prod_head : Z;
  prod_tail : Z;
  cons_head : Z;
  cons_tail : Z;
  data : list byte
}.

Definition set_prod_head (r : rte_ring) (v : Z) : rte_ring :=
  mk_ring (size r) (mask r) (capacity r) (elemlen r)
          v (prod_tail r) (cons_head r) (cons_tail r) (data r).

Definition set_prod_tail (r : rte_ring) (v : Z) : rte_ring :=
  mk_ring (size r) (mask r) (capacity r) (elemlen r)
          (prod_head r) v (cons_head r) (cons_tail r) (data r).

Definition set_cons_head (r : rte_ring) (v : Z) : rte_ring :=
  mk_ring (size r) (mask r) (capacity r) (elemlen r)
          (prod_head r) (prod_tail r) v (cons_tail r) (data r).

Definition set_cons_tail (r : rte_ring) (v : Z) : rte_ring :=
  mk_ring (size r) (mask r) (capacity r) (elemlen r)
          (prod_head r) (prod_tail r) (cons_head r) v (data r).

Definition set_data (r : rte_ring) (d : list byte) : rte_ring :=
  mk_ring (size r) (mask r) (capacity r) (elemlen r)
          (prod_head r) (prod_tail r) (cons_head r) (cons_tail r) d.

(** What a head move hands back to its caller: either the early
    [return 0] (the out-parameter [*new_head] is then not written), or
    the count with the reserved range. *)
Inductive moved : Type :=
| NoRoom
| Moved (n old_head new_head : Z).

(** ** Memory primitives *)

Definition zlength (l : list byte) : Z := Z.of_nat (length l).

(** [memcpy(dst + doff, src + soff, len)]: defined only when both ranges
    lie inside their regions. *)
Definition memcpy (dst : list byte) (doff : Z) (src : list byte) (soff len : Z)
  : outcome (list byte) :=
  if (0 <=? doff) && (0 <=? soff) && (0 <=? len)
     && (doff + len <=? zlength dst) && (soff + len <=? zlength src)
  then Ok (firstn (Z.to_nat doff) dst
           ++ firstn (Z.to_nat len) (skipn (Z.to_nat soff) src)
           ++ skipn (Z.to_nat (doff + len)) dst)
  else Undefined.

(** [__atomic_compare_exchange_n(ptr, expected, desired, ...)] on a cell
    holding [cur]: returns the cell's new content, the new content of
    [*expected], and the success flag. *)
Definition atomic_compare_exchange (cur expected desired : Z) : Z * Z * bool :=
  if cur =? expected then (desired, expected, true) else (cur, cur, false).

(** ** update_tail (lines 92-104) *)

(** Run by one thread alone: nobody else changes [*tail], so the loop
    leaves at once or never. *)
Fixpoint update_tail (fuel : nat) (tail old_val new_val : Z) : outcome Z :=
  match fuel with
  | O => Spins
  | S fuel' =>
      if negb (tail =? old_val)
      then update_tail fuel' tail old_val new_val   (* _mm_pause() *)
      else Ok new_val                               (* __atomic_store_n *)
  end.

(** ** __rte_ring_move_prod_head (lines 129-176) *)

Fixpoint __rte_ring_move_prod_head (fuel : nat) (r : rte_ring) (max : Z)
    (behavior : rte_ring_queue_behavior) : outcome (rte_ring * moved) :=
  match fuel with
  | O => Spins
  | S fuel' =>
      let n := max in
      let old_head := prod_head r in
      if size r =? 0 then Undefined else
      let free_entries :=
        U32.wrap (capacity r + cons_tail r - old_head) mod size r in
      let n :=
        if n >? free_entries
        then match behavior with
             | RTE_RING_QUEUE_FIXED => 0
             | RTE_RING_QUEUE_VARIABLE => free_entries
             end
        else n in
      if n =? 0 then Ok (r, NoRoom) else
      let new_head := U32.wrap (old_head + n) mod size r in
      let '(cell, old_head', success) :=
        atomic_compare_exchange (prod_head r) old_head new_head in
      if success
      then Ok (set_prod_head r cell, Moved n old_head' new_head)
      else __rte_ring_move_prod_head fuel' (set_prod_head r cell) max behavior
  end.

(** ** __rte_ring_move_cons_head (lines 201-243) *)

Fixpoint __rte_ring_move_cons_head (fuel : nat) (r : rte_ring) (max : Z)
    (behavior : rte_ring_queue_behavior) : outcome (rte_ring * moved) :=
  match fuel with
  | O => Spins
  | S fuel' =>
      let n := max in
      let old_head := cons_head r in
      if size r =? 0 then Undefined else
      let entries :=
        U32.wrap (prod_tail r - old_head + size r) mod size r in
      let n :=
        if n >? entries
        then match behavior with
             | RTE_RING_QUEUE_FIXED => 0
             | RTE_RING_QUEUE_VARIABLE => entries
             end
        else n in
      if n =? 0 then Ok (r, NoRoom) else
      let new_head := U32.wrap (old_head + n) mod size r in
      let '(cell, old_head', success) :=
        atomic_compare_exchange (cons_head r) old_head new_head in
      if success
      then Ok (set_cons_head r cell, Moved n old_head' new_head)
      else __rte_ring_move_cons_head fuel' (set_cons_head r cell) max behavior
  end.

(** ** The copy loops of enqueue and dequeue *)

(** Byte offset of slot [head + i] inside [r->data], as line 281 and
    line 324 compute it: [((head + i) % size) * r->elemlen] in unsigned
    32-bit arithmetic. *)
Definition slot_offset (r : rte_ring) (head i : Z) : Z :=
  U32.wrap ((U32.wrap (head + i) mod size r) * elemlen r).

(** Byte offset [i * r->elemlen] inside the caller's table. *)
Definition table_offset (r : rte_ring) (i : Z) : Z :=
  U32.wrap (i * elemlen r).

(** [for (i = ...; i < n; i++) memcpy(r->data + ..., obj_table + ..., ...)],
    with [todo] rounds left. *)
Fixpoint enqueue_copy (todo : nat) (r : rte_ring) (prod_head' i : Z)
    (obj_table d : list byte) : outcome (list byte) :=
  match todo with
  | O => Ok d
  | S todo' =>
      d' <- memcpy d (slot_offset r prod_head' i)
                   obj_table (table_offset r i) (elemlen r) ;;
      enqueue_copy todo' r prod_head' (i + 1) obj_table d'
  end.

(** [for (i = ...; i < n; i++) memcpy(obj_table + ..., r->data + ..., ...)]. *)
Fixpoint dequeue_copy (todo : nat) (r : rte_ring) (cons_head' i : Z)
    (obj_table : list byte) : outcome (list byte) :=
  match todo with
  | O => Ok obj_table
  | S todo' =>
      t' <- memcpy obj_table (table_offset r i)
                   (data r) (slot_offset r cons_head' i) (elemlen r) ;;
      dequeue_copy todo' r cons_head' (i + 1) t'
  end.

(** ** __rte_ring_do_enqueue (lines 265-287) *)

Definition __rte_ring_do_enqueue (fuel : nat) (r : rte_ring)
    (obj_table : list byte) (n : Z) (behavior : rte_ring_queue_behavior)
  : outcome (rte_ring * Z) :=
  '(r1, m) <- __rte_ring_move_prod_head fuel r n behavior ;;
  match m with
  | NoRoom => Ok (r1, 0)
  | Moved n prod_head' prod_next =>
      d <- enqueue_copy (Z.to_nat n) r1 prod_head' 0 obj_table (data r1) ;;
      let r2 := set_data r1 d in
      t <- update_tail fuel (prod_tail r2) prod_head' prod_next ;;
      Ok (set_prod_tail r2 t, n)
  end.

(** ** __rte_ring_do_dequeue (lines 309-329) *)

Definition __rte_ring_do_dequeue (fuel : nat) (r : rte_ring)
    (obj_table : list byte) (n : Z) (behavior : rte_ring_queue_behavior)
  : outcome (rte_ring * list byte * Z) :=
  '(r1, m) <- __rte_ring_move_cons_head fuel r n behavior ;;
  match m with
  | NoRoom => Ok (r1, obj_table, 0)
  | Moved n cons_head' cons_next =>
      out <- dequeue_copy (Z.to_nat n) r1 cons_head' 0 obj_table ;;
      t <- update_tail fuel (cons_tail r1) cons_head' cons_next ;;
      Ok (set_cons_tail r1 t, out, n)
  end.

(** ** Public operations (lines 349-420) *)

Definition rte_ring_enqueue_bulk (fuel : nat) (r : rte_ring)
    (obj_table : list byte) (n : Z) : outcome (rte_ring * Z) :=
  __rte_ring_do_enqueue fuel r obj_table n RTE_RING_QUEUE_VARIABLE.

Definition rte_ring_enqueue (fuel : nat) (r : rte_ring) (obj : list byte)
  : outcome (rte_ring * Z) :=
  rte_ring_enqueue_bulk fuel r obj 1.

Definition rte_ring_dequeue_bulk (fuel : nat) (r : rte_ring)
    (obj_table : list byte) (n : Z) : outcome (rte_ring * list byte * Z) :=
  __rte_ring_do_dequeue fuel r obj_table n RTE_RING_QUEUE_FIXED.

Definition rte_ring_dequeue (fuel : nat) (r : rte_ring) (obj_p : list byte)
  : outcome (rte_ring * list byte * Z) :=
  rte_ring_dequeue_bulk fuel r obj_p 1.

(** ** rte_ring_create (lines 432-449) *)

(** [totallen] and [elemlen] are C [int]s.  The division is C's, which
    truncates towards zero; its result is stored in a [uint32_t].  The
    counters are placed at bytes 0, 64, 128 and 192 of the block and the
    data at byte 512, so the block has to reach that far.
    [memset(p, 0, totallen)] clears the block, counters and data alike. *)
Definition rte_ring_create (totallen elemlen' : Z) : outcome rte_ring :=
  if elemlen' =? 0 then Undefined else
  if totallen <? 512 then Undefined else
  let size' := U32.wrap (Z.quot (totallen - 512) elemlen') in
  Ok (mk_ring size'
              (U32.wrap (size' - 1))
              (U32.wrap (size' - 1))
              (U32.wrap elemlen')
              0 0 0 0
              (repeat x00 (Z.to_nat (totallen - 512)))).

(** ** ring_info (lines 464-470): the "ring usage" figure it prints *)

Definition ring_usage (r : rte_ring) : Z :=
  U32.wrap (prod_head r - cons_head r + size r) mod size r.

(** ** Tables of 32-bit integers, as [main.c] passes them ([int in[]],
    [int out[]]): four bytes each, least significant first. *)

Definition byte_of_Z (z : Z) : byte :=
  match Byte.of_N (Z.to_N (z mod 256)) with
  | Some b => b
  | None => x00
  end.

Definition Z_of_byte (b : byte) : Z := Z.of_N (Byte.to_N b).

Definition int_bytes (v : Z) : list byte :=
  [byte_of_Z v; byte_of_Z (v / 256); byte_of_Z (v / 65536);
   byte_of_Z (v / 16777216)].

Definition ints_bytes (vs : list Z) : list byte := flat_map int_bytes vs.

Fixpoint bytes_ints (count : nat) (bs : list byte) : list Z :=
  match count with
  | O => []
  | S count' =>
      match bs with
      | b0 :: b1 :: b2 :: b3 :: rest =>
          (Z_of_byte b0 + 256 * Z_of_byte b1 + 65536 * Z_of_byte b2
           + 16777216 * Z_of_byte b3) :: bytes_ints count' rest
      | _ => []
      end
  end.

(** An output table of [count] integers, all zero. *)
Definition out_table (count : nat) : list byte := repeat x00 (4 * count).

(** ** Occupancy as the specification words it *)

(** Follows the specification's words, not the code:
    "occupied-count ((producer_tail - consumer_head) mod 2^32)". *)
Definition spec_occupied (r : rte_ring) : Z :=
  U32.wrap (prod_tail r - cons_head r).

(** Published-but-unconsumed entries as the code itself counts them
    (line 224, the [entries] of a dequeue that starts now). *)
Definition entries_of (r : rte_ring) : Z :=
  U32.wrap (prod_tail r - cons_head r + size r) mod size r.

(** Free slots as the code itself counts them (line 155). *)
Definition free_entries_of (r : rte_ring) : Z :=
  U32.wrap (capacity r + cons_tail r - prod_head r) mod size r.

(** ** One round of a head move *)

(** The count a head move settles on, given what it asked for and what
    it found available (lines 158-160 and 227-228). *)
Definition granted (behavior : rte_ring_queue_behavior) (n avail : Z) : Z :=
  if n >? avail
  then match behavior with
       | RTE_RING_QUEUE_FIXED => 0
       | RTE_RING_QUEUE_VARIABLE => avail
       end
  else n.

Definition next_head (r : rte_ring) (old_head n : Z) : Z :=
  U32.wrap (old_head + n) mod size r.


(** ** Rings between operations *)

(** What holds of a ring when no operation is under way: the fields
    [rte_ring_create] sets from a sound configuration, the counters
    inside [0, size), and each tail level with its head. *)
Record ring_inv (r : rte_ring) : Prop := mk_ring_inv {
  inv_size : 0 < size r <= 2 ^ 31;
  inv_capacity : capacity r = size r - 1;
  inv_elemlen : 0 <= elemlen r;
  inv_data : size r * elemlen r <= zlength (data r);
  inv_prod_head : 0 <= prod_head r < size r;
  inv_prod_tail : prod_tail r = prod_head r;
  inv_cons_head : 0 <= cons_head r < size r;
  inv_cons_tail : cons_tail r = cons_head r
}.

(** A call a thread may make, with the table it passes. *)
Inductive ring_op : Type :=
| Enqueue (obj_table : list byte) (n : Z) (behavior : rte_ring_queue_behavior)
| Dequeue (obj_table : list byte) (n : Z) (behavior : rte_ring_queue_behavior).

(** The table of a call holds the [n] elements asked for. *)
Definition op_fits (elemlen' : Z) (op : ring_op) : Prop :=
  match op with
  | Enqueue t n _ | Dequeue t n _ => 0 <= n /\ n * elemlen' <= zlength t
  end.

(** Calls made one after the other.  [net] keeps the books: what the
    enqueues returned so far minus what the dequeues returned. *)
Fixpoint run_ops (fuel : nat) (ops : list ring_op) (r : rte_ring) (net : Z)
  : outcome (rte_ring * Z) :=
  match ops with
  | [] => Ok (r, net)
  | Enqueue t n b :: ops' =>
      '(r', k) <- __rte_ring_do_enqueue fuel r t n b ;;
      run_ops fuel ops' r' (net + k)
  | Dequeue t n b :: ops' =>
      '(r', _, k) <- __rte_ring_do_dequeue fuel r t n b ;;
      run_ops fuel ops' r' (net - k)
  end.

(** ** update_tail among other threads *)

(** Several threads, each inside [update_tail] with its own [old_val]
    and [new_val], share one tail cell.  A thread is at the loop test
    (line 100), past it and about to store (line 103), or back in its
    caller.  Memory ordering is not part of this model: every read and
    write of the cell is one step. *)
Module Publish.

Inductive pc : Type :=
| AtLoop
| AtStore
| Returned.

Record publisher : Type := mk_publisher {
  pub_pc : pc;
  pub_old : Z;
  pub_new : Z
}.

Definition at_pc (t : publisher) (p : pc) : publisher :=
  mk_publisher p (pub_old t) (pub_new t).

(** One step of one thread: the new content of the cell and the thread's
    next state. *)
Definition publisher_step (tail : Z) (t : publisher) : Z * publisher :=
  match pub_pc t with
  | AtLoop =>
      if negb (tail =? pub_old t)
      then (tail, t)                      (* _mm_pause(), test again *)
      else (tail, at_pc t AtStore)
  | AtStore => (pub_new t, at_pc t Returned)   (* __atomic_store_n *)
  | Returned => (tail, t)
  end.

Record system : Type := mk_system {
  tail_cell : Z;
  publishers : list publisher
}.

Fixpoint replace_nth (i : nat) (x : publisher) (l : list publisher)
  : list publisher :=
  match l, i with
  | [], _ => []
  | _ :: l', O => x :: l'
  | y :: l', S i' => y :: replace_nth i' x l'
  end.

(** The scheduler lets thread [i] take one step. *)
Definition system_step (i : nat) (s : system) : system :=
  match nth_error (publishers s) i with
  | None => s
  | Some t =>
      let '(tail', t') := publisher_step (tail_cell s) t in
      mk_system tail' (replace_nth i t' (publishers s))
  end.

Fixpoint run_schedule (schedule : list nat) (s : system) : system :=
  match schedule with
  | [] => s
  | i :: schedule' => run_schedule schedule' (system_step i s)
  end.

(** All threads have just entered [update_tail]. *)
Definition initial (tail : Z) (ranges : list (Z * Z)) : system :=
  mk_system tail (map (fun '(o, n) => mk_publisher AtLoop o n) ranges).

(** What stays true of a run: the ranges are those the threads came
    with, and a thread that is past the loop test still sees its own
    [old_val] in the cell. *)
Definition run_inv (ranges : list (Z * Z)) (s : system) : Prop :=
  map (fun t => (pub_old t, pub_new t)) (publishers s) = ranges
  /\ forall j t, nth_error (publishers s) j = Some t ->
                 pub_pc t = AtStore -> pub_old t = tail_cell s.

End Publish.

(** ** What the ring holds *)

(** The [len] bytes at offset [off] of a region. *)
Definition read_bytes (l : list byte) (off len : Z) : list byte :=
  firstn (Z.to_nat len) (skipn (Z.to_nat off) l).

(** The bytes of the slot the copy loops address as [head + i]. *)
Definition slot_bytes (r : rte_ring) (head i : Z) : list byte :=
  read_bytes (data r) (slot_offset r head i) (elemlen r).

(** The elements published and not yet consumed, oldest first: the
    slots a dequeue that starts now would read, [entries_of r] of them
    from [cons_head] on. *)
Definition ring_contents (r : rte_ring) : list byte :=
  flat_map (fun i => slot_bytes r (cons_head r) (Z.of_nat i))
           (seq 0 (Z.to_nat (entries_of r))).

(** Calls made one after the other, with the bytes the enqueues took
    ([sent]) and the bytes the dequeues handed out ([received]), each in
    call order. *)
Fixpoint run_streams (fuel : nat) (ops : list ring_op) (r : rte_ring)
    (sent received : list byte) : outcome (rte_ring * list byte * list byte) :=
  match ops with
  | [] => Ok (r, sent, received)
  | Enqueue t n b :: ops' =>
      '(r', k) <- __rte_ring_do_enqueue fuel r t n b ;;
      run_streams fuel ops' r'
                  (sent ++ read_bytes t 0 (k * elemlen r)) received
  | Dequeue t n b :: ops' =>
      '(r', out, k) <- __rte_ring_do_dequeue fuel r t n b ;;
      run_streams fuel ops' r'
                  sent (received ++ read_bytes out 0 (k * elemlen r))
  end.

(** ** Reservations made one after the other *)

(** Successive successful head moves hand out ranges that follow each
    other: the first from [points_0] to [points_1], the next from
    [points_1] to [points_2], and so on. *)
Definition chain_ranges (points : list Z) : list (Z * Z) :=
  combine points (tl points).

(** The publishers of a chain stand in order: the tail is at point [k],
    every thread before [k] is back in its caller, every thread after
    [k] is still in the loop, and thread [k] is not back yet. *)
Definition published_up_to (points : list Z) (s : Publish.system) (k : nat)
  : Prop :=
  nth_error points k = Some (Publish.tail_cell s)
  /\ forall j t, nth_error (Publish.publishers s) j = Some t ->
       ((j < k)%nat -> Publish.pub_pc t = Publish.Returned)
       /\ ((k < j)%nat -> Publish.pub_pc t = Publish.AtLoop)
       /\ (j = k -> Publish.pub_pc t <> Publish.Returned).

(** ** The calls among other threads *)

(** Each thread makes one call, [__rte_ring_do_enqueue] or
    [__rte_ring_do_dequeue], and the scheduler interleaves the threads
    statement by statement.  A thread's program counter names the
    statement it executes next and carries the locals that statement
    needs.  Every access to the shared structure is one step; memory
    ordering is not part of the model. *)
Module Concurrent.

Inductive side : Type :=
| Producer
| Consumer.

Inductive pc : Type :=
| AtLoad                                  (* __atomic_load_n of the head *)
| AtCompute (old_head : Z)                (* read the other tail, settle n *)
| AtExchange (n old_head new_head : Z)    (* __atomic_compare_exchange_n *)
| AtCopy (n old_head new_head i : Z)      (* the for loop, before its test *)
| AtWait (n old_head new_head : Z)        (* update_tail, the loop test *)
| AtStore (n old_head new_head : Z)       (* update_tail, the store *)
| Returned (count : Z).

Record thread : Type := mk_thread {
  th_side : side;
  th_max : Z;
  th_behavior : rte_ring_queue_behavior;
  th_table : list byte;
  th_pc : pc
}.

Definition at_pc (t : thread) (p : pc) : thread :=
  mk_thread (th_side t) (th_max t) (th_behavior t) (th_table t) p.

Definition with_table (t : thread) (tbl : list byte) (p : pc) : thread :=
  mk_thread (th_side t) (th_max t) (th_behavior t) tbl p.

(** One statement of [__rte_ring_do_enqueue] (with
    [__rte_ring_move_prod_head] and [update_tail] inlined, as the
    compiler is told to). *)
Definition producer_step (r : rte_ring) (t : thread)
  : outcome (rte_ring * thread) :=
  match th_pc t with
  | AtLoad => Ok (r, at_pc t (AtCompute (prod_head r)))
  | AtCompute old_head =>
      if size r =? 0 then Undefined else
      let free_entries :=
        U32.wrap (capacity r + cons_tail r - old_head) mod size r in
      let n := granted (th_behavior t) (th_max t) free_entries in
      if n =? 0 then Ok (r, at_pc t (Returned 0))
      else Ok (r, at_pc t (AtExchange n old_head
                             (U32.wrap (old_head + n) mod size r)))
  | AtExchange n old_head new_head =>
      let '(cell, old_head', success) :=
        atomic_compare_exchange (prod_head r) old_head new_head in
      if success
      then Ok (set_prod_head r cell, at_pc t (AtCopy n old_head' new_head 0))
      else Ok (set_prod_head r cell, at_pc t AtLoad)
  | AtCopy n old_head new_head i =>
      if i <? n
      then d <- memcpy (data r) (slot_offset r old_head i)
                       (th_table t) (table_offset r i) (elemlen r) ;;
           Ok (set_data r d, at_pc t (AtCopy n old_head new_head (i + 1)))
      else Ok (r, at_pc t (AtWait n old_head new_head))
  | AtWait n old_head new_head =>
      if negb (prod_tail r =? old_head)
      then Ok (r, t)
      else Ok (r, at_pc t (AtStore n old_head new_head))
  | AtStore n old_head new_head =>
      Ok (set_prod_tail r new_head, at_pc t (Returned n))
  | Returned _ => Ok (r, t)
  end.

(** One statement of [__rte_ring_do_dequeue]. *)
Definition consumer_step (r : rte_ring) (t : thread)
  : outcome (rte_ring * thread) :=
  match th_pc t with
  | AtLoad => Ok (r, at_pc t (AtCompute (cons_head r)))
  | AtCompute old_head =>
      if size r =? 0 then Undefined else
      let entries :=
        U32.wrap (prod_tail r - old_head + size r) mod size r in
      let n := granted (th_behavior t) (th_max t) entries in
      if n =? 0 then Ok (r, at_pc t (Returned 0))
      else Ok (r, at_pc t (AtExchange n old_head
                             (U32.wrap (old_head + n) mod size r)))
  | AtExchange n old_head new_head =>
      let '(cell, old_head', success) :=
        atomic_compare_exchange (cons_head r) old_head new_head in
      if success
      then Ok (set_cons_head r cell, at_pc t (AtCopy n old_head' new_head 0))
      else Ok (set_cons_head r cell, at_pc t AtLoad)
  | AtCopy n old_head new_head i =>
      if i <? n
      then tbl <- memcpy (th_table t) (table_offset r i)
                         (data r) (slot_offset r old_head i) (elemlen r) ;;
           Ok (r, with_table t tbl (AtCopy n old_head new_head (i + 1)))
      else Ok (r, at_pc t (AtWait n old_head new_head))
  | AtWait n old_head new_head =>
      if negb (cons_tail r =? old_head)
      then Ok (r, t)
      else Ok (r, at_pc t (AtStore n old_head new_head))
  | AtStore n old_head new_head =>
      Ok (set_cons_tail r new_head, at_pc t (Returned n))
  | Returned _ => Ok (r, t)
  end.

Definition thread_step (r : rte_ring) (t : thread)
  : outcome (rte_ring * thread) :=
  match th_side t with
  | Producer => producer_step r t
  | Consumer => consumer_step r t
  end.

Record system : Type := mk_system {
  ring : rte_ring;
  threads : list thread
}.

Fixpoint set_nth (i : nat) (x : thread) (l : list thread) : list thread :=
  match l, i with
  | [], _ => []
  | _ :: l', O => x :: l'
  | y :: l', S i' => y :: set_nth i' x l'
  end.

(** The scheduler lets thread [i] execute one statement. *)
Definition system_step (i : nat) (s : system) : outcome system :=
  match nth_error (threads s) i with
  | None => Ok s
  | Some t =>
      '(r', t') <- thread_step (ring s) t ;;
      Ok (mk_system r' (set_nth i t' (threads s)))
  end.

Fixpoint run_schedule (schedule : list nat) (s : system) : outcome system :=
  match schedule with
  | [] => Ok s
  | i :: schedule' =>
      s' <- system_step i s ;;
      run_schedule schedule' s'
  end.

(** A thread about to make its call. *)
Definition enqueuer (obj_table : list byte) (n : Z)
    (behavior : rte_ring_queue_behavior) : thread :=
  mk_thread Producer n behavior obj_table AtLoad.

Definition dequeuer (obj_table : list byte) (n : Z)
    (behavior : rte_ring_queue_behavior) : thread :=
  mk_thread Consumer n behavior obj_table AtLoad.

(** What each thread's call has returned, where it has. *)
Definition returned_counts (s : system) : list (option Z) :=
  map (fun t => match th_pc t with Returned c => Some c | _ => None end)
      (threads s).

End Concurrent.

(** ** Producers only *)

(** Several producers enqueue at the same time and nobody dequeues.
    Book-keeping for the proofs: which exchanges have succeeded, in
    order, each with the thread that made it, the distance of its range
    from the head the ring started with, and its count. *)
Module Producers.
Import Concurrent.

Record reservation : Type := mk_reservation {
  res_thread : nat;
  res_off : Z;
  res_count : Z
}.

(** Slots reserved so far. *)
Definition reserved (log : list reservation) : Z :=
  fold_right (fun x acc => res_count x + acc) 0 log.

(** The log as it stands after thread [i] has executed its next
    statement in [s]: a successful exchange is added at the end. *)
Definition log_step (i : nat) (s : system) (log : list reservation)
  : list reservation :=
  match nth_error (threads s) i with
  | Some t =>
      match th_pc t with
      | AtExchange n old_head _ =>
          if prod_head (ring s) =? old_head
          then log ++ [mk_reservation i (reserved log) n]
          else log
      | _ => log
      end
  | None => log
  end.

(** The exchanges that succeed in a run, oldest first. *)
Fixpoint exchange_log (schedule : list nat) (s : system)
    (log : list reservation) : list reservation :=
  match schedule with
  | [] => log
  | i :: schedule' =>
      match system_step i s with
      | Ok s' => exchange_log schedule' s' (log_step i s log)
      | _ => log
      end
  end.

(** Ranges follow each other from distance [start] on and are not
    empty. *)
Fixpoint chained (start : Z) (log : list reservation) : Prop :=
  match log with
  | [] => True
  | x :: log' =>
      res_off x = start /\ 0 < res_count x
      /\ chained (start + res_count x) log'
  end.

(** The slot at distance [off] from the head the ring started with. *)
Definition slot_of (r0 : rte_ring) (off : Z) : Z :=
  (prod_head r0 + off) mod size r0.

(** The first [count] slots of the range at distance [off] hold the
    first [count] elements of [tbl]. *)
Definition filled (r0 r : rte_ring) (tbl : list byte) (off count : Z) : Prop :=
  forall i, 0 <= i < count ->
    read_bytes (data r) (slot_of r0 (off + i) * elemlen r0) (elemlen r0)
      = read_bytes tbl (i * elemlen r0) (elemlen r0).

(** What a thread that made reservation [x] is doing; [published] is
    the distance of the tail. *)
Definition entry_ok (r0 r : rte_ring) (published : Z) (t : thread)
    (x : reservation) : Prop :=
  match th_pc t with
  | AtCopy n old_head new_head i =>
      n = res_count x /\ old_head = slot_of r0 (res_off x)
      /\ new_head = slot_of r0 (res_off x + n)
      /\ 0 <= i <= n /\ published <= res_off x
      /\ filled r0 r (th_table t) (res_off x) i
  | AtWait n old_head new_head =>
      n = res_count x /\ old_head = slot_of r0 (res_off x)
      /\ new_head = slot_of r0 (res_off x + n)
      /\ published <= res_off x
      /\ filled r0 r (th_table t) (res_off x) n
  | AtStore n old_head new_head =>
      n = res_count x /\ old_head = slot_of r0 (res_off x)
      /\ new_head = slot_of r0 (res_off x + n)
      /\ published = res_off x
      /\ filled r0 r (th_table t) (res_off x) n
  | Returned c =>
      c = res_count x /\ res_off x + c <= published
      /\ filled r0 r (th_table t) (res_off x) c
  | _ => False
  end.

(** What a thread may be doing, given the log. *)
Definition thread_ok (r0 : rte_ring) (log : list reservation) (j : nat)
    (t : thread) : Prop :=
  th_side t = Producer /\ 0 <= th_max t
  /\ th_max t * elemlen r0 <= zlength (th_table t)
  /\ match th_pc t with
     | AtLoad => True
     | AtCompute old_head =>
         exists T, 0 <= T <= reserved log /\ old_head = slot_of r0 T
     | AtExchange n old_head new_head =>
         n <= th_max t
         /\ exists T, 0 <= T <= reserved log /\ old_head = slot_of r0 T
                      /\ 0 < n <= free_entries_of r0 - T
                      /\ new_head = slot_of r0 (T + n)
     | AtCopy n _ _ _ | AtWait n _ _ | AtStore n _ _ =>
         n <= th_max t
         /\ exists x, In x log /\ res_thread x = j /\ res_count x = n
     | Returned c =>
         c = 0 \/ exists x, In x log /\ res_thread x = j /\ res_count x = c
     end.

(** What holds of every state of a run of producers that started on the
    ring [r0] at rest. *)
Record inv (r0 : rte_ring) (s : system) (log : list reservation)
    (published : Z) : Prop := mk_inv {
  inv_static :
    size (ring s) = size r0 /\ capacity (ring s) = capacity r0
    /\ elemlen (ring s) = elemlen r0
    /\ cons_head (ring s) = cons_head r0 /\ cons_tail (ring s) = cons_tail r0
    /\ zlength (data (ring s)) = zlength (data r0);
  inv_chain : chained 0 log;
  inv_room : reserved log <= free_entries_of r0;
  inv_once : NoDup (map res_thread log);
  inv_head : prod_head (ring s) = slot_of r0 (reserved log);
  inv_published : 0 <= published <= reserved log;
  inv_tail : prod_tail (ring s) = slot_of r0 published;
  inv_threads :
    forall j t, nth_error (threads s) j = Some t -> thread_ok r0 log j t;
  inv_entries :
    forall x, In x log ->
      exists t, nth_error (threads s) (res_thread x) = Some t
                /\ entry_ok r0 (ring s) published t x;
  inv_kept :
    forall i, 0 <= i < entries_of r0 ->
      read_bytes (data (ring s))
        (((cons_head r0 + i) mod size r0) * elemlen r0) (elemlen r0)
      = read_bytes (data r0)
          (((cons_head r0 + i) mod size r0) * elemlen r0) (elemlen r0)
}.

(** A thread about to enqueue at most [th_max] elements of its table. *)
Definition ready (r0 : rte_ring) (t : thread) : Prop :=
  th_side t = Producer /\ 0 <= th_max t
  /\ th_max t * elemlen r0 <= zlength (th_table t)
  /\ th_pc t = AtLoad.

(** The bytes thread [j] of [s] has had accepted, given its count. *)
Definition accepted (s : system) (e : Z) (x : reservation) : list byte :=
  match nth_error (threads s) (res_thread x) with
  | Some t => read_bytes (th_table t) 0 (res_count x * e)
  | None => []
  end.

End Producers.

(** ** Consumers only *)

(** Several consumers dequeue at the same time and nobody enqueues.
    The book-keeping is that of the producers, with distances counted
    from the consumer head the ring started with. *)
Module Consumers.
Import Concurrent.

Definition log_step (i : nat) (s : system)
    (log : list Producers.reservation) : list Producers.reservation :=
  match nth_error (threads s) i with
  | Some t =>
      match th_pc t with
      | AtExchange n old_head _ =>
          if cons_head (ring s) =? old_head
          then log ++ [Producers.mk_reservation i (Producers.reserved log) n]
          else log
      | _ => log
      end
  | None => log
  end.

Fixpoint exchange_log (schedule : list nat) (s : system)
    (log : list Producers.reservation) : list Producers.reservation :=
  match schedule with
  | [] => log
  | i :: schedule' =>
      match system_step i s with
      | Ok s' => exchange_log schedule' s' (log_step i s log)
      | _ => log
      end
  end.

(** The slot at distance [off] from the consumer head the ring started
    with. *)
Definition slot_of (r0 : rte_ring) (off : Z) : Z :=
  (cons_head r0 + off) mod size r0.

(** The first [count] elements of [tbl] are those of the first [count]
    slots of the range at distance [off]. *)
Definition taken (r0 : rte_ring) (tbl : list byte) (off count : Z) : Prop :=
  forall i, 0 <= i < count ->
    read_bytes tbl (i * elemlen r0) (elemlen r0)
    = read_bytes (data r0) (slot_of r0 (off + i) * elemlen r0) (elemlen r0).

Definition entry_ok (r0 : rte_ring) (published : Z) (t : thread)
    (x : Producers.reservation) : Prop :=
  match th_pc t with
  | AtCopy n old_head new_head i =>
      n = Producers.res_count x
      /\ old_head = slot_of r0 (Producers.res_off x)
      /\ new_head = slot_of r0 (Producers.res_off x + n)
      /\ 0 <= i <= n /\ published <= Producers.res_off x
      /\ taken r0 (th_table t) (Producers.res_off x) i
  | AtWait n old_head new_head =>
      n = Producers.res_count x
      /\ old_head = slot_of r0 (Producers.res_off x)
      /\ new_head = slot_of r0 (Producers.res_off x + n)
      /\ published <= Producers.res_off x
      /\ taken r0 (th_table t) (Producers.res_off x) n
  | AtStore n old_head new_head =>
      n = Producers.res_count x
      /\ old_head = slot_of r0 (Producers.res_off x)
      /\ new_head = slot_of r0 (Producers.res_off x + n)
      /\ published = Producers.res_off x
      /\ taken r0 (th_table t) (Producers.res_off x) n
  | Returned c =>
      c = Producers.res_count x
      /\ Producers.res_off x + c <= published
      /\ taken r0 (th_table t) (Producers.res_off x) c
  | _ => False
  end.

Definition thread_ok (r0 : rte_ring) (log : list Producers.reservation)
    (j : nat) (t : thread) : Prop :=
  th_side t = Consumer /\ 0 <= th_max t
  /\ th_max t * elemlen r0 <= zlength (th_table t)
  /\ match th_pc t with
     | AtLoad => True
     | AtCompute old_head =>
         exists T, 0 <= T <= Producers.reserved log
                   /\ old_head = slot_of r0 T
     | AtExchange n old_head new_head =>
         n <= th_max t
         /\ exists T, 0 <= T <= Producers.reserved log
                      /\ old_head = slot_of r0 T
                      /\ 0 < n <= entries_of r0 - T
                      /\ new_head = slot_of r0 (T + n)
     | AtCopy n _ _ _ | AtWait n _ _ | AtStore n _ _ =>
         n <= th_max t
         /\ exists x, In x log /\ Producers.res_thread x = j
                      /\ Producers.res_count x = n
     | Returned c =>
         c = 0 \/ exists x, In x log /\ Producers.res_thread x = j
                            /\ Producers.res_count x = c
     end.

(** What holds of every state of a run of consumers that started on the
    ring [r0] at rest. *)
Record inv (r0 : rte_ring) (s : system) (log : list Producers.reservation)
    (published : Z) : Prop := mk_inv {
  inv_static :
    size (ring s) = size r0 /\ capacity (ring s) = capacity r0
    /\ elemlen (ring s) = elemlen r0
    /\ prod_head (ring s) = prod_head r0 /\ prod_tail (ring s) = prod_tail r0
    /\ data (ring s) = data r0;
  inv_chain : Producers.chained 0 log;
  inv_room : Producers.reserved log <= entries_of r0;
  inv_once : NoDup (map Producers.res_thread log);
  inv_head : cons_head (ring s) = slot_of r0 (Producers.reserved log);
  inv_published : 0 <= published <= Producers.reserved log;
  inv_tail : cons_tail (ring s) = slot_of r0 published;
  inv_threads :
    forall j t, nth_error (threads s) j = Some t -> thread_ok r0 log j t;
  inv_entries :
    forall x, In x log ->
      exists t, nth_error (threads s) (Producers.res_thread x) = Some t
                /\ entry_ok r0 published t x
}.

(** A thread about to dequeue at most [th_max] elements into its
    table. *)
Definition ready (r0 : rte_ring) (t : thread) : Prop :=
  th_side t = Consumer /\ 0 <= th_max t
  /\ th_max t * elemlen r0 <= zlength (th_table t)
  /\ th_pc t = AtLoad.

End Consumers.

(** ** One producer thread and one consumer thread *)

(** Two threads of an application share the ring: one makes enqueue
    calls one after the other, the other makes dequeue calls one after
    the other, and their statements are interleaved. *)
Module Spsc.
Import Concurrent.

(** A thread of the application: the call under way, the calls it
    makes after it, and what its finished calls handed back (the table
    as the call left it, and the count returned). *)
Record worker : Type := mk_worker {
  w_cur : option thread;
  w_calls : list ring_op;
  w_done : list (list byte * Z)
}.

Definition start (op : ring_op) : thread :=
  match op with
  | Enqueue tbl n b => enqueuer tbl n b
  | Dequeue tbl n b => dequeuer tbl n b
  end.

(** One step of a worker: it makes its next call, or executes one
    statement of the call under way, or takes the call's result. *)
Definition worker_step (r : rte_ring) (w : worker)
  : outcome (rte_ring * worker) :=
  match w_cur w with
  | None =>
      match w_calls w with
      | [] => Ok (r, w)
      | op :: calls => Ok (r, mk_worker (Some (start op)) calls (w_done w))
      end
  | Some t =>
      match th_pc t with
      | Returned c =>
          Ok (r, mk_worker None (w_calls w) (w_done w ++ [(th_table t, c)]))
      | _ =>
          '(r', t') <- thread_step r t ;;
          Ok (r', mk_worker (Some t') (w_calls w) (w_done w))
      end
  end.

Record system : Type := mk_system {
  ring : rte_ring;
  producer : worker;
  consumer : worker
}.

(** The scheduler lets the producer ([true]) or the consumer step. *)
Definition system_step (p : bool) (s : system) : outcome system :=
  if p
  then '(r', w') <- worker_step (ring s) (producer s) ;;
       Ok (mk_system r' w' (consumer s))
  else '(r', w') <- worker_step (ring s) (consumer s) ;;
       Ok (mk_system r' (producer s) w').

Fixpoint run_schedule (schedule : list bool) (s : system) : outcome system :=
  match schedule with
  | [] => Ok s
  | p :: schedule' =>
      s' <- system_step p s ;;
      run_schedule schedule' s'
  end.

(** The call of [t] has not returned yet. *)
Definition under_way (t : thread) : Prop :=
  match th_pc t with
  | Returned _ => False
  | _ => True
  end.

(** The calls of a worker that have returned, the one whose result it
    has not taken yet included. *)
Definition finished_of (w : worker) : list (list byte * Z) :=
  w_done w
  ++ match w_cur w with
     | Some t =>
         match th_pc t with
         | Returned c => [(th_table t, c)]
         | _ => []
         end
     | None => []
     end.

(** The elements a list of finished calls moved: of each table, as
    many elements from the front as the call returned. *)
Definition moved_bytes (e : Z) (calls : list (list byte * Z)) : list byte :=
  flat_map (fun tc => read_bytes (fst tc) 0 (snd tc * e)) calls.

(** What the ring held at the start, followed by every element an
    enqueue call has accepted. *)
Definition sent (r0 : rte_ring) (s : system) : list byte :=
  ring_contents r0 ++ moved_bytes (elemlen r0) (finished_of (producer s)).

(** Every element a dequeue call has handed out. *)
Definition received (r0 : rte_ring) (s : system) : list byte :=
  moved_bytes (elemlen r0) (finished_of (consumer s)).

Definition is_enqueue (e : Z) (op : ring_op) : Prop :=
  match op with
  | Enqueue tbl n _ => 0 <= n /\ n * e <= zlength tbl
  | Dequeue _ _ _ => False
  end.

Definition is_dequeue (e : Z) (op : ring_op) : Prop :=
  match op with
  | Dequeue tbl n _ => 0 <= n /\ n * e <= zlength tbl
  | Enqueue _ _ _ => False
  end.

(** The application at the start: no call under way. *)
Definition initial (r0 : rte_ring) (enqueues dequeues : list ring_op)
  : system :=
  mk_system r0 (mk_worker None enqueues []) (mk_worker None dequeues []).

(** The slot of the element at position [k] of [sent]. *)
Definition slot_at (r0 : rte_ring) (k : Z) : Z :=
  (cons_head r0 + k) mod size r0.

(** What the producer is doing; [ct] is the position of the consumer
    tail, [pt] and [ph] those of the producer tail and head. *)
Definition prod_ok (r0 r : rte_ring) (ct pt ph : Z) (w : worker) : Prop :=
  Forall (is_enqueue (elemlen r0)) (w_calls w)
  /\ match w_cur w with
     | None => ph = pt
     | Some t =>
         th_side t = Producer /\ 0 <= th_max t
         /\ th_max t * elemlen r0 <= zlength (th_table t)
         /\ match th_pc t with
            | AtLoad => ph = pt
            | AtCompute old_head => ph = pt /\ old_head = slot_at r0 ph
            | AtExchange n old_head new_head =>
                ph = pt /\ old_head = slot_at r0 ph
                /\ 0 < n <= th_max t /\ ph + n <= ct + size r0 - 1
                /\ new_head = slot_at r0 (ph + n)
            | AtCopy n old_head new_head i =>
                ph = pt + n /\ 0 < n <= th_max t
                /\ old_head = slot_at r0 pt /\ new_head = slot_at r0 ph
                /\ 0 <= i <= n
                /\ forall k, 0 <= k < i ->
                     read_bytes (data r) (slot_at r0 (pt + k) * elemlen r0)
                       (elemlen r0)
                     = read_bytes (th_table t) (k * elemlen r0) (elemlen r0)
            | AtWait n old_head new_head | AtStore n old_head new_head =>
                ph = pt + n /\ 0 < n <= th_max t
                /\ old_head = slot_at r0 pt /\ new_head = slot_at r0 ph
                /\ forall k, 0 <= k < n ->
                     read_bytes (data r) (slot_at r0 (pt + k) * elemlen r0)
                       (elemlen r0)
                     = read_bytes (th_table t) (k * elemlen r0) (elemlen r0)
            | Returned c => ph = pt /\ 0 <= c <= th_max t
            end
     end.

(** What the consumer is doing; [stream] is what has been sent. *)
Definition cons_ok (r0 : rte_ring) (stream : list byte) (ct ch pt : Z)
    (w : worker) : Prop :=
  Forall (is_dequeue (elemlen r0)) (w_calls w)
  /\ match w_cur w with
     | None => ch = ct
     | Some t =>
         th_side t = Consumer /\ 0 <= th_max t
         /\ th_max t * elemlen r0 <= zlength (th_table t)
         /\ match th_pc t with
            | AtLoad => ch = ct
            | AtCompute old_head => ch = ct /\ old_head = slot_at r0 ch
            | AtExchange n old_head new_head =>
                ch = ct /\ old_head = slot_at r0 ch
                /\ 0 < n <= th_max t /\ ch + n <= pt
                /\ new_head = slot_at r0 (ch + n)
            | AtCopy n old_head new_head i =>
                ch = ct + n /\ 0 < n <= th_max t /\ ch <= pt
                /\ old_head = slot_at r0 ct /\ new_head = slot_at r0 ch
                /\ 0 <= i <= n
                /\ forall k, 0 <= k < i ->
                     read_bytes (th_table t) (k * elemlen r0) (elemlen r0)
                     = read_bytes stream ((ct + k) * elemlen r0) (elemlen r0)
            | AtWait n old_head new_head | AtStore n old_head new_head =>
                ch = ct + n /\ 0 < n <= th_max t /\ ch <= pt
                /\ old_head = slot_at r0 ct /\ new_head = slot_at r0 ch
                /\ forall k, 0 <= k < n ->
                     read_bytes (th_table t) (k * elemlen r0) (elemlen r0)
                     = read_bytes stream ((ct + k) * elemlen r0) (elemlen r0)
            | Returned c => ch = ct /\ 0 <= c <= th_max t
            end
     end.

(** What holds of every state of a run that started on the ring [r0]
    at rest, with the four counters at the positions [ct <= ch <= pt
    <= ph] of the stream. *)
Record inv (r0 : rte_ring) (s : system) (ct ch pt ph : Z) : Prop := mk_inv {
  inv_static :
    size (ring s) = size r0 /\ capacity (ring s) = capacity r0
    /\ elemlen (ring s) = elemlen r0
    /\ zlength (data (ring s)) = zlength (data r0);
  inv_order : 0 <= ct /\ ct <= ch /\ ch <= pt /\ pt <= ph
              /\ ph <= ct + size r0 - 1;
  inv_counters :
    cons_tail (ring s) = slot_at r0 ct /\ cons_head (ring s) = slot_at r0 ch
    /\ prod_tail (ring s) = slot_at r0 pt
    /\ prod_head (ring s) = slot_at r0 ph;
  inv_sent : zlength (sent r0 s) = pt * elemlen r0;
  inv_stored :
    forall k, ct <= k < pt ->
      read_bytes (data (ring s)) (slot_at r0 k * elemlen r0) (elemlen r0)
      = read_bytes (sent r0 s) (k * elemlen r0) (elemlen r0);
  inv_received : received r0 s = read_bytes (sent r0 s) 0 (ct * elemlen r0);
  inv_producer : prod_ok r0 (ring s) ct pt ph (producer s);
  inv_consumer : cons_ok r0 (sent r0 s) ct ch pt (consumer s)
}.

End Spsc.
(** * Theorems *)

(** ** 32-bit wrap-around *)

Module U32Facts.
Import U32.

Lemma modulus_eq : modulus = 4294967296.
Proof. reflexivity. Qed.

Lemma wrap_range z : 0 <= wrap z < modulus.
Proof. unfold wrap. apply Z.mod_pos_bound. rewrite modulus_eq. lia. Qed.

Lemma wrap_small z : 0 <= z < modulus -> wrap z = z.
Proof. intros H. unfold wrap. apply Z.mod_small. exact H. Qed.

Lemma wrap_le z : 0 <= z -> wrap z <= z.
Proof. intros H. unfold wrap. apply Z.mod_le; [exact H | rewrite modulus_eq; lia]. Qed.

End U32Facts.

(** ** Head moves and the publish step, one thread alone *)

Lemma atomic_compare_exchange_same cur desired :
  atomic_compare_exchange cur cur desired = (desired, cur, true).
Proof. unfold atomic_compare_exchange. rewrite Z.eqb_refl. reflexivity. Qed.

Lemma move_prod_head_zero_size fuel r max b :
  size r = 0 -> __rte_ring_move_prod_head (S fuel) r max b = Undefined.
Proof. intros H. simpl. rewrite H. reflexivity. Qed.

Lemma move_cons_head_zero_size fuel r max b :
  size r = 0 -> __rte_ring_move_cons_head (S fuel) r max b = Undefined.
Proof. intros H. simpl. rewrite H. reflexivity. Qed.

(** With no other thread around the exchange succeeds in the first
    round, so one unit of fuel is as good as any. *)
Lemma move_prod_head_eq fuel r max b :
  size r <> 0 ->
  __rte_ring_move_prod_head (S fuel) r max b =
    let n := granted b max (free_entries_of r) in
    if n =? 0 then Ok (r, NoRoom)
    else Ok (set_prod_head r (next_head r (prod_head r) n),
             Moved n (prod_head r) (next_head r (prod_head r) n)).
Proof.
  intros Hs. apply Z.eqb_neq in Hs.
  cbn [__rte_ring_move_prod_head]. rewrite Hs.
  unfold granted, free_entries_of, next_head.
  rewrite atomic_compare_exchange_same.
  destruct (max >? _); destruct b; cbn zeta;
    match goal with |- context [?x =? 0] => destruct (x =? 0) end; reflexivity.
Qed.

Lemma move_cons_head_eq fuel r max b :
  size r <> 0 ->
  __rte_ring_move_cons_head (S fuel) r max b =
    let n := granted b max (entries_of r) in
    if n =? 0 then Ok (r, NoRoom)
    else Ok (set_cons_head r (next_head r (cons_head r) n),
             Moved n (cons_head r) (next_head r (cons_head r) n)).
Proof.
  intros Hs. apply Z.eqb_neq in Hs.
  cbn [__rte_ring_move_cons_head]. rewrite Hs.
  unfold granted, entries_of, next_head.
  rewrite atomic_compare_exchange_same.
  destruct (max >? _); destruct b; cbn zeta;
    match goal with |- context [?x =? 0] => destruct (x =? 0) end; reflexivity.
Qed.

Lemma update_tail_ready fuel tail new_val :
  update_tail (S fuel) tail tail new_val = Ok new_val.
Proof. simpl. rewrite Z.eqb_refl. reflexivity. Qed.

(** A thread alone whose predecessor has not published never leaves the
    wait loop. *)
Lemma update_tail_blocked fuel tail old_val new_val :
  tail <> old_val -> update_tail fuel tail old_val new_val = Spins.
Proof.
  intros H. apply Z.eqb_neq in H.
  induction fuel as [|fuel IH]; simpl; [reflexivity|].
  rewrite H. simpl. exact IH.
Qed.

(** ** The concrete scenario *)

(** C1: on a fresh ring of size 8 (capacity 7) with 4-byte elements,
    enqueueing [1..7] returns 7; enqueueing [8] under FIXED returns 0 and
    the occupied count stays 7; dequeuing 3 gives [1;2;3] and leaves 4
    occupied (3 free); enqueueing [8;9;10] under FIXED returns 3; the
    last dequeue of 7 gives [4;5;6;7;8;9;10] in that order.  Steps whose
    behaviour the scenario leaves open hold for both behaviours, and
    every positive fuel gives the same run. *)
Theorem C1_sequential_scenario :
  forall (fuel : nat) (b1 b3 b5 : rte_ring_queue_behavior),
  exists r0 r1 r3 r4 r5 out3 out5,
    rte_ring_create (512 + 8 * 4) 4 = Ok r0
    /\ size r0 = 8 /\ capacity r0 = 7 /\ elemlen r0 = 4
    /\ __rte_ring_do_enqueue (S fuel) r0 (ints_bytes [1;2;3;4;5;6;7]) 7 b1
       = Ok (r1, 7)
    /\ spec_occupied r1 = 7
    /\ __rte_ring_do_enqueue (S fuel) r1 (ints_bytes [8]) 1
         RTE_RING_QUEUE_FIXED = Ok (r1, 0)
    /\ __rte_ring_do_dequeue (S fuel) r1 (out_table 3) 3 b3
       = Ok (r3, out3, 3)
    /\ bytes_ints 3 out3 = [1;2;3]
    /\ spec_occupied r3 = 4 /\ free_entries_of r3 = 3
    /\ __rte_ring_do_enqueue (S fuel) r3 (ints_bytes [8;9;10]) 3
         RTE_RING_QUEUE_FIXED = Ok (r4, 3)
    /\ __rte_ring_do_dequeue (S fuel) r4 (out_table 7) 7 b5
       = Ok (r5, out5, 7)
    /\ bytes_ints 7 out5 = [4;5;6;7;8;9;10].
Proof.
  intros fuel b1 b3 b5.
  do 7 eexists.
  repeat (split; [vm_compute; reflexivity|]).
  vm_compute. reflexivity.
Qed.


(** ** Where the heads live *)

(** What lines 165 and 233 do: a successful reservation of [n] slots, on
    either side, leaves the head at [((old_head + n) mod 2^32) mod size].
    The struct comment of [rte_ring] (lines 64-69) and the comments in
    front of lines 155 and 224 describe indexes that run between 0 and
    2^32 and are masked only where the storage is addressed. *)
Lemma head_move_reduces_modulo_size :
  forall fuel r max b r' n old_head new_head,
    __rte_ring_move_prod_head fuel r max b = Ok (r', Moved n old_head new_head)
    \/ __rte_ring_move_cons_head fuel r max b
       = Ok (r', Moved n old_head new_head) ->
    new_head = U32.wrap (old_head + n) mod size r
    /\ n <> 0
    /\ ((old_head = prod_head r /\ r' = set_prod_head r new_head)
        \/ (old_head = cons_head r /\ r' = set_cons_head r new_head)).
Proof.
  intros fuel r max b r' n old_head new_head H.
  destruct fuel as [|fuel]; [destruct H; discriminate|].
  destruct (Z.eq_dec (size r) 0) as [Hz|Hnz].
  - rewrite move_prod_head_zero_size, move_cons_head_zero_size in H by exact Hz.
    destruct H; discriminate.
  - rewrite move_prod_head_eq, move_cons_head_eq in H by exact Hnz.
    cbn zeta in H. unfold next_head in H.
    destruct H as [H|H];
      match type of H with context [?x =? 0] =>
        destruct (Z.eqb_spec x 0) as [E|E] end;
      inversion H; subst; repeat split; auto.
Qed.

(** C2 (a defect of the code): the heads are to run modulo 2^32, as
    the struct comment of [rte_ring] says, and the code reduces them
    modulo [size].  On the ring of size 8 that has taken seven elements
    and given three back the producer head stands at 7; reserving three
    slots moves it to 2, where [(7 + 3) mod 2^32] is 10. *)
Theorem C2_head_leaves_the_range_of_its_comment :
  exists r0 r1 r2 out r3,
    rte_ring_create (512 + 8 * 4) 4 = Ok r0
    /\ rte_ring_enqueue_bulk 1 r0 (ints_bytes [1;2;3;4;5;6;7]) 7 = Ok (r1, 7)
    /\ rte_ring_dequeue_bulk 1 r1 (out_table 3) 3 = Ok (r2, out, 3)
    /\ prod_head r2 = 7
    /\ __rte_ring_move_prod_head 1 r2 3 RTE_RING_QUEUE_FIXED
       = Ok (r3, Moved 3 7 2)
    /\ prod_head r3 = 2
    /\ U32.wrap (prod_head r2 + 3) = 10
    /\ prod_head r3 <> U32.wrap (prod_head r2 + 3).
Proof.
  do 5 eexists.
  repeat (split; [vm_compute; reflexivity|]).
  vm_compute. discriminate.
Qed.

(** ** Requests that cannot be met *)

Lemma granted_fixed_zero n avail :
  avail < n -> granted RTE_RING_QUEUE_FIXED n avail = 0.
Proof.
  intros H. unfold granted.
  destruct (Z.gtb_spec n avail); [reflexivity | lia].
Qed.

Lemma granted_zero b avail : 0 <= avail -> granted b 0 avail = 0.
Proof.
  intros H. unfold granted.
  destruct (Z.gtb_spec 0 avail); [lia | reflexivity].
Qed.

Lemma free_entries_bound r : 0 < size r -> 0 <= free_entries_of r < size r.
Proof. intros H. unfold free_entries_of. apply Z.mod_pos_bound. exact H. Qed.

Lemma entries_bound r : 0 < size r -> 0 <= entries_of r < size r.
Proof. intros H. unfold entries_of. apply Z.mod_pos_bound. exact H. Qed.

(** C5: a FIXED request for more than [capacity] elements returns 0,
    whatever the occupancy, and leaves the ring (four counters and
    storage) and the caller's table as they were.  [size], [capacity] and
    [n] are 32-bit unsigned values and [capacity] is [size - 1] as
    [rte_ring_create] sets it. *)
Theorem C5_fixed_request_above_capacity :
  forall fuel r obj_table n,
    0 <= size r < U32.modulus ->
    capacity r = U32.wrap (size r - 1) ->
    0 <= n < U32.modulus ->
    capacity r < n ->
    __rte_ring_do_enqueue (S fuel) r obj_table n RTE_RING_QUEUE_FIXED
      = Ok (r, 0)
    /\ __rte_ring_do_dequeue (S fuel) r obj_table n RTE_RING_QUEUE_FIXED
       = Ok (r, obj_table, 0).
Proof.
  intros fuel r obj_table n Hs Hc Hn Hgt.
  assert (Hpos : 0 < size r).
  { destruct (Z.eq_dec (size r) 0) as [E|E]; [|lia].
    rewrite E in Hc. change (U32.wrap (0 - 1)) with 4294967295 in Hc.
    rewrite U32Facts.modulus_eq in Hn. lia. }
  rewrite U32Facts.wrap_small in Hc by lia.
  pose proof (free_entries_bound r Hpos) as Hf.
  pose proof (entries_bound r Hpos) as He.
  unfold __rte_ring_do_enqueue, __rte_ring_do_dequeue.
  rewrite move_prod_head_eq, move_cons_head_eq by lia.
  cbn zeta. rewrite !granted_fixed_zero by lia.
  split; reflexivity.
Qed.

Lemma C5_fixed_request_above_capacity_witness :
  __rte_ring_do_enqueue 1 (mk_ring 8 7 7 4 2 2 5 5 (repeat x00 32))
      (ints_bytes [1;2;3;4;5;6;7;8]) 8 RTE_RING_QUEUE_FIXED
    = Ok (mk_ring 8 7 7 4 2 2 5 5 (repeat x00 32), 0)
  /\ __rte_ring_do_dequeue 1 (mk_ring 8 7 7 4 2 2 5 5 (repeat x00 32))
      (ints_bytes [1;2;3;4;5;6;7;8]) 8 RTE_RING_QUEUE_FIXED
    = Ok (mk_ring 8 7 7 4 2 2 5 5 (repeat x00 32),
          ints_bytes [1;2;3;4;5;6;7;8], 0).
Proof.
  apply (C5_fixed_request_above_capacity
           0 (mk_ring 8 7 7 4 2 2 5 5 (repeat x00 32))
           (ints_bytes [1;2;3;4;5;6;7;8]) 8).
  - simpl. rewrite U32Facts.modulus_eq. lia.
  - reflexivity.
  - rewrite U32Facts.modulus_eq. lia.
  - simpl. lia.
Defined.

(** C9 (as amended): on a ring with at least one slot, a request for
    [n = 0] elements, enqueue or dequeue, under either behaviour,
    returns 0 from the head move before the exchange is reached
    ([NoRoom]); the four counters, the storage and the caller's table
    are as before. *)
Theorem C9_zero_request_has_no_effect :
  forall fuel r obj_table b,
    0 < size r ->
    __rte_ring_move_prod_head (S fuel) r 0 b = Ok (r, NoRoom)
    /\ __rte_ring_move_cons_head (S fuel) r 0 b = Ok (r, NoRoom)
    /\ __rte_ring_do_enqueue (S fuel) r obj_table 0 b = Ok (r, 0)
    /\ __rte_ring_do_dequeue (S fuel) r obj_table 0 b = Ok (r, obj_table, 0).
Proof.
  intros fuel r obj_table b Hpos.
  pose proof (free_entries_bound r Hpos) as Hf.
  pose proof (entries_bound r Hpos) as He.
  unfold __rte_ring_do_enqueue, __rte_ring_do_dequeue.
  rewrite move_prod_head_eq, move_cons_head_eq by lia.
  cbn zeta. rewrite !granted_zero by lia.
  repeat split; reflexivity.
Qed.

Lemma C9_zero_request_has_no_effect_witness :
  0 < 8
  /\ __rte_ring_do_enqueue 1 (mk_ring 8 7 7 4 2 2 5 5 (repeat x00 32))
       [] 0 RTE_RING_QUEUE_VARIABLE
     = Ok (mk_ring 8 7 7 4 2 2 5 5 (repeat x00 32), 0).
Proof.
  split; [lia|].
  apply (C9_zero_request_has_no_effect
           0 (mk_ring 8 7 7 4 2 2 5 5 (repeat x00 32)) []
           RTE_RING_QUEUE_VARIABLE).
  simpl. lia.
Defined.

(** C9 (as stated) fails: [rte_ring_create] checks nothing, and a block
    of 514 bytes with elements of 4 gives a ring of size 0.  Lines 155
    and 224 take the remainder modulo [size] before they look at [n], so
    on that ring a request for no element divides by zero, on either
    side and under either behaviour, instead of returning 0. *)
Lemma C9_counterexample :
  exists r,
    rte_ring_create 514 4 = Ok r
    /\ size r = 0
    /\ __rte_ring_move_prod_head 1 r 0 RTE_RING_QUEUE_FIXED = Undefined
    /\ __rte_ring_move_cons_head 1 r 0 RTE_RING_QUEUE_FIXED = Undefined
    /\ __rte_ring_do_enqueue 1 r [] 0 RTE_RING_QUEUE_VARIABLE = Undefined
    /\ __rte_ring_do_dequeue 1 r [] 0 RTE_RING_QUEUE_FIXED = Undefined
    /\ __rte_ring_do_enqueue 1 r [] 0 RTE_RING_QUEUE_VARIABLE <> Ok (r, 0)
    /\ __rte_ring_do_dequeue 1 r [] 0 RTE_RING_QUEUE_FIXED <> Ok (r, [], 0).
Proof.
  eexists.
  repeat (split; [vm_compute; reflexivity|]).
  split; vm_compute; discriminate.
Qed.

(** ** Copies stay inside their regions *)

Lemma memcpy_ok dst doff src soff len :
  0 <= doff -> 0 <= soff -> 0 <= len ->
  doff + len <= zlength dst -> soff + len <= zlength src ->
  exists d, memcpy dst doff src soff len = Ok d /\ zlength d = zlength dst.
Proof.
  intros H1 H2 H3 H4 H5. unfold memcpy.
  assert (E : (0 <=? doff) && (0 <=? soff) && (0 <=? len)
              && (doff + len <=? zlength dst) && (soff + len <=? zlength src)
              = true).
  { rewrite !andb_true_iff, !Z.leb_le. auto. }
  rewrite E. eexists. split; [reflexivity|].
  unfold zlength in *.
  rewrite !length_app, !length_firstn, !length_skipn. lia.
Qed.

Lemma slot_offset_bounds r head i :
  0 < size r -> 0 <= elemlen r ->
  0 <= slot_offset r head i
  /\ slot_offset r head i + elemlen r <= size r * elemlen r.
Proof.
  intros Hs He. unfold slot_offset.
  pose proof (Z.mod_pos_bound (U32.wrap (head + i)) (size r) Hs) as Hm.
  set (s := U32.wrap (head + i) mod size r) in *.
  assert (H0 : 0 <= s * elemlen r) by nia.
  pose proof (U32Facts.wrap_range (s * elemlen r)) as Hr.
  pose proof (U32Facts.wrap_le (s * elemlen r) H0) as Hl.
  split; [lia | nia].
Qed.

Lemma table_offset_bounds r i :
  0 <= i -> 0 <= elemlen r ->
  0 <= table_offset r i /\ table_offset r i <= i * elemlen r.
Proof.
  intros Hi He. unfold table_offset.
  assert (H0 : 0 <= i * elemlen r) by nia.
  pose proof (U32Facts.wrap_range (i * elemlen r)) as Hr.
  pose proof (U32Facts.wrap_le (i * elemlen r) H0) as Hl.
  lia.
Qed.

Lemma enqueue_copy_ok todo : forall r head i obj_table d,
  0 < size r -> 0 <= elemlen r ->
  size r * elemlen r <= zlength d ->
  0 <= i -> (i + Z.of_nat todo) * elemlen r <= zlength obj_table ->
  exists d', enqueue_copy todo r head i obj_table d = Ok d'
             /\ zlength d' = zlength d.
Proof.
  induction todo as [|todo IH]; intros r head i obj_table d Hs He Hd Hi Ht.
  - exists d. split; reflexivity.
  - cbn [enqueue_copy].
    pose proof (slot_offset_bounds r head i Hs He) as [Ho1 Ho2].
    pose proof (table_offset_bounds r i Hi He) as [Ht1 Ht2].
    destruct (memcpy_ok d (slot_offset r head i) obj_table (table_offset r i)
                (elemlen r)) as [d1 [E1 L1]]; try lia; try nia.
    rewrite E1. cbn [bind].
    destruct (IH r head (i + 1) obj_table d1) as [d2 [E2 L2]];
      try lia; try nia.
    exists d2. split; [exact E2 | lia].
Qed.

Lemma dequeue_copy_ok todo : forall r head i obj_table,
  0 < size r -> 0 <= elemlen r ->
  size r * elemlen r <= zlength (data r) ->
  0 <= i -> (i + Z.of_nat todo) * elemlen r <= zlength obj_table ->
  exists t', dequeue_copy todo r head i obj_table = Ok t'
             /\ zlength t' = zlength obj_table.
Proof.
  induction todo as [|todo IH]; intros r head i obj_table Hs He Hd Hi Ht.
  - exists obj_table. split; reflexivity.
  - cbn [dequeue_copy].
    pose proof (slot_offset_bounds r head i Hs He) as [Ho1 Ho2].
    pose proof (table_offset_bounds r i Hi He) as [Ht1 Ht2].
    destruct (memcpy_ok obj_table (table_offset r i) (data r)
                (slot_offset r head i) (elemlen r)) as [t1 [E1 L1]];
      try lia; try nia.
    rewrite E1. cbn [bind].
    destruct (IH r head (i + 1) t1) as [t2 [E2 L2]]; try lia; try nia.
    exists t2. split; [exact E2 | lia].
Qed.

(** ** Counter arithmetic on a ring at rest *)

Lemma mod_below_twice s x :
  0 < s -> 0 <= x < 2 * s ->
  (x < s /\ x mod s = x) \/ (s <= x /\ x mod s = x - s).
Proof.
  intros Hs Hx. destruct (Z_lt_le_dec x s) as [Hlt|Hge].
  - left. split; [exact Hlt | apply Z.mod_small; lia].
  - right. split; [exact Hge|].
    symmetry. apply (Z.mod_unique x s 1); lia.
Qed.

Lemma granted_bounds b n avail :
  0 <= n -> 0 <= avail ->
  0 <= granted b n avail <= n /\ granted b n avail <= avail.
Proof.
  intros Hn Ha. unfold granted.
  destruct (Z.gtb_spec n avail); destruct b; lia.
Qed.

Lemma entries_of_inv r :
  ring_inv r ->
  entries_of r = (prod_tail r - cons_head r + size r) mod size r.
Proof.
  intros [Hs _ _ _ Hp Hpt Hc _]. unfold entries_of.
  rewrite U32Facts.wrap_small; [reflexivity|].
  rewrite U32Facts.modulus_eq. change (2 ^ 31) with 2147483648 in Hs. lia.
Qed.

Lemma free_entries_of_inv r :
  ring_inv r ->
  free_entries_of r = (size r - 1 + cons_head r - prod_head r) mod size r.
Proof.
  intros [Hs Hcap _ _ Hp _ Hc Hct]. unfold free_entries_of.
  rewrite Hcap, Hct. rewrite U32Facts.wrap_small; [reflexivity|].
  rewrite U32Facts.modulus_eq. change (2 ^ 31) with 2147483648 in Hs. lia.
Qed.

Ltac split_mod s x :=
  let H := fresh "Hmod" in
  assert (H := mod_below_twice s x ltac:(lia) ltac:(lia));
  destruct H as [[? H]|[? H]]; rewrite ?H in *.

(** On a ring at rest the two counts the code takes add up to the
    capacity. *)
Lemma free_plus_entries r :
  ring_inv r -> free_entries_of r + entries_of r = capacity r.
Proof.
  intros Hinv.
  rewrite (entries_of_inv r Hinv), (free_entries_of_inv r Hinv).
  destruct Hinv as [Hs Hcap _ _ Hp Hpt Hc _]. rewrite Hcap, Hpt.
  split_mod (size r) (prod_head r - cons_head r + size r);
    split_mod (size r) (size r - 1 + cons_head r - prod_head r); lia.
Qed.

Lemma next_head_inv r head n :
  0 < size r <= 2 ^ 31 -> 0 <= head < size r -> 0 <= n < size r ->
  next_head r head n = (head + n) mod size r
  /\ 0 <= next_head r head n < size r.
Proof.
  intros Hs Hh Hn. unfold next_head.
  rewrite U32Facts.wrap_small.
  - split; [reflexivity | apply Z.mod_pos_bound; lia].
  - rewrite U32Facts.modulus_eq. change (2 ^ 31) with 2147483648 in Hs. lia.
Qed.

(** ** What one call does to a ring at rest *)

Lemma do_enqueue_spec fuel r obj_table n b :
  ring_inv r -> 0 <= n -> n * elemlen r <= zlength obj_table ->
  exists r',
    __rte_ring_do_enqueue (S fuel) r obj_table n b
      = Ok (r', granted b n (free_entries_of r))
    /\ ring_inv r'
    /\ size r' = size r /\ elemlen r' = elemlen r
    /\ zlength (data r') = zlength (data r)
    /\ cons_head r' = cons_head r
    /\ prod_head r' = (prod_head r + granted b n (free_entries_of r))
                        mod size r
    /\ entries_of r' = entries_of r + granted b n (free_entries_of r).
Proof.
  intros Hinv Hn Ht.
  pose proof (free_plus_entries r Hinv) as Hsum.
  pose proof (entries_of_inv r Hinv) as Hent.
  destruct Hinv as [Hs Hcap He Hd Hp Hpt Hc Hct].
  assert (Hpos : 0 < size r) by lia.
  pose proof (free_entries_bound r Hpos) as Hf.
  pose proof (entries_bound r Hpos) as Heb.
  pose proof (granted_bounds b n (free_entries_of r) Hn (proj1 Hf)) as [Hg1 Hg2].
  unfold __rte_ring_do_enqueue.
  rewrite move_prod_head_eq by lia. cbn zeta.
  set (g := granted b n (free_entries_of r)) in *.
  destruct (Z.eqb_spec g 0) as [E0|E0].
  - exists r. cbn [bind]. rewrite E0, Z.add_0_r, Z.mod_small by lia.
    repeat split; auto; lia.
  - cbn [bind].
    destruct (next_head_inv r (prod_head r) g) as [Enh Hnh]; try lia.
    set (nh := next_head r (prod_head r) g) in *.
    destruct (enqueue_copy_ok (Z.to_nat g) (set_prod_head r nh) (prod_head r)
                0 obj_table (data r)) as [d [Ecopy Ld]];
      cbn [set_prod_head size elemlen]; try lia; try nia.
    change (data (set_prod_head r nh)) with (data r).
    rewrite Ecopy. cbn [bind].
    change (prod_tail (set_data (set_prod_head r nh) d)) with (prod_tail r).
    rewrite Hpt, update_tail_ready. cbn [bind].
    eexists. split; [reflexivity|].
    assert (Hinv' : ring_inv (set_prod_tail (set_data (set_prod_head r nh) d) nh)).
    { constructor; cbn; auto; lia. }
    split; [exact Hinv'|].
    repeat split; cbn; auto.
    rewrite (entries_of_inv _ Hinv'). cbn.
    rewrite Hent, Hpt, Enh in *.
    split_mod (size r) (prod_head r + g);
      split_mod (size r) (prod_head r - cons_head r + size r);
      match goal with |- (?x) mod _ = _ => split_mod (size r) x end; lia.
Qed.

Lemma do_dequeue_spec fuel r obj_table n b :
  ring_inv r -> 0 <= n -> n * elemlen r <= zlength obj_table ->
  exists r' out,
    __rte_ring_do_dequeue (S fuel) r obj_table n b
      = Ok (r', out, granted b n (entries_of r))
    /\ ring_inv r'
    /\ size r' = size r /\ elemlen r' = elemlen r
    /\ data r' = data r
    /\ zlength out = zlength obj_table
    /\ prod_head r' = prod_head r
    /\ cons_head r' = (cons_head r + granted b n (entries_of r)) mod size r
    /\ entries_of r' = entries_of r - granted b n (entries_of r).
Proof.
  intros Hinv Hn Ht.
  pose proof (entries_of_inv r Hinv) as Hent.
  destruct Hinv as [Hs Hcap He Hd Hp Hpt Hc Hct].
  assert (Hpos : 0 < size r) by lia.
  pose proof (entries_bound r Hpos) as Heb.
  pose proof (granted_bounds b n (entries_of r) Hn (proj1 Heb)) as [Hg1 Hg2].
  unfold __rte_ring_do_dequeue.
  rewrite move_cons_head_eq by lia. cbn zeta.
  set (g := granted b n (entries_of r)) in *.
  destruct (Z.eqb_spec g 0) as [E0|E0].
  - exists r, obj_table. cbn [bind].
    rewrite E0, Z.add_0_r, Z.sub_0_r, Z.mod_small by lia.
    split; [reflexivity|].
    split; [constructor; auto|].
    repeat split; auto.
  - cbn [bind].
    destruct (next_head_inv r (cons_head r) g) as [Enh Hnh]; try lia.
    set (nh := next_head r (cons_head r) g) in *.
    destruct (dequeue_copy_ok (Z.to_nat g) (set_cons_head r nh) (cons_head r)
                0 obj_table) as [out [Ecopy Lo]];
      cbn [set_cons_head size elemlen data]; try lia; try nia.
    rewrite Ecopy. cbn [bind].
    change (cons_tail (set_cons_head r nh)) with (cons_tail r).
    rewrite Hct, update_tail_ready. cbn [bind].
    eexists. exists out. split; [reflexivity|].
    assert (Hinv' : ring_inv (set_cons_tail (set_cons_head r nh) nh)).
    { constructor; cbn; auto; lia. }
    split; [exact Hinv'|].
    repeat split; cbn; auto.
    rewrite (entries_of_inv _ Hinv'). cbn.
    rewrite Hent, Enh in *.
    split_mod (size r) (cons_head r + g);
      split_mod (size r) (prod_tail r - cons_head r + size r);
      match goal with |- (?x) mod _ = _ => split_mod (size r) x end; lia.
Qed.

(** ** The ring [rte_ring_create] returns *)

Lemma create_inv totallen elemlen' :
  0 < elemlen' -> 512 + elemlen' <= totallen < 2 ^ 31 ->
  exists r,
    rte_ring_create totallen elemlen' = Ok r
    /\ ring_inv r
    /\ size r = (totallen - 512) / elemlen'
    /\ elemlen r = elemlen'
    /\ zlength (data r) = totallen - 512
    /\ prod_head r = 0 /\ cons_head r = 0.
Proof.
  intros He Ht. change (2 ^ 31) with 2147483648 in Ht.
  unfold rte_ring_create.
  destruct (Z.eqb_spec elemlen' 0) as [E|_]; [lia|].
  destruct (Z.ltb_spec totallen 512) as [E|_]; [lia|].
  rewrite Z.quot_div_nonneg by lia.
  assert (Hq : 1 <= (totallen - 512) / elemlen').
  { apply Z.div_le_lower_bound; lia. }
  assert (Hq2 : (totallen - 512) / elemlen' <= totallen - 512).
  { apply Z.div_le_upper_bound; [lia | nia]. }
  assert (Hq3 : elemlen' * ((totallen - 512) / elemlen') <= totallen - 512).
  { apply Z.mul_div_le. lia. }
  rewrite (U32Facts.wrap_small ((totallen - 512) / elemlen'))
    by (rewrite U32Facts.modulus_eq; lia).
  rewrite (U32Facts.wrap_small ((totallen - 512) / elemlen' - 1))
    by (rewrite U32Facts.modulus_eq; lia).
  rewrite (U32Facts.wrap_small elemlen') by (rewrite U32Facts.modulus_eq; lia).
  eexists. split; [reflexivity|].
  assert (Hlen : zlength (repeat x00 (Z.to_nat (totallen - 512)))
                 = totallen - 512).
  { unfold zlength. rewrite repeat_length. lia. }
  split.
  - constructor; cbn; try rewrite Hlen; lia.
  - repeat split; cbn; auto.
Qed.

(** ** The publish step *)

Module PublishFacts.
Import Publish.

Lemma nth_error_replace_nth i x : forall l j,
  nth_error (replace_nth i x l) j =
    if Nat.eqb i j
    then match nth_error l j with Some _ => Some x | None => None end
    else nth_error l j.
Proof.
  induction i as [|i IH]; intros [|y l] [|j]; cbn; try reflexivity.
  - destruct (Nat.eqb i j); reflexivity.
  - apply IH.
Qed.

Lemma replace_nth_same i t : forall l,
  nth_error l i = Some t -> replace_nth i t l = l.
Proof.
  induction i as [|i IH]; intros [|y l] H; cbn in *; try discriminate.
  - inversion H. reflexivity.
  - rewrite (IH l H). reflexivity.
Qed.

Lemma system_eta s : mk_system (tail_cell s) (publishers s) = s.
Proof. destruct s. reflexivity. Qed.


Lemma map_replace_nth_same i t t' : forall l,
  nth_error l i = Some t ->
  pub_old t' = pub_old t -> pub_new t' = pub_new t ->
  map (fun t => (pub_old t, pub_new t)) (replace_nth i t' l)
    = map (fun t => (pub_old t, pub_new t)) l.
Proof.
  induction i as [|i IH]; intros [|y l] H Ho Hn; cbn in *; try discriminate.
  - inversion H; subst. rewrite Ho, Hn. reflexivity.
  - rewrite (IH l H Ho Hn). reflexivity.
Qed.


Lemma initial_inv tail ranges : run_inv ranges (initial tail ranges).
Proof.
  split.
  - cbn. rewrite map_map. induction ranges as [|[o n] l IH]; cbn; congruence.
  - cbn. intros j t Hj Ht. exfalso.
    apply nth_error_In, in_map_iff in Hj. destruct Hj as [[o n] [E _]].
    subst t. discriminate.
Qed.


End PublishFacts.

(** One thread alone comes back from [update_tail] only if the tail
    already stood at [old_val], and then the tail is [new_val]. *)
Lemma update_tail_returns fuel tail old_val new_val v :
  update_tail fuel tail old_val new_val = Ok v ->
  tail = old_val /\ v = new_val.
Proof.
  intros H. destruct (Z.eq_dec tail old_val) as [E|E].
  - subst. destruct fuel; [discriminate|].
    rewrite update_tail_ready in H. inversion H. auto.
  - rewrite update_tail_blocked in H by exact E. discriminate.
Qed.



(** ** Sequences of calls *)

Lemma run_ops_spec fuel ops : forall r net,
  ring_inv r -> Forall (op_fits (elemlen r)) ops ->
  exists r' net',
    run_ops (S fuel) ops r net = Ok (r', net')
    /\ ring_inv r'
    /\ size r' = size r /\ elemlen r' = elemlen r
    /\ entries_of r' - net' = entries_of r - net.
Proof.
  induction ops as [|op ops IH]; intros r net Hinv Hfit.
  - exists r, net. cbn.
    split; [reflexivity|]. split; [exact Hinv|]. repeat split; auto.
  - inversion Hfit as [|? ? Hop Hops]; subst.
    destruct op as [t n b|t n b]; cbn [run_ops]; destruct Hop as [Hn Ht].
    + destruct (do_enqueue_spec fuel r t n b Hinv Hn Ht)
        as [r1 [E [Hinv1 [Hs [He [_ [_ [_ Hent]]]]]]]].
      rewrite E. cbn [bind].
      rewrite <- He in Hops.
      destruct (IH r1 (net + granted b n (free_entries_of r)) Hinv1 Hops)
        as [r' [net' [E' [Hinv' [Hs' [He' Hent']]]]]].
      exists r', net'. rewrite E'.
      split; [reflexivity|]. split; [exact Hinv'|].
      repeat split; try congruence. lia.
    + destruct (do_dequeue_spec fuel r t n b Hinv Hn Ht)
        as [r1 [out [E [Hinv1 [Hs [He [_ [_ [_ [_ Hent]]]]]]]]]].
      rewrite E. cbn [bind].
      rewrite <- He in Hops.
      destruct (IH r1 (net - granted b n (entries_of r)) Hinv1 Hops)
        as [r' [net' [E' [Hinv' [Hs' [He' Hent']]]]]].
      exists r', net'. rewrite E'.
      split; [reflexivity|]. split; [exact Hinv'|].
      repeat split; try congruence. lia.
Qed.

(** What the code keeps between calls: after any sequence of enqueue
    and dequeue calls on a freshly created ring, each tail is level with
    its head, the counters lie in [0, size), and the count line 224
    takes, [((prod_tail - cons_head + size) mod 2^32) mod size], is what
    the enqueues returned minus what the dequeues returned, and the
    usage [ring_info] prints.  The configuration holds at least one
    element and each call's table holds the elements asked for. *)
Lemma occupied_count_is_net :
  forall fuel totallen elemlen' ops,
    0 < elemlen' -> 512 + elemlen' <= totallen < 2 ^ 31 ->
    Forall (op_fits elemlen') ops ->
    exists r0 r net,
      rte_ring_create totallen elemlen' = Ok r0
      /\ run_ops (S fuel) ops r0 0 = Ok (r, net)
      /\ prod_tail r = prod_head r /\ cons_tail r = cons_head r
      /\ 0 <= prod_head r < size r /\ 0 <= cons_head r < size r
      /\ entries_of r = net
      /\ ring_usage r = entries_of r
      /\ 0 <= net <= capacity r.
Proof.
  intros fuel totallen elemlen' ops He Ht Hfit.
  destruct (create_inv totallen elemlen' He Ht)
    as [r0 [E0 [Hinv0 [Hs0 [He0 [_ [Hp0 Hc0]]]]]]].
  rewrite <- He0 in Hfit.
  destruct (run_ops_spec fuel ops r0 0 Hinv0 Hfit)
    as [r [net [E [Hinv [Hs [Hel Hent]]]]]].
  exists r0, r, net. split; [exact E0|]. split; [exact E|].
  assert (Hent0 : entries_of r0 = 0).
  { rewrite (entries_of_inv r0 Hinv0).
    destruct Hinv0 as [? _ _ _ _ Hpt0 _ _].
    rewrite Hpt0, Hp0, Hc0. cbn. apply Z.mod_same. lia. }
  pose proof (free_plus_entries r Hinv) as Hsum.
  destruct Hinv as [Hsz Hcap _ _ Hp Hpt Hc Hct].
  pose proof (free_entries_bound r ltac:(lia)) as Hf.
  pose proof (entries_bound r ltac:(lia)) as Hb.
  repeat split; try lia; auto.
  unfold ring_usage, entries_of. rewrite Hpt. reflexivity.
Qed.

(** C3 (a defect of the code): the occupied count
    [(prod_tail - cons_head) mod 2^32] stays within the capacity when
    the counters run modulo 2^32, as the struct comment of [rte_ring]
    and the comment in front of line 224 say; the code reduces them
    modulo [size].  After enqueueing seven, dequeuing three and
    enqueueing three on the ring of size 8, both sides are at rest with
    [prod_tail = 2] and [cons_head = 3]: [(2 - 3) mod 2^32] is
    4294967295, above the capacity 7, with seven elements in the
    ring. *)
Theorem C3_occupied_count_above_capacity :
  exists r0 r net,
    rte_ring_create (512 + 8 * 4) 4 = Ok r0
    /\ run_ops 1 [Enqueue (ints_bytes [1;2;3;4;5;6;7]) 7 RTE_RING_QUEUE_FIXED;
                  Dequeue (out_table 3) 3 RTE_RING_QUEUE_FIXED;
                  Enqueue (ints_bytes [8;9;10]) 3 RTE_RING_QUEUE_FIXED]
                 r0 0 = Ok (r, net)
    /\ net = 7
    /\ prod_head r = 2 /\ prod_tail r = 2
    /\ cons_head r = 3 /\ cons_tail r = 3
    /\ capacity r = 7
    /\ spec_occupied r = 4294967295
    /\ ~ (spec_occupied r <= capacity r).
Proof.
  do 3 eexists.
  repeat (split; [vm_compute; reflexivity|]).
  vm_compute. intros H. apply H. reflexivity.
Qed.

(** ** Filling and draining *)

Lemma granted_all b n : granted b n n = n.
Proof. unfold granted. destruct (Z.gtb_spec n n); [lia | reflexivity]. Qed.

(** C6: on an empty ring at rest, enqueueing [capacity] elements takes
    them all, dequeuing [capacity] elements then gives them all back,
    and the ring is empty again: the four counters are equal, at the
    starting value moved on by [capacity] modulo [size].  Either
    behaviour may be chosen for either call. *)
Theorem C6_fill_then_drain_restores_empty :
  forall fuel r obj_table out b1 b2,
    ring_inv r ->
    prod_head r = cons_head r ->
    capacity r * elemlen r <= zlength obj_table ->
    capacity r * elemlen r <= zlength out ->
    exists r1 r2 out',
      __rte_ring_do_enqueue (S fuel) r obj_table (capacity r) b1
        = Ok (r1, capacity r)
      /\ __rte_ring_do_dequeue (S fuel) r1 out (capacity r) b2
         = Ok (r2, out', capacity r)
      /\ prod_head r2 = prod_tail r2
      /\ prod_tail r2 = cons_head r2
      /\ cons_head r2 = cons_tail r2
      /\ cons_tail r2 = (prod_head r + capacity r) mod size r
      /\ entries_of r2 = 0
      /\ free_entries_of r2 = capacity r.
Proof.
  intros fuel r obj_table out b1 b2 Hinv Hempty Ht Ho.
  pose proof (free_plus_entries r Hinv) as Hsum.
  assert (Hent : entries_of r = 0).
  { rewrite (entries_of_inv r Hinv).
    destruct Hinv as [? _ _ _ _ Hpt _ _].
    rewrite Hpt, Hempty, Z.sub_diag. cbn. apply Z.mod_same. lia. }
  assert (Hfree : free_entries_of r = capacity r) by lia.
  assert (Hcap : 0 <= capacity r).
  { destruct Hinv as [? Hc _ _ _ _ _ _]. lia. }
  destruct (do_enqueue_spec fuel r obj_table (capacity r) b1 Hinv Hcap Ht)
    as [r1 [E1 [Hinv1 [Hs1 [He1 [_ [Hc1 [Hp1 Hent1]]]]]]]].
  rewrite Hfree, granted_all in E1, Hp1, Hent1.
  assert (Hcap1 : capacity r1 = capacity r).
  { destruct Hinv as [_ Hc _ _ _ _ _ _].
    destruct Hinv1 as [_ Hc' _ _ _ _ _ _]. lia. }
  assert (Ho1 : capacity r * elemlen r1 <= zlength out) by (rewrite He1; exact Ho).
  destruct (do_dequeue_spec fuel r1 out (capacity r) b2 Hinv1 Hcap Ho1)
    as [r2 [out' [E2 [Hinv2 [Hs2 [He2 [_ [_ [Hp2 [Hc2 Hent2]]]]]]]]]].
  assert (Hent1' : entries_of r1 = capacity r) by lia.
  rewrite Hent1', granted_all in E2, Hc2, Hent2.
  exists r1, r2, out'.
  split; [exact E1|]. split; [exact E2|].
  pose proof (free_plus_entries r2 Hinv2) as Hsum2.
  assert (Hcap2 : capacity r2 = capacity r).
  { destruct Hinv1 as [_ Hc _ _ _ _ _ _].
    destruct Hinv2 as [_ Hc' _ _ _ _ _ _]. lia. }
  destruct Hinv2 as [_ _ _ _ _ Hpt2 _ Hct2].
  rewrite Hpt2, Hct2, Hc2, Hp2, Hp1, Hc1, Hs1, Hempty.
  repeat split; lia.
Qed.

Lemma C6_fill_then_drain_restores_empty_witness :
  exists r1 r2 out',
    __rte_ring_do_enqueue 1 (mk_ring 8 7 7 4 5 5 5 5 (repeat x00 32))
        (ints_bytes [1;2;3;4;5;6;7]) 7 RTE_RING_QUEUE_FIXED
      = Ok (r1, 7)
    /\ __rte_ring_do_dequeue 1 r1 (out_table 7) 7 RTE_RING_QUEUE_FIXED
       = Ok (r2, out', 7)
    /\ prod_head r2 = prod_tail r2
    /\ prod_tail r2 = cons_head r2
    /\ cons_head r2 = cons_tail r2
    /\ cons_tail r2 = (5 + 7) mod 8
    /\ entries_of r2 = 0
    /\ free_entries_of r2 = 7.
Proof.
  apply (C6_fill_then_drain_restores_empty
           0 (mk_ring 8 7 7 4 5 5 5 5 (repeat x00 32))
           (ints_bytes [1;2;3;4;5;6;7]) (out_table 7)
           RTE_RING_QUEUE_FIXED RTE_RING_QUEUE_FIXED).
  - constructor; cbn; lia.
  - reflexivity.
  - cbn. lia.
  - cbn. lia.
Defined.

(** ** The public bulk calls *)

(** C7 (as amended): the public bulk calls take no behaviour argument.
    [rte_ring_enqueue_bulk] always runs the enqueue as VARIABLE and, on a
    ring at rest, returns the smaller of [n] and the free count;
    [rte_ring_dequeue_bulk] always runs the dequeue as FIXED and returns
    [n] when that many entries are present and 0 otherwise.  The choice
    is an argument of [__rte_ring_do_enqueue] and
    [__rte_ring_do_dequeue] only. *)
Theorem C7_public_bulk_calls_fix_the_behaviour :
  forall fuel r obj_table n,
    ring_inv r -> 0 <= n -> n * elemlen r <= zlength obj_table ->
    rte_ring_enqueue_bulk (S fuel) r obj_table n
      = __rte_ring_do_enqueue (S fuel) r obj_table n RTE_RING_QUEUE_VARIABLE
    /\ (exists r', rte_ring_enqueue_bulk (S fuel) r obj_table n
                   = Ok (r', Z.min n (free_entries_of r)))
    /\ rte_ring_dequeue_bulk (S fuel) r obj_table n
       = __rte_ring_do_dequeue (S fuel) r obj_table n RTE_RING_QUEUE_FIXED
    /\ (exists r' out, rte_ring_dequeue_bulk (S fuel) r obj_table n
                       = Ok (r', out, if n <=? entries_of r then n else 0)).
Proof.
  intros fuel r obj_table n Hinv Hn Ht.
  split; [reflexivity|]. split; [|split; [reflexivity|]].
  - unfold rte_ring_enqueue_bulk.
    destruct (do_enqueue_spec fuel r obj_table n RTE_RING_QUEUE_VARIABLE
                Hinv Hn Ht) as [r' [E _]].
    exists r'. rewrite E. unfold granted.
    destruct (Z.gtb_spec n (free_entries_of r)); do 3 f_equal; lia.
  - unfold rte_ring_dequeue_bulk.
    destruct (do_dequeue_spec fuel r obj_table n RTE_RING_QUEUE_FIXED
                Hinv Hn Ht) as [r' [out [E _]]].
    exists r', out. rewrite E. unfold granted.
    destruct (Z.gtb_spec n (entries_of r));
      destruct (Z.leb_spec n (entries_of r)); try lia; reflexivity.
Qed.

Lemma C7_public_bulk_calls_fix_the_behaviour_witness :
  exists r', rte_ring_enqueue_bulk 1 (mk_ring 8 7 7 4 7 7 3 3 (repeat x00 32))
               (ints_bytes [8;9;10;11;12]) 5
             = Ok (r', Z.min 5 (free_entries_of
                                  (mk_ring 8 7 7 4 7 7 3 3 (repeat x00 32)))).
Proof.
  apply (C7_public_bulk_calls_fix_the_behaviour
           0 (mk_ring 8 7 7 4 7 7 3 3 (repeat x00 32))
           (ints_bytes [8;9;10;11;12]) 5).
  - constructor; cbn; lia.
  - lia.
  - cbn. lia.
Defined.

(** C7 (as stated) fails: on the ring of size 8 holding four elements
    (three free), [rte_ring_enqueue_bulk] asked for five takes three,
    where the FIXED enqueue takes none; [rte_ring_dequeue_bulk] asked
    for five gives none, where the VARIABLE dequeue gives four.  The two
    calls have no argument by which to ask for the other behaviour. *)
Lemma C7_counterexample :
  exists r0 r1 r2 out r3 r4 out4,
    rte_ring_create (512 + 8 * 4) 4 = Ok r0
    /\ rte_ring_enqueue_bulk 1 r0 (ints_bytes [1;2;3;4;5;6;7]) 7 = Ok (r1, 7)
    /\ rte_ring_dequeue_bulk 1 r1 (out_table 3) 3 = Ok (r2, out, 3)
    /\ rte_ring_enqueue_bulk 1 r2 (ints_bytes [8;9;10;11;12]) 5 = Ok (r3, 3)
    /\ __rte_ring_do_enqueue 1 r2 (ints_bytes [8;9;10;11;12]) 5
         RTE_RING_QUEUE_FIXED = Ok (r2, 0)
    /\ rte_ring_dequeue_bulk 1 r2 (out_table 5) 5 = Ok (r2, out_table 5, 0)
    /\ __rte_ring_do_dequeue 1 r2 (out_table 5) 5 RTE_RING_QUEUE_VARIABLE
       = Ok (r4, out4, 4)
    /\ bytes_ints 4 out4 = [4;5;6;7].
Proof.
  do 7 eexists.
  repeat (split; [vm_compute; reflexivity|]).
  vm_compute. reflexivity.
Qed.

(** ** Creation *)

(** C8 (as amended): [rte_ring_create] checks nothing.  For every
    element size other than zero and every block of at least 512 bytes
    it returns a ring with [size] the truncated quotient
    [(totallen - 512) / elemlen] stored in 32 bits, [mask] and
    [capacity] equal to [size - 1] in 32 bits, the four counters at zero
    and the storage cleared; a size that is no power of two, or zero, is
    returned like any other. *)
Theorem C8_create_checks_nothing :
  forall totallen elemlen',
    elemlen' <> 0 -> 512 <= totallen ->
    exists r,
      rte_ring_create totallen elemlen' = Ok r
      /\ size r = U32.wrap (Z.quot (totallen - 512) elemlen')
      /\ capacity r = U32.wrap (size r - 1)
      /\ mask r = U32.wrap (size r - 1)
      /\ elemlen r = U32.wrap elemlen'
      /\ prod_head r = 0 /\ prod_tail r = 0
      /\ cons_head r = 0 /\ cons_tail r = 0
      /\ data r = repeat x00 (Z.to_nat (totallen - 512)).
Proof.
  intros totallen elemlen' He Ht. unfold rte_ring_create.
  destruct (Z.eqb_spec elemlen' 0) as [E|_]; [contradiction|].
  destruct (Z.ltb_spec totallen 512) as [E|_]; [lia|].
  eexists. split; [reflexivity|]. cbn. repeat split.
Qed.

Lemma C8_create_checks_nothing_witness :
  (4 <> 0 /\ 512 <= 6144)
  /\ exists r,
      rte_ring_create 6144 4 = Ok r
      /\ size r = U32.wrap (Z.quot (6144 - 512) 4)
      /\ capacity r = U32.wrap (size r - 1)
      /\ mask r = U32.wrap (size r - 1)
      /\ elemlen r = U32.wrap 4
      /\ prod_head r = 0 /\ prod_tail r = 0
      /\ cons_head r = 0 /\ cons_tail r = 0
      /\ data r = repeat x00 (Z.to_nat (6144 - 512)).
Proof.
  split; [split; [discriminate | lia]|].
  apply (C8_create_checks_nothing 6144 4); [discriminate | lia].
Defined.

Lemma not_a_power_of_two_1408 : forall k, 0 <= k -> 2 ^ k <> 1408.
Proof.
  intros k Hk. destruct (Z_le_gt_dec k 10) as [Hle|Hgt].
  - assert (Hcases : k = 0 \/ k = 1 \/ k = 2 \/ k = 3 \/ k = 4 \/ k = 5
                     \/ k = 6 \/ k = 7 \/ k = 8 \/ k = 9 \/ k = 10) by lia.
    repeat (destruct Hcases as [->|Hcases]; [discriminate|]).
    subst k. discriminate.
  - pose proof (Z.pow_le_mono_r 2 11 k ltac:(lia) ltac:(lia)) as H.
    change (2 ^ 11) with 2048 in H. lia.
Qed.

(** C8 (as stated) fails: with the block of [main.c] (6144 bytes,
    4-byte elements) creation returns a ring of size 1408, which is no
    power of two; with a block of 514 bytes, too small for one element,
    creation returns a ring of size 0 and capacity 4294967295. *)
Lemma C8_counterexample :
  exists r r',
    rte_ring_create 6144 4 = Ok r
    /\ size r = 1408 /\ mask r = 1407 /\ capacity r = 1407
    /\ (forall k, 0 <= k -> 2 ^ k <> size r)
    /\ rte_ring_create 514 4 = Ok r'
    /\ size r' = 0 /\ capacity r' = 4294967295
    /\ zlength (data r') < elemlen r'.
Proof.
  do 2 eexists.
  split; [vm_compute; reflexivity|].
  split; [reflexivity|]. split; [reflexivity|]. split; [reflexivity|].
  split; [exact not_a_power_of_two_1408|].
  split; [vm_compute; reflexivity|].
  split; [reflexivity|]. split; [reflexivity|].
  vm_compute. reflexivity.
Qed.

(** ** Memory safety of the copies *)

(** C10: let the ring be created with [elem_size > 0] and
    [storage_len >= 512 + elem_size].  In every later state of that ring
    (same [size], [elemlen] and storage length), for every head value and
    every index [i], the offset the copy loops compute for slot
    [head + i] satisfies
    [offset + elem_size <= size * elem_size <= storage_len - 512], the
    length of the data region; so both copy loops run to their end
    whenever the caller's table holds the elements copied. *)
Theorem C10_copies_stay_inside_data_region :
  forall totallen elemlen' r0 r head i,
    0 < elemlen' -> 512 + elemlen' <= totallen < 2 ^ 31 ->
    rte_ring_create totallen elemlen' = Ok r0 ->
    size r = size r0 -> elemlen r = elemlen r0 ->
    zlength (data r) = zlength (data r0) ->
    elemlen r = elemlen'
    /\ size r = (totallen - 512) / elemlen'
    /\ zlength (data r) = totallen - 512
    /\ 0 <= slot_offset r head i
    /\ slot_offset r head i + elemlen r <= size r * elemlen r
    /\ size r * elemlen r <= totallen - 512
    /\ (forall todo obj_table,
          Z.of_nat todo * elemlen r <= zlength obj_table ->
          (exists d, enqueue_copy todo r head 0 obj_table (data r) = Ok d)
          /\ (exists t, dequeue_copy todo r head 0 obj_table = Ok t)).
Proof.
  intros totallen elemlen' r0 r head i He Ht Hcreate Hs Hel Hd.
  destruct (create_inv totallen elemlen' He Ht)
    as [r0' [E0 [Hinv0 [Hs0 [He0 [Hd0 _]]]]]].
  rewrite Hcreate in E0. inversion E0; subst r0'. clear E0.
  destruct Hinv0 as [Hsz _ Hel0 Hdat _ _ _ _].
  assert (Hpos : 0 < size r) by lia.
  assert (Hepos : 0 <= elemlen r) by lia.
  pose proof (slot_offset_bounds r head i Hpos Hepos) as [Ho1 Ho2].
  assert (Hreg : size r * elemlen r <= zlength (data r)).
  { rewrite Hs, Hel, Hd. exact Hdat. }
  repeat split; try lia; try congruence.
  - destruct (enqueue_copy_ok todo r head 0 obj_table (data r))
      as [d [E _]]; try lia.
    exists d. exact E.
  - destruct (dequeue_copy_ok todo r head 0 obj_table) as [t [E _]]; try lia.
    exists t. exact E.
Qed.

Lemma C10_copies_stay_inside_data_region_witness :
  (0 < 4 /\ 512 + 4 <= 544 < 2 ^ 31)
  /\ slot_offset (mk_ring 8 7 7 4 7 7 3 3 (repeat x00 32)) 7 2 + 4 <= 8 * 4
  /\ 8 * 4 <= 544 - 512.
Proof.
  split; [lia|].
  pose proof (C10_copies_stay_inside_data_region
                544 4
                (mk_ring 8 7 7 4 0 0 0 0 (repeat x00 32))
                (mk_ring 8 7 7 4 7 7 3 3 (repeat x00 32)) 7 2
                ltac:(lia) ltac:(lia) eq_refl eq_refl eq_refl eq_refl) as H.
  cbn [size elemlen] in H.
  split; [exact (proj1 (proj2 (proj2 (proj2 (proj2 H)))))
         | exact (proj1 (proj2 (proj2 (proj2 (proj2 (proj2 H))))))].
Defined.

(** ** Cutting and splicing regions *)

Section Regions.
Local Open Scope nat_scope.

Lemma firstn_plus {A} (a b : nat) : forall l : list A,
  firstn (a + b) l = firstn a l ++ firstn b (skipn a l).
Proof.
  induction a as [|a IH]; intros [|x l]; cbn.
  - rewrite firstn_nil. reflexivity.
  - reflexivity.
  - rewrite firstn_nil. reflexivity.
  - rewrite IH. reflexivity.
Qed.

Lemma skipn_app_exact {A} (l1 l2 : list A) n :
  length l1 = n -> skipn n (l1 ++ l2) = l2.
Proof.
  intros H. rewrite skipn_app, H, Nat.sub_diag, <- H, skipn_all.
  reflexivity.
Qed.

Lemma firstn_app_exact {A} (l1 l2 : list A) n :
  length l1 = n -> firstn n (l1 ++ l2) = l1.
Proof.
  intros H. rewrite firstn_app, H, Nat.sub_diag, <- H, firstn_all.
  cbn. apply app_nil_r.
Qed.

(** [c] written over [d] at offset [a]. *)
Lemma read_splice_same {A} (d c : list A) a rest :
  a <= length d ->
  firstn (length c) (skipn a (firstn a d ++ c ++ rest)) = c.
Proof.
  intros H. rewrite skipn_app_exact by (rewrite length_firstn; lia).
  apply firstn_app_exact. reflexivity.
Qed.

Lemma read_app_before {A} (l1 l2 : list A) b m :
  b + m <= length l1 ->
  firstn m (skipn b (l1 ++ l2)) = firstn m (skipn b l1).
Proof.
  intros H. rewrite skipn_app.
  replace (b - length l1) with 0 by lia. cbn [skipn].
  rewrite firstn_app, length_skipn.
  replace (m - (length l1 - b)) with 0 by lia.
  cbn [firstn]. apply app_nil_r.
Qed.

Lemma read_splice_before {A} (d c rest : list A) a b m :
  a <= length d -> b + m <= a ->
  firstn m (skipn b (firstn a d ++ c ++ rest)) = firstn m (skipn b d).
Proof.
  intros Ha Hb.
  rewrite read_app_before by (rewrite length_firstn; lia).
  rewrite <- (firstn_skipn a d) at 2.
  rewrite read_app_before by (rewrite length_firstn; lia).
  reflexivity.
Qed.

Lemma read_splice_after {A} (d c : list A) a b m :
  a + length c <= length d -> a + length c <= b ->
  firstn m (skipn b (firstn a d ++ c ++ skipn (a + length c) d))
    = firstn m (skipn b d).
Proof.
  intros Ha Hb. f_equal.
  rewrite skipn_app, length_firstn.
  replace (Nat.min a (length d)) with a by lia.
  rewrite (skipn_all2 (firstn a d)) by (rewrite length_firstn; lia).
  cbn [app]. rewrite skipn_app.
  rewrite (skipn_all2 c) by lia. cbn [app].
  rewrite skipn_skipn. f_equal. lia.
Qed.

Lemma flat_map_ext_in {A B} (f g : A -> list B) l :
  (forall a, In a l -> f a = g a) -> flat_map f l = flat_map g l.
Proof.
  induction l as [|x l IH]; intros H; cbn; [reflexivity|].
  rewrite (H x (or_introl eq_refl)), IH; [reflexivity|].
  intros a Ha. apply H. right. exact Ha.
Qed.

Lemma flat_map_length_const {A B} (f : A -> list B) e l :
  (forall a, In a l -> length (f a) = e) ->
  length (flat_map f l) = length l * e.
Proof.
  induction l as [|x l IH]; intros H; cbn; [reflexivity|].
  rewrite length_app, (H x (or_introl eq_refl)), IH; [reflexivity|].
  intros a Ha. apply H. right. exact Ha.
Qed.

Lemma flat_map_seq_shift {B} (f : nat -> list B) g n :
  flat_map f (seq g n) = flat_map (fun i => f (g + i)) (seq 0 n).
Proof.
  revert f g. induction n as [|n IH]; intros f g; cbn; [reflexivity|].
  rewrite Nat.add_0_r. f_equal.
  rewrite (IH f (S g)), (IH (fun i => f (g + i)) 1).
  apply flat_map_ext_in. intros a _. f_equal. lia.
Qed.

(** A run of equal-sized chunks cut after the first [g] of them. *)
Lemma flat_map_seq_cut {B} (f : nat -> list B) e g n :
  (forall i, i < n -> length (f i) = e) -> g <= n ->
  firstn (g * e) (flat_map f (seq 0 n)) = flat_map f (seq 0 g)
  /\ skipn (g * e) (flat_map f (seq 0 n)) = flat_map f (seq g (n - g)).
Proof.
  intros Hlen Hg.
  replace n with (g + (n - g)) at 1 2 by lia.
  rewrite seq_app, flat_map_app. cbn [Nat.add].
  assert (L : length (flat_map f (seq 0 g)) = g * e).
  { rewrite (flat_map_length_const f e), length_seq; [reflexivity|].
    intros a Ha. apply in_seq in Ha. apply Hlen. lia. }
  split; [apply firstn_app_exact | apply skipn_app_exact]; exact L.
Qed.

(** Consecutive chunks of a region, put together again. *)
Lemma flat_map_seq_chunks {A} (t : list A) e g :
  flat_map (fun j => firstn e (skipn (j * e) t)) (seq 0 g)
    = firstn (g * e) t.
Proof.
  induction g as [|g IH]; [reflexivity|].
  rewrite seq_S, flat_map_app, IH. cbn [flat_map Nat.add].
  rewrite app_nil_r.
  replace (S g * e) with (g * e + e) by lia.
  rewrite firstn_plus. reflexivity.
Qed.

End Regions.

(** ** What a copy leaves in a region *)

Lemma read_bytes_length l off len :
  0 <= off -> 0 <= len -> off + len <= zlength l ->
  length (read_bytes l off len) = Z.to_nat len.
Proof.
  intros Ho Hl Hb. unfold read_bytes, zlength in *.
  rewrite length_firstn, length_skipn. lia.
Qed.

Lemma memcpy_result dst doff src soff len :
  0 <= doff -> 0 <= soff -> 0 <= len ->
  doff + len <= zlength dst -> soff + len <= zlength src ->
  memcpy dst doff src soff len
    = Ok (firstn (Z.to_nat doff) dst
          ++ read_bytes src soff len
          ++ skipn (Z.to_nat (doff + len)) dst).
Proof.
  intros H1 H2 H3 H4 H5. unfold memcpy, read_bytes.
  assert (E : (0 <=? doff) && (0 <=? soff) && (0 <=? len)
              && (doff + len <=? zlength dst) && (soff + len <=? zlength src)
              = true).
  { rewrite !andb_true_iff, !Z.leb_le. auto. }
  rewrite E. reflexivity.
Qed.

Lemma read_memcpy_same dst doff src soff len d :
  0 <= doff -> 0 <= soff -> 0 <= len ->
  doff + len <= zlength dst -> soff + len <= zlength src ->
  memcpy dst doff src soff len = Ok d ->
  read_bytes d doff len = read_bytes src soff len.
Proof.
  intros H1 H2 H3 H4 H5 E.
  rewrite memcpy_result in E by assumption. inversion E; subst d. clear E.
  pose proof (read_bytes_length src soff len H2 H3 H5) as L.
  unfold read_bytes at 1. rewrite <- L.
  apply read_splice_same. unfold zlength in H4. lia.
Qed.

Lemma read_memcpy_other dst doff src soff len d off m :
  0 <= doff -> 0 <= soff -> 0 <= len ->
  doff + len <= zlength dst -> soff + len <= zlength src ->
  memcpy dst doff src soff len = Ok d ->
  0 <= off -> 0 <= m -> off + m <= doff \/ doff + len <= off ->
  read_bytes d off m = read_bytes dst off m.
Proof.
  intros H1 H2 H3 H4 H5 E Ho Hm Hd.
  rewrite memcpy_result in E by assumption. inversion E; subst d. clear E.
  pose proof (read_bytes_length src soff len H2 H3 H5) as L.
  unfold zlength in H4. unfold read_bytes at 1 3.
  destruct Hd as [Hd|Hd].
  - apply read_splice_before; lia.
  - replace (Z.to_nat (doff + len))
      with (Z.to_nat doff + length (read_bytes src soff len))%nat by lia.
    apply read_splice_after; lia.
Qed.

(** ** Slots *)

Lemma mod_distinct n a b :
  0 < n -> 0 < b - a < n -> a mod n <> b mod n.
Proof.
  intros Hn Hd E.
  pose proof (Z.div_mod a n ltac:(lia)) as Ea.
  pose proof (Z.div_mod b n ltac:(lia)) as Eb.
  assert (Hk : b - a = n * (b / n - a / n)) by lia.
  assert (b / n - a / n = 0) by nia. lia.
Qed.

(** Where 32 bits hold every offset into the storage, the offset of a
    slot is its index times the element size. *)
Lemma slot_offset_exact r head i :
  0 < size r -> 0 <= elemlen r -> size r * elemlen r < U32.modulus ->
  0 <= head + i < U32.modulus ->
  slot_offset r head i = ((head + i) mod size r) * elemlen r.
Proof.
  intros Hs He Hb Hh. unfold slot_offset.
  rewrite (U32Facts.wrap_small (head + i)) by exact Hh.
  pose proof (Z.mod_pos_bound (head + i) (size r) Hs) as Hm.
  apply U32Facts.wrap_small. nia.
Qed.

Lemma table_offset_exact r i :
  0 <= i -> 0 <= elemlen r -> i * elemlen r < U32.modulus ->
  table_offset r i = i * elemlen r.
Proof.
  intros Hi He Hb. unfold table_offset. apply U32Facts.wrap_small. nia.
Qed.

(** ** What the copy loops move *)

(** The enqueue loop puts element [j] of the table into slot
    [(head + j) mod size] and leaves every other slot alone. *)
Lemma enqueue_copy_content todo : forall r head i obj_table d,
  0 < size r -> 0 <= elemlen r ->
  size r * elemlen r <= zlength d -> size r * elemlen r < U32.modulus ->
  0 <= head -> 0 <= i -> head + i + Z.of_nat todo <= U32.modulus ->
  Z.of_nat todo <= size r ->
  (i + Z.of_nat todo) * elemlen r <= zlength obj_table ->
  (i + Z.of_nat todo) * elemlen r <= U32.modulus ->
  exists d',
    enqueue_copy todo r head i obj_table d = Ok d'
    /\ zlength d' = zlength d
    /\ (forall j, i <= j < i + Z.of_nat todo ->
          read_bytes d' (((head + j) mod size r) * elemlen r) (elemlen r)
            = read_bytes obj_table (j * elemlen r) (elemlen r))
    /\ (forall s, 0 <= s < size r ->
          (forall j, i <= j < i + Z.of_nat todo -> (head + j) mod size r <> s) ->
          read_bytes d' (s * elemlen r) (elemlen r)
            = read_bytes d (s * elemlen r) (elemlen r)).
Proof.
  induction todo as [|todo IH];
    intros r head i obj_table d Hs He Hd H32 Hh Hi Hw Hn Ht Ht32.
  - exists d. cbn. repeat split; auto. intros j Hj. lia.
  - cbn [enqueue_copy].
    pose proof (Z.mod_pos_bound (head + i) (size r) Hs) as Hs0.
    rewrite slot_offset_exact, table_offset_exact by (try assumption; nia).
    set (s0 := (head + i) mod size r) in *.
    assert (Hb1 : s0 * elemlen r + elemlen r <= zlength d) by nia.
    assert (Hb2 : i * elemlen r + elemlen r <= zlength obj_table) by nia.
    destruct (memcpy_ok d (s0 * elemlen r) obj_table (i * elemlen r)
                (elemlen r)) as [d1 [E1 L1]]; try nia.
    rewrite E1. cbn [bind].
    destruct (IH r head (i + 1) obj_table d1) as [d2 [E2 [L2 [P1 P2]]]];
      try lia; try nia.
    exists d2. split; [exact E2|]. split; [lia|]. split.
    + intros j Hj. destruct (Z.eq_dec j i) as [->|Hne].
      * fold s0. rewrite (P2 s0 Hs0).
        -- apply (read_memcpy_same d _ obj_table _ _ d1); try nia. exact E1.
        -- intros j Hj'. apply not_eq_sym. apply mod_distinct; lia.
      * apply P1. lia.
    + intros s Hsr Hnot.
      rewrite (P2 s Hsr) by (intros j Hj; apply Hnot; lia).
      assert (Hs0s : s0 <> s) by (apply Hnot; lia).
      apply (read_memcpy_other d (s0 * elemlen r) obj_table (i * elemlen r)
               (elemlen r) d1); try nia. exact E1.
Qed.

Lemma zlength_app l1 l2 : zlength (l1 ++ l2) = zlength l1 + zlength l2.
Proof. unfold zlength. rewrite length_app. lia. Qed.

Lemma zlength_nonneg l : 0 <= zlength l.
Proof. unfold zlength. lia. Qed.

Lemma slot_bytes_length r head i :
  0 < size r -> 0 <= elemlen r -> size r * elemlen r <= zlength (data r) ->
  length (slot_bytes r head i) = Z.to_nat (elemlen r).
Proof.
  intros Hs He Hd. unfold slot_bytes.
  pose proof (slot_offset_bounds r head i Hs He) as [Ho1 Ho2].
  apply read_bytes_length; lia.
Qed.

(** The dequeue loop fills the table, element after element, with the
    slots from [head] on and leaves the rest of the table alone. *)
Lemma dequeue_copy_content todo : forall r head k P Q,
  0 < size r -> 0 <= elemlen r ->
  size r * elemlen r <= zlength (data r) ->
  zlength P = Z.of_nat k * elemlen r ->
  Z.of_nat todo * elemlen r <= zlength Q ->
  (Z.of_nat k + Z.of_nat todo) * elemlen r <= U32.modulus ->
  dequeue_copy todo r head (Z.of_nat k) (P ++ Q)
    = Ok (P ++ flat_map (fun j => slot_bytes r head (Z.of_nat j)) (seq k todo)
            ++ skipn (Z.to_nat (Z.of_nat todo * elemlen r)) Q).
Proof.
  induction todo as [|todo IH]; intros r head k P Q Hs He Hd HP HQ H32.
  - cbn. reflexivity.
  - cbn [dequeue_copy].
    pose proof (slot_offset_bounds r head (Z.of_nat k) Hs He) as [Ho1 Ho2].
    pose proof (zlength_nonneg P) as HP0.
    assert (Hm : 0 < U32.modulus) by (rewrite U32Facts.modulus_eq; lia).
    rewrite table_offset_exact by nia.
    rewrite memcpy_result; try lia; try (rewrite zlength_app; nia).
    cbn [bind].
    fold (slot_bytes r head (Z.of_nat k)).
    assert (LP : length P = Z.to_nat (Z.of_nat k * elemlen r)).
    { unfold zlength in HP. lia. }
    rewrite firstn_app_exact by exact LP.
    replace (Z.to_nat (Z.of_nat k * elemlen r + elemlen r))
      with (length P + Z.to_nat (elemlen r))%nat by lia.
    rewrite skipn_app, (skipn_all2 P) by lia. cbn [app].
    replace (length P + Z.to_nat (elemlen r) - length P)%nat
      with (Z.to_nat (elemlen r)) by lia.
    replace (Z.of_nat k + 1) with (Z.of_nat (S k)) by lia.
    pose proof (slot_bytes_length r head (Z.of_nat k) Hs He Hd) as LS.
    rewrite app_assoc.
    rewrite IH; try assumption.
    + rewrite <- app_assoc. cbn [seq flat_map]. rewrite <- app_assoc.
      rewrite skipn_skipn.
      replace (Z.to_nat (Z.of_nat (S todo) * elemlen r))
        with (Z.to_nat (Z.of_nat todo * elemlen r) + Z.to_nat (elemlen r))%nat
        by nia.
      reflexivity.
    + rewrite zlength_app, HP. unfold zlength. rewrite LS. lia.
    + unfold zlength in *. rewrite length_skipn. lia.
    + lia.
Qed.

(** The copy loops look at [size], [elemlen] and the storage only. *)
Lemma enqueue_copy_static todo : forall r1 r head i obj_table d,
  size r1 = size r -> elemlen r1 = elemlen r ->
  enqueue_copy todo r1 head i obj_table d
    = enqueue_copy todo r head i obj_table d.
Proof.
  induction todo as [|todo IH]; intros r1 r head i obj_table d Hs He;
    [reflexivity|].
  cbn [enqueue_copy]. unfold slot_offset, table_offset. rewrite Hs, He.
  destruct (memcpy _ _ _ _ _); cbn [bind]; auto.
Qed.

Lemma dequeue_copy_static todo : forall r1 r head i obj_table,
  size r1 = size r -> elemlen r1 = elemlen r -> data r1 = data r ->
  dequeue_copy todo r1 head i obj_table
    = dequeue_copy todo r head i obj_table.
Proof.
  induction todo as [|todo IH]; intros r1 r head i obj_table Hs He Hd;
    [reflexivity|].
  cbn [dequeue_copy]. unfold slot_offset, table_offset. rewrite Hs, He, Hd.
  destruct (memcpy _ _ _ _ _); cbn [bind]; auto.
Qed.

(** One enqueue call on a ring whose producer side is at rest, with the
    head move and the publish step worked out. *)
Lemma do_enqueue_unfold fuel r obj_table n b :
  size r <> 0 -> prod_tail r = prod_head r ->
  __rte_ring_do_enqueue (S fuel) r obj_table n b =
    let g := granted b n (free_entries_of r) in
    if g =? 0 then Ok (r, 0)
    else d <- enqueue_copy (Z.to_nat g) r (prod_head r) 0 obj_table (data r) ;;
         Ok (set_prod_tail
               (set_data (set_prod_head r (next_head r (prod_head r) g)) d)
               (next_head r (prod_head r) g), g).
Proof.
  intros Hs Hpt. unfold __rte_ring_do_enqueue.
  rewrite move_prod_head_eq by exact Hs. cbn zeta.
  destruct (granted b n (free_entries_of r) =? 0); cbn [bind]; [reflexivity|].
  rewrite (enqueue_copy_static _ _ r) by reflexivity.
  change (data (set_prod_head r _)) with (data r).
  destruct (enqueue_copy _ r _ _ _ _) as [d| |]; cbn [bind]; try reflexivity.
  change (prod_tail (set_data (set_prod_head r _) d)) with (prod_tail r).
  rewrite Hpt, update_tail_ready. reflexivity.
Qed.

Lemma do_dequeue_unfold fuel r obj_table n b :
  size r <> 0 -> cons_tail r = cons_head r ->
  __rte_ring_do_dequeue (S fuel) r obj_table n b =
    let g := granted b n (entries_of r) in
    if g =? 0 then Ok (r, obj_table, 0)
    else out <- dequeue_copy (Z.to_nat g) r (cons_head r) 0 obj_table ;;
         Ok (set_cons_tail
               (set_cons_head r (next_head r (cons_head r) g))
               (next_head r (cons_head r) g), out, g).
Proof.
  intros Hs Hct. unfold __rte_ring_do_dequeue.
  rewrite move_cons_head_eq by exact Hs. cbn zeta.
  destruct (granted b n (entries_of r) =? 0); cbn [bind]; [reflexivity|].
  rewrite (dequeue_copy_static _ _ r) by reflexivity.
  destruct (dequeue_copy _ r _ _ _) as [out| |]; cbn [bind]; try reflexivity.
  change (cons_tail (set_cons_head r _)) with (cons_tail r).
  rewrite Hct, update_tail_ready. reflexivity.
Qed.

(** ** First in, first out *)

Lemma producer_head_position r :
  ring_inv r -> (cons_head r + entries_of r) mod size r = prod_head r.
Proof.
  intros Hinv. rewrite (entries_of_inv r Hinv).
  destruct Hinv as [Hs _ _ _ Hp Hpt Hc _]. rewrite Hpt.
  split_mod (size r) (prod_head r - cons_head r + size r);
    match goal with |- (?x) mod _ = _ => split_mod (size r) x end; lia.
Qed.

Lemma read_bytes_nothing l : read_bytes l 0 0 = [].
Proof. reflexivity. Qed.

(** An enqueue call on a ring at rest appends the elements it took, in
    table order, behind what the ring held. *)
Lemma do_enqueue_contents :
  forall fuel r obj_table n b,
    ring_inv r -> size r * elemlen r < U32.modulus ->
    0 <= n -> n * elemlen r <= zlength obj_table ->
    exists r',
      __rte_ring_do_enqueue (S fuel) r obj_table n b
        = Ok (r', granted b n (free_entries_of r))
      /\ ring_inv r'
      /\ ring_contents r'
         = ring_contents r
           ++ read_bytes obj_table 0
                (granted b n (free_entries_of r) * elemlen r).
Proof.
  intros fuel r obj_table n b Hinv H32 Hn Ht.
  destruct (do_enqueue_spec fuel r obj_table n b Hinv Hn Ht)
    as [r' [E [Hinv' [Hs' [He' [Hd' [Hch' [Hph' Hent']]]]]]]].
  exists r'. split; [exact E|]. split; [exact Hinv'|].
  pose proof (free_plus_entries r Hinv) as Hsum.
  pose proof (producer_head_position r Hinv) as Hpos.
  destruct Hinv as [Hs Hcap He Hd Hp Hpt Hc Hct].
  assert (Hsz : 0 < size r) by lia.
  pose proof (free_entries_bound r Hsz) as Hf.
  pose proof (entries_bound r Hsz) as Heb.
  pose proof (granted_bounds b n (free_entries_of r) Hn (proj1 Hf)) as [Hg1 Hg2].
  rewrite do_enqueue_unfold in E by lia. cbn zeta in E.
  set (g := granted b n (free_entries_of r)) in *.
  assert (Hm : U32.modulus = 4294967296) by reflexivity.
  change (2 ^ 31) with 2147483648 in Hs.
  destruct (Z.eqb_spec g 0) as [E0|E0].
  - inversion E; subst r'. cbn [Z.mul].
    rewrite read_bytes_nothing, app_nil_r. reflexivity.
  - destruct (enqueue_copy_content (Z.to_nat g) r (prod_head r) 0 obj_table
                (data r)) as [d [Ec [Ld [P1 P2]]]]; try lia; try nia.
    rewrite Ec in E. cbn [bind] in E.
    assert (Er : set_prod_tail
                   (set_data (set_prod_head r (next_head r (prod_head r) g)) d)
                   (next_head r (prod_head r) g) = r')
      by (inversion E; reflexivity).
    clear E. subst r'.
    unfold ring_contents. rewrite Hent', Hch'.
    replace (Z.to_nat (entries_of r + g))
      with (Z.to_nat (entries_of r) + Z.to_nat g)%nat by lia.
    rewrite seq_app, flat_map_app. cbn [Nat.add]. f_equal.
    + apply flat_map_ext_in. intros i Hi. apply in_seq in Hi.
      unfold slot_bytes. cbn [data elemlen set_prod_tail set_data].
      change (slot_offset (set_prod_tail _ _) (cons_head r) (Z.of_nat i))
        with (slot_offset r (cons_head r) (Z.of_nat i)).
      rewrite slot_offset_exact by lia.
      apply P2; [apply Z.mod_pos_bound; lia|].
      intros j Hj. rewrite <- Hpos, Z.add_mod_idemp_l by lia.
      apply not_eq_sym. apply mod_distinct; lia.
    + rewrite flat_map_seq_shift.
      unfold read_bytes. cbn [Z.to_nat skipn].
      replace (Z.to_nat (g * elemlen r))
        with (Z.to_nat g * Z.to_nat (elemlen r))%nat by nia.
      rewrite <- flat_map_seq_chunks.
      apply flat_map_ext_in. intros j Hj. apply in_seq in Hj.
      unfold slot_bytes. cbn [data elemlen set_prod_tail set_data].
      change (slot_offset (set_prod_tail _ _) (cons_head r)
                (Z.of_nat (Z.to_nat (entries_of r) + j)))
        with (slot_offset r (cons_head r)
                (Z.of_nat (Z.to_nat (entries_of r) + j))).
      rewrite slot_offset_exact by lia.
      replace (cons_head r + Z.of_nat (Z.to_nat (entries_of r) + j))
        with (cons_head r + entries_of r + Z.of_nat j) by lia.
      rewrite <- Z.add_mod_idemp_l, Hpos by lia.
      rewrite P1 by lia.
      unfold read_bytes. do 2 f_equal. nia.
Qed.

(** A dequeue call on a ring at rest hands out the oldest elements of
    the ring into the front of the table and keeps the others. *)
Lemma do_dequeue_contents :
  forall fuel r obj_table n b,
    ring_inv r -> size r * elemlen r < U32.modulus ->
    0 <= n -> n * elemlen r <= zlength obj_table ->
    exists r' out,
      __rte_ring_do_dequeue (S fuel) r obj_table n b
        = Ok (r', out, granted b n (entries_of r))
      /\ ring_inv r'
      /\ out = read_bytes (ring_contents r) 0
                 (granted b n (entries_of r) * elemlen r)
               ++ skipn (Z.to_nat (granted b n (entries_of r) * elemlen r))
                    obj_table
      /\ ring_contents r'
         = skipn (Z.to_nat (granted b n (entries_of r) * elemlen r))
             (ring_contents r).
Proof.
  intros fuel r obj_table n b Hinv H32 Hn Ht.
  destruct (do_dequeue_spec fuel r obj_table n b Hinv Hn Ht)
    as [r' [out [E [Hinv' [Hs' [He' [Hd' [_ [_ [Hch' Hent']]]]]]]]]].
  exists r', out. split; [exact E|]. split; [exact Hinv'|].
  destruct Hinv as [Hs Hcap He Hd Hp Hpt Hc Hct].
  assert (Hsz : 0 < size r) by lia.
  pose proof (entries_bound r Hsz) as Heb.
  pose proof (granted_bounds b n (entries_of r) Hn (proj1 Heb)) as [Hg1 Hg2].
  rewrite do_dequeue_unfold in E by lia. cbn zeta in E.
  set (g := granted b n (entries_of r)) in *.
  assert (Hm : U32.modulus = 4294967296) by reflexivity.
  change (2 ^ 31) with 2147483648 in Hs.
  assert (Hlen : forall i, (i < Z.to_nat (entries_of r))%nat ->
                   length (slot_bytes r (cons_head r) (Z.of_nat i))
                   = Z.to_nat (elemlen r)).
  { intros i _. apply slot_bytes_length; assumption. }
  destruct (flat_map_seq_cut
              (fun i => slot_bytes r (cons_head r) (Z.of_nat i))
              (Z.to_nat (elemlen r)) (Z.to_nat g) (Z.to_nat (entries_of r))
              Hlen ltac:(lia)) as [Cfirst Cskip].
  replace (Z.to_nat g * Z.to_nat (elemlen r))%nat
    with (Z.to_nat (g * elemlen r)) in Cfirst, Cskip by nia.
  fold (ring_contents r) in Cfirst, Cskip.
  destruct (Z.eqb_spec g 0) as [E0|E0].
  - assert (Eo : out = obj_table) by (inversion E; reflexivity).
    assert (Er : r' = r) by (inversion E; reflexivity).
    subst out r'. rewrite E0. cbn [Z.mul Z.to_nat skipn].
    rewrite read_bytes_nothing. split; reflexivity.
  - pose proof (dequeue_copy_content (Z.to_nat g) r (cons_head r) 0 []
                  obj_table Hsz He Hd) as Ec.
    cbn [app Z.of_nat] in Ec.
    rewrite Ec in E; [| reflexivity | nia | nia]. cbn [bind] in E.
    split.
    + assert (Eo : out = flat_map
                (fun j => slot_bytes r (cons_head r) (Z.of_nat j))
                (seq 0 (Z.to_nat g))
                ++ skipn (Z.to_nat (Z.of_nat (Z.to_nat g) * elemlen r))
                     obj_table)
        by (inversion E; reflexivity).
      rewrite Eo, <- Cfirst. unfold read_bytes. cbn [Z.to_nat skipn].
      do 3 f_equal. lia.
    + rewrite Cskip, flat_map_seq_shift.
      unfold ring_contents. rewrite Hent'.
      replace (Z.to_nat (entries_of r - g))
        with (Z.to_nat (entries_of r) - Z.to_nat g)%nat by lia.
      apply flat_map_ext_in. intros i Hi. apply in_seq in Hi.
      unfold slot_bytes. rewrite Hd', He'. f_equal.
      pose proof (Z.mod_pos_bound (cons_head r + g) (size r) Hsz) as Hnh.
      rewrite (slot_offset_exact r') by (rewrite ?Hs', ?He', ?Hch'; lia).
      rewrite (slot_offset_exact r) by lia.
      rewrite Hs', He', Hch'.
      rewrite Z.add_mod_idemp_l by lia. do 2 f_equal. lia.
Qed.

Lemma ring_contents_length r :
  ring_inv r -> zlength (ring_contents r) = entries_of r * elemlen r.
Proof.
  intros [Hs _ He Hd _ _ _ _]. assert (Hsz : 0 < size r) by lia.
  pose proof (entries_bound r Hsz) as Heb.
  unfold zlength, ring_contents.
  rewrite (flat_map_length_const _ (Z.to_nat (elemlen r))), length_seq.
  - nia.
  - intros i _. apply slot_bytes_length; assumption.
Qed.

Lemma read_bytes_front l1 l2 m :
  zlength l1 = m -> read_bytes (l1 ++ l2) 0 m = l1.
Proof.
  intros H. unfold read_bytes. cbn [Z.to_nat skipn].
  apply firstn_app_exact. unfold zlength in H. lia.
Qed.

Lemma run_streams_fifo fuel ops : forall r sent received,
  ring_inv r -> size r * elemlen r < U32.modulus ->
  Forall (op_fits (elemlen r)) ops ->
  sent = received ++ ring_contents r ->
  exists r' sent' received',
    run_streams (S fuel) ops r sent received = Ok (r', sent', received')
    /\ ring_inv r'
    /\ elemlen r' = elemlen r
    /\ sent' = received' ++ ring_contents r'.
Proof.
  induction ops as [|op ops IH]; intros r sent received Hinv H32 Hfit Hs.
  - exists r, sent, received. cbn. auto.
  - inversion Hfit as [|? ? Hop Hops]; subst.
    destruct op as [t n b|t n b]; cbn [run_streams]; destruct Hop as [Hn Ht].
    + destruct (do_enqueue_spec fuel r t n b Hinv Hn Ht)
        as [r1 [E1 [_ [Hs1 [He1 _]]]]].
      destruct (do_enqueue_contents fuel r t n b Hinv H32 Hn Ht)
        as [r1' [E [Hinv1 Hc1]]].
      rewrite E1 in E.
      assert (Er : r1' = r1) by (inversion E; reflexivity).
      rewrite Er in Hinv1, Hc1. clear E Er.
      rewrite E1. cbn [bind]. rewrite <- He1.
      apply IH; try assumption.
      * rewrite Hs1, He1. exact H32.
      * rewrite He1. exact Hops.
      * rewrite Hc1, He1, app_assoc. reflexivity.
    + destruct (do_dequeue_spec fuel r t n b Hinv Hn Ht)
        as [r1 [out [E1 [_ [Hs1 [He1 _]]]]]].
      destruct (do_dequeue_contents fuel r t n b Hinv H32 Hn Ht)
        as [r1' [out' [E [Hinv1 [Ho Hc1]]]]].
      rewrite E1 in E.
      assert (Er : r1' = r1) by (inversion E; reflexivity).
      assert (Eo : out' = out) by (inversion E; reflexivity).
      rewrite Er in Hinv1, Hc1. rewrite Eo in Ho. clear E Er Eo.
      rewrite E1. cbn [bind]. rewrite <- He1.
      apply IH; try assumption.
      * rewrite Hs1, He1. exact H32.
      * rewrite He1. exact Hops.
      * rewrite Hc1, Ho, He1, read_bytes_front.
        -- unfold read_bytes. cbn [Z.to_nat skipn].
           rewrite <- app_assoc, firstn_skipn. reflexivity.
        -- pose proof (ring_contents_length r Hinv) as Hl.
           destruct Hinv as [Hsz _ He _ _ _ _ _].
           pose proof (entries_bound r ltac:(lia)) as Heb.
           pose proof (granted_bounds b n (entries_of r) Hn (proj1 Heb))
             as [Hg1 Hg2].
           unfold read_bytes, zlength in *. cbn [Z.to_nat skipn].
           rewrite length_firstn. nia.
Qed.

(** ** Properties of the calls, for their users *)

(** X1: an enqueue call on a ring at rest appends the elements it took,
    in table order, behind what the ring held; nothing already in the
    ring is touched.  The storage is one that 32-bit offsets reach. *)
Theorem X1_enqueue_appends_to_contents :
  forall fuel r obj_table n b,
    ring_inv r -> size r * elemlen r < U32.modulus ->
    0 <= n -> n * elemlen r <= zlength obj_table ->
    exists r' k,
      __rte_ring_do_enqueue (S fuel) r obj_table n b = Ok (r', k)
      /\ ring_inv r'
      /\ 0 <= k <= n
      /\ entries_of r' = entries_of r + k
      /\ ring_contents r'
         = ring_contents r ++ read_bytes obj_table 0 (k * elemlen r).
Proof.
  intros fuel r obj_table n b Hinv H32 Hn Ht.
  destruct (do_enqueue_contents fuel r obj_table n b Hinv H32 Hn Ht)
    as [r' [E [Hinv' Hc]]].
  destruct (do_enqueue_spec fuel r obj_table n b Hinv Hn Ht)
    as [r'' [E' [_ [_ [_ [_ [_ [_ Hent]]]]]]]].
  rewrite E in E'. assert (Er : r'' = r') by (inversion E'; reflexivity).
  rewrite Er in Hent.
  exists r', (granted b n (free_entries_of r)).
  destruct Hinv as [Hs _ _ _ _ _ _ _].
  pose proof (free_entries_bound r ltac:(lia)) as Hf.
  pose proof (granted_bounds b n (free_entries_of r) Hn (proj1 Hf)) as [Hg _].
  auto.
Qed.

Lemma X1_enqueue_appends_to_contents_witness :
  exists r' k,
    __rte_ring_do_enqueue 1 (mk_ring 8 7 7 4 7 7 3 3 (ints_bytes [0;0;0;4;5;6;7;0]))
        (ints_bytes [8;9;10;11;12]) 5 RTE_RING_QUEUE_VARIABLE = Ok (r', k)
    /\ ring_inv r'
    /\ 0 <= k <= 5
    /\ entries_of r'
       = entries_of (mk_ring 8 7 7 4 7 7 3 3 (ints_bytes [0;0;0;4;5;6;7;0])) + k
    /\ ring_contents r'
       = ring_contents (mk_ring 8 7 7 4 7 7 3 3 (ints_bytes [0;0;0;4;5;6;7;0]))
         ++ read_bytes (ints_bytes [8;9;10;11;12]) 0 (k * 4).
Proof.
  apply (X1_enqueue_appends_to_contents
           0 (mk_ring 8 7 7 4 7 7 3 3 (ints_bytes [0;0;0;4;5;6;7;0]))
           (ints_bytes [8;9;10;11;12]) 5 RTE_RING_QUEUE_VARIABLE).
  - constructor; cbn; lia.
  - reflexivity.
  - lia.
  - cbn. lia.
Defined.

(** X2: a dequeue call on a ring at rest hands out the oldest elements
    of the ring, in the order they were enqueued, into the front of the
    table; the rest of the table is as it was, and the ring holds what
    is left, in order. *)
Theorem X2_dequeue_takes_oldest_first :
  forall fuel r obj_table n b,
    ring_inv r -> size r * elemlen r < U32.modulus ->
    0 <= n -> n * elemlen r <= zlength obj_table ->
    exists r' out k,
      __rte_ring_do_dequeue (S fuel) r obj_table n b = Ok (r', out, k)
      /\ ring_inv r'
      /\ 0 <= k <= n
      /\ entries_of r' = entries_of r - k
      /\ out = read_bytes (ring_contents r) 0 (k * elemlen r)
               ++ skipn (Z.to_nat (k * elemlen r)) obj_table
      /\ ring_contents r' = skipn (Z.to_nat (k * elemlen r)) (ring_contents r).
Proof.
  intros fuel r obj_table n b Hinv H32 Hn Ht.
  destruct (do_dequeue_contents fuel r obj_table n b Hinv H32 Hn Ht)
    as [r' [out [E [Hinv' [Ho Hc]]]]].
  destruct (do_dequeue_spec fuel r obj_table n b Hinv Hn Ht)
    as [r'' [out'' [E' [_ [_ [_ [_ [_ [_ [_ Hent]]]]]]]]]].
  rewrite E in E'. assert (Er : r'' = r') by (inversion E'; reflexivity).
  rewrite Er in Hent.
  exists r', out, (granted b n (entries_of r)).
  destruct Hinv as [Hs _ _ _ _ _ _ _].
  pose proof (entries_bound r ltac:(lia)) as Hf.
  pose proof (granted_bounds b n (entries_of r) Hn (proj1 Hf)) as [Hg _].
  auto 7.
Qed.

Lemma X2_dequeue_takes_oldest_first_witness :
  exists r' out k,
    __rte_ring_do_dequeue 1 (mk_ring 8 7 7 4 2 2 6 6 (ints_bytes [8;9;0;0;0;0;6;7]))
        (out_table 3) 3 RTE_RING_QUEUE_FIXED = Ok (r', out, k)
    /\ ring_inv r'
    /\ 0 <= k <= 3
    /\ entries_of r'
       = entries_of (mk_ring 8 7 7 4 2 2 6 6 (ints_bytes [8;9;0;0;0;0;6;7])) - k
    /\ out = read_bytes
               (ring_contents
                  (mk_ring 8 7 7 4 2 2 6 6 (ints_bytes [8;9;0;0;0;0;6;7])))
               0 (k * 4)
             ++ skipn (Z.to_nat (k * 4)) (out_table 3)
    /\ ring_contents r'
       = skipn (Z.to_nat (k * 4))
           (ring_contents
              (mk_ring 8 7 7 4 2 2 6 6 (ints_bytes [8;9;0;0;0;0;6;7]))).
Proof.
  apply (X2_dequeue_takes_oldest_first
           0 (mk_ring 8 7 7 4 2 2 6 6 (ints_bytes [8;9;0;0;0;0;6;7]))
           (out_table 3) 3 RTE_RING_QUEUE_FIXED).
  - constructor; cbn; lia.
  - reflexivity.
  - lia.
  - cbn. lia.
Defined.

(** X3: first in, first out.  After any sequence of enqueue and dequeue
    calls on a freshly created ring, the bytes the dequeues handed out
    are, in order, the beginning of the bytes the enqueues took, and the
    rest is what the ring holds: nothing is lost, doubled or reordered,
    whatever [size] is (a power of two or not). *)
Theorem X3_first_in_first_out :
  forall fuel totallen elemlen' ops,
    0 < elemlen' -> 512 + elemlen' <= totallen < 2 ^ 31 ->
    Forall (op_fits elemlen') ops ->
    exists r0 r sent received,
      rte_ring_create totallen elemlen' = Ok r0
      /\ run_streams (S fuel) ops r0 [] [] = Ok (r, sent, received)
      /\ sent = received ++ ring_contents r
      /\ zlength (ring_contents r) = entries_of r * elemlen'.
Proof.
  intros fuel totallen elemlen' ops He Ht Hfit.
  destruct (create_inv totallen elemlen' He Ht)
    as [r0 [E0 [Hinv0 [Hs0 [He0 [Hd0 [Hp0 Hc0]]]]]]].
  assert (H32 : size r0 * elemlen r0 < U32.modulus).
  { destruct Hinv0 as [_ _ _ Hd _ _ _ _]. rewrite U32Facts.modulus_eq.
    change (2 ^ 31) with 2147483648 in Ht. lia. }
  assert (Hempty : ring_contents r0 = []).
  { unfold ring_contents.
    replace (entries_of r0) with 0; [reflexivity|].
    rewrite (entries_of_inv r0 Hinv0).
    destruct Hinv0 as [? _ _ _ _ Hpt0 _ _].
    rewrite Hpt0, Hp0, Hc0. cbn. symmetry. apply Z.mod_same. lia. }
  rewrite <- He0 in Hfit.
  destruct (run_streams_fifo fuel ops r0 [] [] Hinv0 H32 Hfit)
    as [r [sent [received [E [Hinv [Hel Hsr]]]]]].
  { rewrite Hempty. reflexivity. }
  exists r0, r, sent, received.
  split; [exact E0|]. split; [exact E|]. split; [exact Hsr|].
  rewrite (ring_contents_length r Hinv). congruence.
Qed.

Lemma X3_first_in_first_out_witness :
  exists r0 r sent received,
    rte_ring_create 544 4 = Ok r0
    /\ run_streams 1
         [Enqueue (ints_bytes [1;2;3;4;5]) 5 RTE_RING_QUEUE_FIXED;
          Dequeue (out_table 2) 2 RTE_RING_QUEUE_FIXED;
          Enqueue (ints_bytes [6;7;8;9;10]) 5 RTE_RING_QUEUE_VARIABLE;
          Dequeue (out_table 7) 7 RTE_RING_QUEUE_VARIABLE]
         r0 [] [] = Ok (r, sent, received)
    /\ sent = received ++ ring_contents r
    /\ zlength (ring_contents r) = entries_of r * 4.
Proof.
  apply (X3_first_in_first_out 0 544 4).
  - lia.
  - lia.
  - repeat constructor; cbn; lia.
Defined.

(** X4: [rte_ring_enqueue] on a ring at rest.  While fewer than
    [capacity] elements are in the ring it returns 1 (the count, not a
    status) and the element becomes the newest of the ring; on a full
    ring it returns 0 and the ring is as before. *)
Theorem X4_single_enqueue :
  forall fuel r obj,
    ring_inv r -> size r * elemlen r < U32.modulus ->
    elemlen r <= zlength obj ->
    (entries_of r < capacity r ->
       exists r', rte_ring_enqueue (S fuel) r obj = Ok (r', 1)
                  /\ entries_of r' = entries_of r + 1
                  /\ ring_contents r'
                     = ring_contents r ++ read_bytes obj 0 (elemlen r))
    /\ (entries_of r = capacity r ->
          rte_ring_enqueue (S fuel) r obj = Ok (r, 0)).
Proof.
  intros fuel r obj Hinv H32 Ho.
  pose proof (free_plus_entries r Hinv) as Hsum.
  assert (Ht : 1 * elemlen r <= zlength obj) by lia.
  unfold rte_ring_enqueue, rte_ring_enqueue_bulk.
  split; intros Hroom.
  - destruct (do_enqueue_contents fuel r obj 1 RTE_RING_QUEUE_VARIABLE
                Hinv H32 ltac:(lia) Ht) as [r' [E [_ Hc]]].
    destruct (do_enqueue_spec fuel r obj 1 RTE_RING_QUEUE_VARIABLE
                Hinv ltac:(lia) Ht) as [r'' [E' [_ [_ [_ [_ [_ [_ Hent]]]]]]]].
    rewrite E in E'. assert (Er : r'' = r') by (inversion E'; reflexivity).
    rewrite Er in Hent.
    assert (Hg : granted RTE_RING_QUEUE_VARIABLE 1 (free_entries_of r) = 1).
    { unfold granted. destruct (Z.gtb_spec 1 (free_entries_of r)); lia. }
    rewrite Hg in *. rewrite Z.mul_1_l in Hc.
    exists r'. auto.
  - rewrite do_enqueue_unfold.
    + assert (Hg : granted RTE_RING_QUEUE_VARIABLE 1 (free_entries_of r) = 0).
      { unfold granted. destruct (Z.gtb_spec 1 (free_entries_of r)); lia. }
      cbn zeta. rewrite Hg. reflexivity.
    + destruct Hinv as [Hs _ _ _ _ _ _ _]. lia.
    + destruct Hinv as [_ _ _ _ _ Hpt _ _]. exact Hpt.
Qed.

Lemma X4_single_enqueue_witness :
  rte_ring_enqueue 1 (mk_ring 8 7 7 4 2 2 3 3 (repeat x00 32)) (int_bytes 9)
    = Ok (mk_ring 8 7 7 4 2 2 3 3 (repeat x00 32), 0).
Proof.
  apply (proj2 (X4_single_enqueue
                  0 (mk_ring 8 7 7 4 2 2 3 3 (repeat x00 32)) (int_bytes 9)
                  ltac:(constructor; cbn; lia) eq_refl ltac:(cbn; lia))).
  reflexivity.
Defined.

(** X5: [rte_ring_dequeue] on a ring at rest.  On a ring that holds an
    element it returns 1, the oldest element is written to the caller's
    slot and leaves the ring; on an empty ring it returns 0 and neither
    the ring nor the caller's slot changes. *)
Theorem X5_single_dequeue :
  forall fuel r obj_p,
    ring_inv r -> size r * elemlen r < U32.modulus ->
    elemlen r <= zlength obj_p ->
    (0 < entries_of r ->
       exists r' out,
         rte_ring_dequeue (S fuel) r obj_p = Ok (r', out, 1)
         /\ entries_of r' = entries_of r - 1
         /\ read_bytes out 0 (elemlen r)
            = read_bytes (ring_contents r) 0 (elemlen r)
         /\ ring_contents r'
            = skipn (Z.to_nat (elemlen r)) (ring_contents r))
    /\ (entries_of r = 0 ->
          rte_ring_dequeue (S fuel) r obj_p = Ok (r, obj_p, 0)).
Proof.
  intros fuel r obj_p Hinv H32 Ho.
  assert (Ht : 1 * elemlen r <= zlength obj_p) by lia.
  unfold rte_ring_dequeue, rte_ring_dequeue_bulk.
  split; intros Hent0.
  - destruct (do_dequeue_contents fuel r obj_p 1 RTE_RING_QUEUE_FIXED
                Hinv H32 ltac:(lia) Ht) as [r' [out [E [_ [Hout Hc]]]]].
    destruct (do_dequeue_spec fuel r obj_p 1 RTE_RING_QUEUE_FIXED
                Hinv ltac:(lia) Ht)
      as [r'' [out'' [E' [_ [_ [_ [_ [_ [_ [_ Hent]]]]]]]]]].
    rewrite E in E'. assert (Er : r'' = r') by (inversion E'; reflexivity).
    rewrite Er in Hent.
    assert (Hg : granted RTE_RING_QUEUE_FIXED 1 (entries_of r) = 1).
    { unfold granted. destruct (Z.gtb_spec 1 (entries_of r)); lia. }
    rewrite Hg in *. rewrite Z.mul_1_l in Hc, Hout.
    exists r', out. split; [exact E|]. split; [exact Hent|].
    split; [|exact Hc].
    rewrite Hout. apply read_bytes_front.
    pose proof (ring_contents_length r Hinv) as Hl.
    destruct Hinv as [_ _ He _ _ _ _ _].
    unfold read_bytes, zlength in *. cbn [Z.to_nat skipn].
    rewrite length_firstn. nia.
  - rewrite do_dequeue_unfold.
    + assert (Hg : granted RTE_RING_QUEUE_FIXED 1 (entries_of r) = 0).
      { unfold granted. destruct (Z.gtb_spec 1 (entries_of r)); lia. }
      cbn zeta. rewrite Hg. reflexivity.
    + destruct Hinv as [Hs _ _ _ _ _ _ _]. lia.
    + destruct Hinv as [_ _ _ _ _ _ _ Hct]. exact Hct.
Qed.

Lemma X5_single_dequeue_witness :
  rte_ring_dequeue 1 (mk_ring 8 7 7 4 3 3 3 3 (repeat x00 32)) (int_bytes 9)
    = Ok (mk_ring 8 7 7 4 3 3 3 3 (repeat x00 32), int_bytes 9, 0).
Proof.
  apply (proj2 (X5_single_dequeue
                  0 (mk_ring 8 7 7 4 3 3 3 3 (repeat x00 32)) (int_bytes 9)
                  ltac:(constructor; cbn; lia) eq_refl ltac:(cbn; lia))).
  reflexivity.
Defined.

(** X6: the calls are not preemption-safe.  When a reservation made by
    another thread has not been published (the tail is not level with
    the head), a call that reserves at least one slot and runs alone
    copies its elements and then waits in [update_tail] for ever, however
    much fuel it is given; this holds for enqueue and for dequeue. *)
Theorem X6_call_waits_behind_unpublished_reservation :
  forall fuel r obj_table n b,
    0 < size r -> 0 <= elemlen r ->
    size r * elemlen r <= zlength (data r) ->
    0 <= n -> n * elemlen r <= zlength obj_table ->
    (prod_tail r <> prod_head r ->
     granted b n (free_entries_of r) <> 0 ->
     __rte_ring_do_enqueue fuel r obj_table n b = Spins)
    /\ (cons_tail r <> cons_head r ->
        granted b n (entries_of r) <> 0 ->
        __rte_ring_do_dequeue fuel r obj_table n b = Spins).
Proof.
  intros fuel r obj_table n b Hs He Hd Hn Ht.
  pose proof (free_entries_bound r Hs) as Hf.
  pose proof (entries_bound r Hs) as Heb.
  split; intros Htail Hg.
  - destruct fuel as [|fuel]; [reflexivity|].
    pose proof (granted_bounds b n (free_entries_of r) Hn (proj1 Hf)) as [Hg1 _].
    unfold __rte_ring_do_enqueue.
    rewrite move_prod_head_eq by lia. cbn zeta.
    destruct (Z.eqb_spec (granted b n (free_entries_of r)) 0) as [E|_];
      [contradiction|].
    cbn [bind].
    destruct (enqueue_copy_ok (Z.to_nat (granted b n (free_entries_of r)))
                (set_prod_head r (next_head r (prod_head r)
                                    (granted b n (free_entries_of r))))
                (prod_head r) 0 obj_table (data r)) as [d [Ec _]];
      cbn [set_prod_head size elemlen]; try lia; try nia.
    change (data (set_prod_head r _)) with (data r).
    rewrite Ec. cbn [bind].
    change (prod_tail (set_data (set_prod_head r _) d)) with (prod_tail r).
    rewrite update_tail_blocked by exact Htail. reflexivity.
  - destruct fuel as [|fuel]; [reflexivity|].
    pose proof (granted_bounds b n (entries_of r) Hn (proj1 Heb)) as [Hg1 _].
    unfold __rte_ring_do_dequeue.
    rewrite move_cons_head_eq by lia. cbn zeta.
    destruct (Z.eqb_spec (granted b n (entries_of r)) 0) as [E|_];
      [contradiction|].
    cbn [bind].
    destruct (dequeue_copy_ok (Z.to_nat (granted b n (entries_of r)))
                (set_cons_head r (next_head r (cons_head r)
                                    (granted b n (entries_of r))))
                (cons_head r) 0 obj_table) as [out [Ec _]];
      cbn [set_cons_head size elemlen data]; try lia; try nia.
    rewrite Ec. cbn [bind].
    change (cons_tail (set_cons_head r _)) with (cons_tail r).
    rewrite update_tail_blocked by exact Htail. reflexivity.
Qed.

Lemma X6_call_waits_behind_unpublished_reservation_witness :
  __rte_ring_do_enqueue 1000 (mk_ring 8 7 7 4 3 1 0 0 (repeat x00 32))
    (ints_bytes [5; 6]) 2 RTE_RING_QUEUE_FIXED = Spins.
Proof.
  apply (proj1 (X6_call_waits_behind_unpublished_reservation
                  1000 (mk_ring 8 7 7 4 3 1 0 0 (repeat x00 32))
                  (ints_bytes [5; 6]) 2 RTE_RING_QUEUE_FIXED
                  ltac:(cbn; lia) ltac:(cbn; lia) ltac:(cbn; lia)
                  ltac:(lia) ltac:(cbn; lia))).
  - cbn. discriminate.
  - vm_compute. discriminate.
Defined.

(** X7: what a call may return, in any state of a ring with at least
    one slot (other reservations may be in flight).  The count is never
    negative, never above the request and never above what the head
    move found available; under FIXED it is 0 or [n], under VARIABLE it
    is the smaller of [n] and the available count. *)
Theorem X7_returned_count :
  forall fuel r obj_table n b,
    0 < size r -> 0 <= n ->
    (forall r' k,
       __rte_ring_do_enqueue fuel r obj_table n b = Ok (r', k) ->
       0 <= k <= n /\ k <= free_entries_of r
       /\ (b = RTE_RING_QUEUE_FIXED -> k = 0 \/ k = n)
       /\ (b = RTE_RING_QUEUE_VARIABLE -> k = Z.min n (free_entries_of r)))
    /\ (forall r' out k,
          __rte_ring_do_dequeue fuel r obj_table n b = Ok (r', out, k) ->
          0 <= k <= n /\ k <= entries_of r
          /\ (b = RTE_RING_QUEUE_FIXED -> k = 0 \/ k = n)
          /\ (b = RTE_RING_QUEUE_VARIABLE -> k = Z.min n (entries_of r))).
Proof.
  intros fuel r obj_table n b Hs Hn.
  pose proof (free_entries_bound r Hs) as Hf.
  pose proof (entries_bound r Hs) as Heb.
  assert (Hgr : forall avail, 0 <= avail ->
            0 <= granted b n avail <= n /\ granted b n avail <= avail
            /\ (b = RTE_RING_QUEUE_FIXED ->
                granted b n avail = 0 \/ granted b n avail = n)
            /\ (b = RTE_RING_QUEUE_VARIABLE ->
                granted b n avail = Z.min n avail)).
  { intros avail Ha. unfold granted.
    destruct (Z.gtb_spec n avail); destruct b;
      repeat split; try lia; try discriminate; intros _; lia. }
  split.
  - intros r' k E. destruct fuel as [|fuel]; [discriminate|].
    unfold __rte_ring_do_enqueue in E.
    rewrite move_prod_head_eq in E by lia. cbn zeta in E.
    assert (Ek : k = granted b n (free_entries_of r)).
    { destruct (Z.eqb_spec (granted b n (free_entries_of r)) 0) as [E0|E0];
        cbn [bind] in E.
      - inversion E. congruence.
      - destruct (enqueue_copy _ _ _ _ _ _); cbn [bind] in E;
          try discriminate.
        destruct (update_tail _ _ _ _); cbn [bind] in E; try discriminate.
        inversion E. reflexivity. }
    rewrite Ek. apply Hgr. lia.
  - intros r' out k E. destruct fuel as [|fuel]; [discriminate|].
    unfold __rte_ring_do_dequeue in E.
    rewrite move_cons_head_eq in E by lia. cbn zeta in E.
    assert (Ek : k = granted b n (entries_of r)).
    { destruct (Z.eqb_spec (granted b n (entries_of r)) 0) as [E0|E0];
        cbn [bind] in E.
      - inversion E. congruence.
      - destruct (dequeue_copy _ _ _ _ _); cbn [bind] in E;
          try discriminate.
        destruct (update_tail _ _ _ _); cbn [bind] in E; try discriminate.
        inversion E. reflexivity. }
    rewrite Ek. apply Hgr. lia.
Qed.

Lemma X7_returned_count_witness :
  0 <= 3 <= 5 /\ 3 <= free_entries_of (mk_ring 8 7 7 4 7 7 3 3 (repeat x00 32))
  /\ (RTE_RING_QUEUE_VARIABLE = RTE_RING_QUEUE_FIXED -> 3 = 0 \/ 3 = 5)
  /\ (RTE_RING_QUEUE_VARIABLE = RTE_RING_QUEUE_VARIABLE ->
      3 = Z.min 5 (free_entries_of (mk_ring 8 7 7 4 7 7 3 3 (repeat x00 32)))).
Proof.
  apply (proj1 (X7_returned_count
                  1 (mk_ring 8 7 7 4 7 7 3 3 (repeat x00 32))
                  (ints_bytes [8;9;10;11;12]) 5 RTE_RING_QUEUE_VARIABLE
                  ltac:(cbn; lia) ltac:(lia))
               (mk_ring 8 7 7 4 2 2 3 3
                  (ints_bytes [9;10;0;0;0;0;0;8]))).
  vm_compute. reflexivity.
Defined.

(** X8: the two counts the head moves take always add up.  In every
    state reached from a freshly created ring by enqueue and dequeue
    calls, the free count of line 155 plus the entry count of line 224 is
    [capacity], which is [size - 1]: one slot is never used. *)
Theorem X8_free_plus_entries_is_capacity :
  forall fuel totallen elemlen' ops,
    0 < elemlen' -> 512 + elemlen' <= totallen < 2 ^ 31 ->
    Forall (op_fits elemlen') ops ->
    exists r0 r net,
      rte_ring_create totallen elemlen' = Ok r0
      /\ run_ops (S fuel) ops r0 0 = Ok (r, net)
      /\ free_entries_of r + entries_of r = capacity r
      /\ capacity r = (totallen - 512) / elemlen' - 1
      /\ 0 <= free_entries_of r /\ 0 <= entries_of r.
Proof.
  intros fuel totallen elemlen' ops He Ht Hfit.
  destruct (create_inv totallen elemlen' He Ht)
    as [r0 [E0 [Hinv0 [Hs0 [He0 _]]]]].
  rewrite <- He0 in Hfit.
  destruct (run_ops_spec fuel ops r0 0 Hinv0 Hfit)
    as [r [net [E [Hinv [Hs [Hel _]]]]]].
  exists r0, r, net. split; [exact E0|]. split; [exact E|].
  pose proof (free_plus_entries r Hinv) as Hsum.
  destruct Hinv as [Hsz Hcap _ _ _ _ _ _].
  pose proof (free_entries_bound r ltac:(lia)) as Hf.
  pose proof (entries_bound r ltac:(lia)) as Hb.
  repeat split; lia.
Qed.

Lemma X8_free_plus_entries_is_capacity_witness :
  exists r0 r net,
    rte_ring_create 6144 4 = Ok r0
    /\ run_ops 1 [Enqueue (ints_bytes [1;2;3]) 3 RTE_RING_QUEUE_VARIABLE;
                  Dequeue (out_table 1) 1 RTE_RING_QUEUE_FIXED] r0 0
       = Ok (r, net)
    /\ free_entries_of r + entries_of r = capacity r
    /\ capacity r = (6144 - 512) / 4 - 1
    /\ 0 <= free_entries_of r /\ 0 <= entries_of r.
Proof.
  apply (X8_free_plus_entries_is_capacity 0 6144 4).
  - lia.
  - lia.
  - repeat constructor; cbn; lia.
Defined.

Lemma memcpy_keeps_length dst doff src soff len d :
  memcpy dst doff src soff len = Ok d -> zlength d = zlength dst.
Proof.
  unfold memcpy.
  destruct ((0 <=? doff) && (0 <=? soff) && (0 <=? len)
            && (doff + len <=? zlength dst) && (soff + len <=? zlength src))
    eqn:E; [|discriminate].
  rewrite !andb_true_iff, !Z.leb_le in E.
  destruct E as [[[[H1 H2] H3] H4] H5].
  intros H. destruct (memcpy_ok dst doff src soff len H1 H2 H3 H4 H5)
    as [d' [E' L]].
  unfold memcpy in E'.
  assert (Ec : (0 <=? doff) && (0 <=? soff) && (0 <=? len)
               && (doff + len <=? zlength dst) && (soff + len <=? zlength src)
               = true).
  { rewrite !andb_true_iff, !Z.leb_le. auto. }
  rewrite Ec in E'. congruence.
Qed.

Lemma enqueue_copy_keeps_length todo : forall r head i obj_table d d',
  enqueue_copy todo r head i obj_table d = Ok d' -> zlength d' = zlength d.
Proof.
  induction todo as [|todo IH]; intros r head i obj_table d d' E.
  - inversion E. reflexivity.
  - cbn [enqueue_copy] in E.
    destruct (memcpy d _ obj_table _ _) as [d1| |] eqn:E1; cbn [bind] in E;
      try discriminate.
    rewrite (IH _ _ _ _ _ _ E). exact (memcpy_keeps_length _ _ _ _ _ _ E1).
Qed.

Lemma dequeue_copy_keeps_length todo : forall r head i obj_table out,
  dequeue_copy todo r head i obj_table = Ok out ->
  zlength out = zlength obj_table.
Proof.
  induction todo as [|todo IH]; intros r head i obj_table out E.
  - inversion E. reflexivity.
  - cbn [dequeue_copy] in E.
    destruct (memcpy obj_table _ (data r) _ _) as [t1| |] eqn:E1;
      cbn [bind] in E; try discriminate.
    rewrite (IH _ _ _ _ _ E). exact (memcpy_keeps_length _ _ _ _ _ _ E1).
Qed.

(** X9: what a call leaves alone, in any state.  An enqueue that returns
    changes neither the consumer's counters nor [size], [mask],
    [capacity], [elemlen], nor the length of the storage; a dequeue that
    returns changes neither the producer's counters nor those fields,
    writes no byte of the storage, and keeps the length of the caller's
    table. *)
Theorem X9_calls_leave_the_other_side_alone :
  forall fuel r obj_table n b,
    (forall r' k,
       __rte_ring_do_enqueue fuel r obj_table n b = Ok (r', k) ->
       cons_head r' = cons_head r /\ cons_tail r' = cons_tail r
       /\ size r' = size r /\ mask r' = mask r
       /\ capacity r' = capacity r /\ elemlen r' = elemlen r
       /\ zlength (data r') = zlength (data r))
    /\ (forall r' out k,
          __rte_ring_do_dequeue fuel r obj_table n b = Ok (r', out, k) ->
          prod_head r' = prod_head r /\ prod_tail r' = prod_tail r
          /\ size r' = size r /\ mask r' = mask r
          /\ capacity r' = capacity r /\ elemlen r' = elemlen r
          /\ data r' = data r
          /\ zlength out = zlength obj_table).
Proof.
  intros fuel r obj_table n b. split.
  - intros r' k E. destruct fuel as [|fuel]; [discriminate|].
    destruct (Z.eq_dec (size r) 0) as [Hz|Hnz].
    { unfold __rte_ring_do_enqueue in E.
      rewrite move_prod_head_zero_size in E by exact Hz. discriminate. }
    unfold __rte_ring_do_enqueue in E.
    rewrite move_prod_head_eq in E by exact Hnz. cbn zeta in E.
    destruct (granted b n (free_entries_of r) =? 0); cbn [bind] in E.
    + inversion E; subst. repeat split.
    + destruct (enqueue_copy _ _ _ _ _ _) as [d| |] eqn:Ec; cbn [bind] in E;
        try discriminate.
      destruct (update_tail _ _ _ _); cbn [bind] in E; try discriminate.
      inversion E; subst. cbn. repeat split.
      apply enqueue_copy_keeps_length in Ec. exact Ec.
  - intros r' out k E. destruct fuel as [|fuel]; [discriminate|].
    destruct (Z.eq_dec (size r) 0) as [Hz|Hnz].
    { unfold __rte_ring_do_dequeue in E.
      rewrite move_cons_head_zero_size in E by exact Hz. discriminate. }
    unfold __rte_ring_do_dequeue in E.
    rewrite move_cons_head_eq in E by exact Hnz. cbn zeta in E.
    destruct (granted b n (entries_of r) =? 0); cbn [bind] in E.
    + inversion E; subst. repeat split.
    + destruct (dequeue_copy _ _ _ _ _) as [o| |] eqn:Ec; cbn [bind] in E;
        try discriminate.
      destruct (update_tail _ _ _ _); cbn [bind] in E; try discriminate.
      inversion E; subst. cbn. repeat split.
      apply dequeue_copy_keeps_length in Ec. exact Ec.
Qed.

Lemma X9_calls_leave_the_other_side_alone_witness :
  prod_head (mk_ring 8 7 7 4 2 2 7 7 (ints_bytes [8;9;0;0;0;0;6;7])) = 2
  /\ data (mk_ring 8 7 7 4 2 2 7 7 (ints_bytes [8;9;0;0;0;0;6;7]))
     = ints_bytes [8;9;0;0;0;0;6;7].
Proof.
  pose proof (proj2 (X9_calls_leave_the_other_side_alone
                       1 (mk_ring 8 7 7 4 2 2 6 6
                            (ints_bytes [8;9;0;0;0;0;6;7]))
                       (out_table 1) 1 RTE_RING_QUEUE_FIXED)
                (mk_ring 8 7 7 4 2 2 7 7 (ints_bytes [8;9;0;0;0;0;6;7]))
                (int_bytes 6) 1 eq_refl) as H.
  split; [exact (proj1 H) | exact (proj1 (proj2 (proj2 (proj2 (proj2 (proj2 (proj2 H)))))))].
Defined.

(** X10: a block that reaches the data area but has no room for one
    element there gives a ring nobody can use.  With
    [512 <= totallen < 512 + elemlen], [rte_ring_create] returns a ring
    of size 0 and capacity [2^32 - 1], and every enqueue or dequeue call
    on it, of any count and behaviour, takes a remainder modulo zero:
    the call has no defined result. *)
Theorem X10_ring_without_a_slot_is_unusable :
  forall totallen elemlen',
    0 < elemlen' -> 512 <= totallen < 512 + elemlen' ->
    exists r,
      rte_ring_create totallen elemlen' = Ok r
      /\ size r = 0 /\ capacity r = 4294967295
      /\ forall fuel obj_table n b,
           __rte_ring_do_enqueue (S fuel) r obj_table n b = Undefined
           /\ __rte_ring_do_dequeue (S fuel) r obj_table n b = Undefined.
Proof.
  intros totallen elemlen' He Ht. unfold rte_ring_create.
  destruct (Z.eqb_spec elemlen' 0) as [E|_]; [lia|].
  destruct (Z.ltb_spec totallen 512) as [E|_]; [lia|].
  rewrite Z.quot_small by lia.
  eexists. split; [reflexivity|]. cbn [size capacity].
  split; [reflexivity|]. split; [reflexivity|].
  intros fuel obj_table n b.
  unfold __rte_ring_do_enqueue, __rte_ring_do_dequeue.
  rewrite move_prod_head_zero_size, move_cons_head_zero_size by reflexivity.
  split; reflexivity.
Qed.

Lemma X10_ring_without_a_slot_is_unusable_witness :
  exists r,
    rte_ring_create 514 4 = Ok r
    /\ size r = 0 /\ capacity r = 4294967295
    /\ forall fuel obj_table n b,
         __rte_ring_do_enqueue (S fuel) r obj_table n b = Undefined
         /\ __rte_ring_do_dequeue (S fuel) r obj_table n b = Undefined.
Proof.
  apply (X10_ring_without_a_slot_is_unusable 514 4); lia.
Defined.

Lemma read_bytes_all l : read_bytes l 0 (zlength l) = l.
Proof.
  unfold read_bytes, zlength. cbn [Z.to_nat skipn].
  rewrite Nat2Z.id. apply firstn_all.
Qed.

(** X11: round trip.  On an empty ring at rest, enqueueing [k] elements,
    [k] up to [capacity], takes them all, and dequeuing [k] elements
    then returns exactly the bytes that were enqueued and leaves the ring
    empty; this holds under either behaviour and wherever in the storage
    the head stands, also across the wrap from the last slot to the
    first. *)
Theorem X11_enqueue_dequeue_round_trip :
  forall fuel r obj_table out k b1 b2,
    ring_inv r -> size r * elemlen r < U32.modulus ->
    prod_head r = cons_head r ->
    0 <= k <= capacity r ->
    zlength obj_table = k * elemlen r ->
    zlength out = k * elemlen r ->
    exists r1 r2,
      __rte_ring_do_enqueue (S fuel) r obj_table k b1 = Ok (r1, k)
      /\ __rte_ring_do_dequeue (S fuel) r1 out k b2 = Ok (r2, obj_table, k)
      /\ entries_of r2 = 0
      /\ ring_contents r2 = [].
Proof.
  intros fuel r obj_table out k b1 b2 Hinv H32 Hempty Hk Ht Ho.
  pose proof (free_plus_entries r Hinv) as Hsum.
  assert (Hent : entries_of r = 0).
  { rewrite (entries_of_inv r Hinv).
    destruct Hinv as [? _ _ _ _ Hpt _ _].
    rewrite Hpt, Hempty, Z.sub_diag. cbn. apply Z.mod_same. lia. }
  assert (Hc0 : ring_contents r = []).
  { unfold ring_contents. rewrite Hent. reflexivity. }
  assert (Hg1 : granted b1 k (free_entries_of r) = k).
  { unfold granted. destruct (Z.gtb_spec k (free_entries_of r)); [lia|].
    reflexivity. }
  destruct (do_enqueue_contents fuel r obj_table k b1 Hinv H32
              ltac:(lia) ltac:(lia)) as [r1 [E1 [Hinv1 Hc1]]].
  destruct (do_enqueue_spec fuel r obj_table k b1 Hinv ltac:(lia) ltac:(lia))
    as [r1' [E1' [_ [Hs1 [He1 [_ [_ [_ Hent1]]]]]]]].
  rewrite E1 in E1'.
  assert (Er : r1' = r1) by (inversion E1'; reflexivity).
  rewrite Er in Hs1, He1, Hent1. clear E1' Er.
  rewrite Hg1 in E1, Hc1, Hent1.
  rewrite Hc0, <- Ht, read_bytes_all in Hc1. cbn [app] in Hc1.
  assert (Hg2 : granted b2 k (entries_of r1) = k).
  { unfold granted. destruct (Z.gtb_spec k (entries_of r1)); [lia|].
    reflexivity. }
  destruct (do_dequeue_contents fuel r1 out k b2 Hinv1
              ltac:(rewrite Hs1, He1; exact H32) ltac:(lia)
              ltac:(rewrite He1; lia)) as [r2 [out2 [E2 [Hinv2 [Ho2 Hc2]]]]].
  destruct (do_dequeue_spec fuel r1 out k b2 Hinv1 ltac:(lia)
              ltac:(rewrite He1; lia))
    as [r2' [out2' [E2' [_ [_ [_ [_ [_ [_ [_ Hent2]]]]]]]]]].
  rewrite E2 in E2'.
  assert (Er : r2' = r2) by (inversion E2'; reflexivity).
  rewrite Er in Hent2. clear E2' Er.
  rewrite Hg2 in E2, Ho2, Hc2, Hent2.
  rewrite He1, <- Ht in Ho2, Hc2.
  rewrite Hc1, read_bytes_all in Ho2.
  rewrite Hc1 in Hc2.
  assert (Hrest : skipn (Z.to_nat (zlength obj_table)) out = []).
  { apply skipn_all2. unfold zlength in *. lia. }
  rewrite Hrest, app_nil_r in Ho2.
  assert (Hrest2 : skipn (Z.to_nat (zlength obj_table)) obj_table = []).
  { apply skipn_all2. unfold zlength. lia. }
  rewrite Hrest2 in Hc2.
  exists r1, r2. rewrite <- Ho2 at 2.
  split; [exact E1|]. split; [exact E2|]. split; [lia | exact Hc2].
Qed.

Lemma X11_enqueue_dequeue_round_trip_witness :
  exists r1 r2,
    __rte_ring_do_enqueue 1 (mk_ring 6 5 5 4 4 4 4 4 (repeat x00 24))
        (ints_bytes [1;2;3;4;5]) 5 RTE_RING_QUEUE_FIXED = Ok (r1, 5)
    /\ __rte_ring_do_dequeue 1 r1 (out_table 5) 5 RTE_RING_QUEUE_VARIABLE
       = Ok (r2, ints_bytes [1;2;3;4;5], 5)
    /\ entries_of r2 = 0
    /\ ring_contents r2 = [].
Proof.
  apply (X11_enqueue_dequeue_round_trip
           0 (mk_ring 6 5 5 4 4 4 4 4 (repeat x00 24))
           (ints_bytes [1;2;3;4;5]) (out_table 5) 5
           RTE_RING_QUEUE_FIXED RTE_RING_QUEUE_VARIABLE).
  - constructor; cbn; lia.
  - reflexivity.
  - reflexivity.
  - cbn. lia.
  - reflexivity.
  - reflexivity.
Defined.

(** ** Publishing in reservation order *)

Module PublishOrder.
Import Publish.

Lemma nth_error_combine {A B} (l1 : list A) (l2 : list B) : forall j,
  nth_error (combine l1 l2) j =
    match nth_error l1 j, nth_error l2 j with
    | Some a, Some b => Some (a, b)
    | _, _ => None
    end.
Proof.
  revert l2. induction l1 as [|a l1 IH]; intros [|b l2] [|j]; cbn;
    try reflexivity.
  - destruct (nth_error l1 j); reflexivity.
  - apply IH.
Qed.

Lemma nth_error_tl {A} (l : list A) j :
  nth_error (tl l) j = nth_error l (S j).
Proof. destruct l; [destruct j|]; reflexivity. Qed.

(** Thread [j] of a chain starts at point [j] and ends at point [j + 1]. *)
Lemma chain_thread points s j t :
  map (fun t => (pub_old t, pub_new t)) (publishers s) = chain_ranges points ->
  nth_error (publishers s) j = Some t ->
  nth_error points j = Some (pub_old t)
  /\ nth_error points (S j) = Some (pub_new t).
Proof.
  intros Hr Hj.
  assert (H : nth_error (chain_ranges points) j = Some (pub_old t, pub_new t)).
  { rewrite <- Hr, nth_error_map, Hj. reflexivity. }
  unfold chain_ranges in H. rewrite nth_error_combine, nth_error_tl in H.
  destruct (nth_error points j); [|discriminate].
  destruct (nth_error points (S j)); [|discriminate].
  inversion H. auto.
Qed.

Definition order_inv (points : list Z) (s : system) : Prop :=
  map (fun t => (pub_old t, pub_new t)) (publishers s) = chain_ranges points
  /\ exists k, published_up_to points s k.

Lemma step_unchanged i s t :
  nth_error (publishers s) i = Some t ->
  mk_system (tail_cell s) (replace_nth i t (publishers s)) = s.
Proof.
  intros H. rewrite (PublishFacts.replace_nth_same _ _ _ H).
  apply PublishFacts.system_eta.
Qed.

Lemma system_step_order points i s :
  NoDup points -> order_inv points s -> order_inv points (system_step i s).
Proof.
  intros Hnd [Hr [k [Htail Hord]]]. unfold system_step.
  destruct (nth_error (publishers s) i) as [t|] eqn:Ei;
    [|split; [exact Hr | exists k; split; assumption]].
  destruct (chain_thread points s i t Hr Ei) as [Hold Hnew].
  destruct (Hord i t Ei) as [Hlt [Hgt Heq]].
  unfold publisher_step.
  destruct (pub_pc t) eqn:Epc.
  - destruct (Z.eqb_spec (tail_cell s) (pub_old t)) as [E|E]; cbn [negb].
    + (* leaves the loop: it is thread k *)
      assert (Hik : i = k).
      { apply (proj1 (NoDup_nth_error points) Hnd).
        - apply nth_error_Some. rewrite Hold. discriminate.
        - rewrite Hold, Htail, E. reflexivity. }
      subst i. split.
      * cbn. rewrite (PublishFacts.map_replace_nth_same k t _ _ Ei); auto.
      * exists k. split; [exact Htail|]. cbn.
        intros j u Hj. rewrite PublishFacts.nth_error_replace_nth in Hj.
        destruct (Nat.eqb_spec k j) as [<-|Hkj].
        -- rewrite Ei in Hj. inversion Hj; subst u. cbn.
           repeat split; intros; try lia. discriminate.
        -- apply Hord. exact Hj.
    + rewrite (step_unchanged i s t Ei).
      split; [exact Hr | exists k; split; assumption].
  - (* stores: it is thread k, the tail moves to point k + 1 *)
    assert (Hik : i = k).
    { destruct (Nat.lt_trichotomy i k) as [H|[H|H]]; [|exact H|].
      - discriminate (Hlt H).
      - discriminate (Hgt H). }
    subst i. split.
    + cbn. rewrite (PublishFacts.map_replace_nth_same k t _ _ Ei); auto.
    + exists (S k). split; [exact Hnew|]. cbn.
      intros j u Hj. rewrite PublishFacts.nth_error_replace_nth in Hj.
      destruct (Nat.eqb_spec k j) as [<-|Hkj].
      * rewrite Ei in Hj. inversion Hj; subst u. cbn.
        repeat split; intros; try lia; reflexivity.
      * destruct (Hord j u Hj) as [H1 [H2 H3]].
        repeat split; intros.
        -- apply H1. lia.
        -- apply H2. lia.
        -- rewrite H2 by lia. discriminate.
  - rewrite (step_unchanged i s t Ei).
    split; [exact Hr | exists k; split; assumption].
Qed.

Lemma initial_order c0 points :
  order_inv (c0 :: points) (initial c0 (chain_ranges (c0 :: points))).
Proof.
  split.
  - apply (proj1 (PublishFacts.initial_inv c0 (chain_ranges (c0 :: points)))).
  - exists 0%nat. split; [reflexivity|].
    intros j t Hj.
    assert (Hpc : pub_pc t = AtLoop).
    { cbn in Hj. apply nth_error_In, in_map_iff in Hj.
      destruct Hj as [[o n] [E _]]. subst t. reflexivity. }
    rewrite Hpc. repeat split; intros; try lia; try reflexivity.
    discriminate.
Qed.

Lemma run_schedule_order points schedule : forall s,
  NoDup points -> order_inv points s ->
  order_inv points (run_schedule schedule s).
Proof.
  induction schedule as [|i schedule IH]; intros s Hnd Hinv; cbn.
  - exact Hinv.
  - apply IH; [exact Hnd | apply system_step_order; assumption].
Qed.

End PublishOrder.

(** X12: ranges are published in the order they were reserved.  Let the
    tail start at [c0] and let threads hold the successive ranges
    [c0 -> c1], [c1 -> c2], ..., all points different.  Under any
    schedule, at any moment, the tail stands at one of the points, say
    point [k]; the threads of all earlier ranges have returned, the
    threads of all later ranges are still waiting in the loop, and the
    owner of the range that starts at the tail has not returned yet. *)
Theorem X12_ranges_are_published_in_order :
  forall (c0 : Z) (points : list Z) (schedule : list nat),
    NoDup (c0 :: points) ->
    exists k,
      (k <= length points)%nat
      /\ published_up_to (c0 :: points)
           (Publish.run_schedule schedule
              (Publish.initial c0 (chain_ranges (c0 :: points)))) k.
Proof.
  intros c0 points schedule Hnd.
  destruct (PublishOrder.run_schedule_order (c0 :: points) schedule _ Hnd
              (PublishOrder.initial_order c0 points)) as [_ [k Hk]].
  exists k. split; [|exact Hk].
  destruct Hk as [Hn _].
  assert (H : (k < length (c0 :: points))%nat).
  { apply nth_error_Some. rewrite Hn. discriminate. }
  cbn in H. lia.
Qed.

Lemma X12_ranges_are_published_in_order_witness :
  exists k,
    (k <= 3)%nat
    /\ published_up_to [7; 2; 5; 6]
         (Publish.run_schedule [2; 1; 0; 2; 0; 1; 1; 2]%nat
            (Publish.initial 7 (chain_ranges [7; 2; 5; 6]))) k.
Proof.
  apply (X12_ranges_are_published_in_order 7 [2; 5; 6]
           [2; 1; 0; 2; 0; 1; 1; 2]%nat).
  repeat constructor; cbn; intuition discriminate.
Defined.

(** X13: the owner of the oldest unpublished range is never held up.
    In any state reached under any schedule, if the tail stands at point
    [k] and a range starts there, two steps of its owner (leave the loop,
    store) move the tail to point [k + 1], whatever the other threads
    have done in between; no other thread has to run for that. *)
Theorem X13_owner_of_oldest_range_publishes :
  forall (c0 : Z) (points : list Z) (schedule : list nat) (k : nat),
    NoDup (c0 :: points) ->
    let s := Publish.run_schedule schedule
               (Publish.initial c0 (chain_ranges (c0 :: points))) in
    published_up_to (c0 :: points) s k ->
    (k < length points)%nat ->
    published_up_to (c0 :: points)
      (Publish.system_step k (Publish.system_step k s)) (S k).
Proof.
  intros c0 points schedule k Hnd s Hk Hlen.
  pose proof (PublishOrder.run_schedule_order (c0 :: points) schedule _ Hnd
                (PublishOrder.initial_order c0 points)) as Hinv.
  fold s in Hinv.
  pose proof (PublishOrder.system_step_order (c0 :: points) k _ Hnd
                (PublishOrder.system_step_order (c0 :: points) k _ Hnd Hinv))
    as [_ [k' Hk']].
  destruct Hinv as [Hr _].
  (* thread k exists *)
  assert (Hex : exists t, nth_error (Publish.publishers s) k = Some t).
  { destruct (nth_error (Publish.publishers s) k) as [t|] eqn:E;
      [exists t; reflexivity|].
    apply nth_error_None in E.
    assert (L : length (Publish.publishers s) = length points).
    { rewrite <- (length_map (fun t => (Publish.pub_old t, Publish.pub_new t))),
        Hr.
      unfold chain_ranges. cbn [tl]. rewrite length_combine.
      cbn [length]. lia. }
    lia. }
  destruct Hex as [t Et].
  destruct (PublishOrder.chain_thread (c0 :: points) s k t Hr Et)
    as [Hold Hnew].
  destruct Hk as [Htail Hord].
  destruct (Hord k t Et) as [_ [_ Hnr]].
  assert (Eold : Publish.tail_cell s = Publish.pub_old t) by congruence.
  assert (Etail : Publish.tail_cell
                    (Publish.system_step k (Publish.system_step k s))
                  = Publish.pub_new t).
  { unfold Publish.system_step at 2. rewrite Et.
    unfold Publish.publisher_step at 1.
    destruct (Publish.pub_pc t) eqn:Epc.
    - rewrite Eold, Z.eqb_refl. cbn [negb].
      unfold Publish.system_step. cbn [Publish.publishers Publish.tail_cell].
      rewrite PublishFacts.nth_error_replace_nth, Nat.eqb_refl, Et.
      reflexivity.
    - unfold Publish.system_step. cbn [Publish.publishers Publish.tail_cell].
      rewrite PublishFacts.nth_error_replace_nth, Nat.eqb_refl, Et.
      reflexivity.
    - exfalso. apply (Hnr eq_refl). reflexivity. }
  assert (Ek : k' = S k).
  { destruct Hk' as [Hn' _].
    apply (proj1 (NoDup_nth_error (c0 :: points)) Hnd).
    - apply nth_error_Some. rewrite Hn'. discriminate.
    - rewrite Hn', Etail, Hnew. reflexivity. }
  rewrite <- Ek. exact Hk'.
Qed.

Lemma X13_owner_of_oldest_range_publishes_witness :
  published_up_to [7; 2; 5; 6]
    (Publish.system_step 1
       (Publish.system_step 1
          (Publish.run_schedule [2; 0; 1; 2; 0]%nat
             (Publish.initial 7 (chain_ranges [7; 2; 5; 6]))))) 2.
Proof.
  apply (X13_owner_of_oldest_range_publishes 7 [2; 5; 6]
           [2; 0; 1; 2; 0]%nat 1%nat).
  - repeat constructor; cbn; intuition discriminate.
  - split; [reflexivity|].
    intros j t Hj. cbn in Hj.
    destruct j as [|[|[|j]]]; cbn in Hj;
      try (destruct j; discriminate);
      injection Hj as <-; cbn;
      repeat split; intros; try lia; try reflexivity; try discriminate.
  - cbn. lia.
Defined.

(** ** Reservations stack *)

(** X14: a head move reserves without publishing.  On a ring with its
    counters inside [0, size), a producer head move that reserves [g]
    slots starts at the old head, leaves the head at the end of the
    range, lowers the free count seen by the next producer by exactly
    [g], and changes neither tail, nor the consumer head, nor the
    storage; so the next producer's range starts where this one ends and
    never covers unconsumed slots.  Likewise a consumer head move lowers
    the entry count seen by the next consumer by [g]. *)
Theorem X14_head_moves_stack :
  forall fuel r n b,
    0 < size r <= 2 ^ 31 -> capacity r = size r - 1 ->
    0 <= prod_head r < size r -> 0 <= prod_tail r < size r ->
    0 <= cons_head r < size r -> 0 <= cons_tail r < size r ->
    0 <= n ->
    (exists r' m,
       __rte_ring_move_prod_head (S fuel) r n b = Ok (r', m)
       /\ match m with
          | NoRoom => r' = r
          | Moved g old_head new_head =>
              old_head = prod_head r /\ prod_head r' = new_head
              /\ new_head = (old_head + g) mod size r
              /\ 0 < g <= free_entries_of r /\ g <= n
              /\ free_entries_of r' = free_entries_of r - g
              /\ prod_tail r' = prod_tail r
              /\ cons_head r' = cons_head r /\ cons_tail r' = cons_tail r
              /\ data r' = data r
          end)
    /\ (exists r' m,
          __rte_ring_move_cons_head (S fuel) r n b = Ok (r', m)
          /\ match m with
             | NoRoom => r' = r
             | Moved g old_head new_head =>
                 old_head = cons_head r /\ cons_head r' = new_head
                 /\ new_head = (old_head + g) mod size r
                 /\ 0 < g <= entries_of r /\ g <= n
                 /\ entries_of r' = entries_of r - g
                 /\ cons_tail r' = cons_tail r
                 /\ prod_head r' = prod_head r /\ prod_tail r' = prod_tail r
                 /\ data r' = data r
             end).
Proof.
  intros fuel r n b Hs Hcap Hph Hpt Hch Hct Hn.
  assert (Hsz : 0 < size r) by lia.
  assert (Hm : U32.modulus = 4294967296) by reflexivity.
  change (2 ^ 31) with 2147483648 in Hs.
  pose proof (free_entries_bound r Hsz) as Hf.
  pose proof (entries_bound r Hsz) as He.
  split.
  - pose proof (granted_bounds b n (free_entries_of r) Hn (proj1 Hf))
      as [Hg1 Hg2].
    rewrite move_prod_head_eq by lia. cbn zeta.
    set (g := granted b n (free_entries_of r)) in *.
    destruct (Z.eqb_spec g 0) as [E0|E0].
    + exists r, NoRoom. auto.
    + destruct (next_head_inv r (prod_head r) g) as [Enh Hnh]; try lia.
      eexists. eexists. split; [reflexivity|]. cbn.
      repeat split; try lia; auto.
      assert (F1 : free_entries_of r
                   = (size r - 1 + cons_tail r - prod_head r) mod size r).
      { unfold free_entries_of. rewrite Hcap, U32Facts.wrap_small by lia.
        reflexivity. }
      assert (F2 : free_entries_of
                     (set_prod_head r (next_head r (prod_head r) g))
                   = (size r - 1 + cons_tail r
                      - next_head r (prod_head r) g) mod size r).
      { unfold free_entries_of. cbn. rewrite Hcap, U32Facts.wrap_small by lia.
        reflexivity. }
      rewrite F2. rewrite F1 in *. rewrite Enh in *.
      split_mod (size r) (prod_head r + g);
        split_mod (size r) (size r - 1 + cons_tail r - prod_head r);
        match goal with |- (?x) mod _ = _ => split_mod (size r) x end; lia.
  - pose proof (granted_bounds b n (entries_of r) Hn (proj1 He)) as [Hg1 Hg2].
    rewrite move_cons_head_eq by lia. cbn zeta.
    set (g := granted b n (entries_of r)) in *.
    destruct (Z.eqb_spec g 0) as [E0|E0].
    + exists r, NoRoom. auto.
    + destruct (next_head_inv r (cons_head r) g) as [Enh Hnh]; try lia.
      eexists. eexists. split; [reflexivity|]. cbn.
      repeat split; try lia; auto.
      assert (F1 : entries_of r
                   = (prod_tail r - cons_head r + size r) mod size r).
      { unfold entries_of. rewrite U32Facts.wrap_small by lia. reflexivity. }
      assert (F2 : entries_of (set_cons_head r (next_head r (cons_head r) g))
                   = (prod_tail r - next_head r (cons_head r) g + size r)
                       mod size r).
      { unfold entries_of. cbn. rewrite U32Facts.wrap_small by lia.
        reflexivity. }
      rewrite F2. rewrite F1 in *. rewrite Enh in *.
      split_mod (size r) (cons_head r + g);
        split_mod (size r) (prod_tail r - cons_head r + size r);
        match goal with |- (?x) mod _ = _ => split_mod (size r) x end; lia.
Qed.

Lemma X14_head_moves_stack_witness :
  exists r' m,
    __rte_ring_move_prod_head 1 (mk_ring 8 7 7 4 6 4 1 1 (repeat x00 32)) 5
        RTE_RING_QUEUE_VARIABLE = Ok (r', m)
    /\ match m with
       | NoRoom => r' = mk_ring 8 7 7 4 6 4 1 1 (repeat x00 32)
       | Moved g old_head new_head =>
           old_head = 6 /\ prod_head r' = new_head
           /\ new_head = (old_head + g) mod 8
           /\ 0 < g <= free_entries_of (mk_ring 8 7 7 4 6 4 1 1 (repeat x00 32))
           /\ g <= 5
           /\ free_entries_of r'
              = free_entries_of (mk_ring 8 7 7 4 6 4 1 1 (repeat x00 32)) - g
           /\ prod_tail r' = 4
           /\ cons_head r' = 1 /\ cons_tail r' = 1
           /\ data r' = repeat x00 32
       end.
Proof.
  apply (proj1 (X14_head_moves_stack
                  0 (mk_ring 8 7 7 4 6 4 1 1 (repeat x00 32)) 5
                  RTE_RING_QUEUE_VARIABLE
                  ltac:(cbn; lia) eq_refl ltac:(cbn; lia) ltac:(cbn; lia)
                  ltac:(cbn; lia) ltac:(cbn; lia) ltac:(lia))).
Defined.

(** ** A call, statement by statement *)

Module ConcurrentFacts.
Import Concurrent.

Lemma nth_error_set_nth i x : forall l j,
  nth_error (set_nth i x l) j =
    if Nat.eqb i j
    then match nth_error l j with Some _ => Some x | None => None end
    else nth_error l j.
Proof.
  induction i as [|i IH]; intros [|y l] [|j]; cbn; try reflexivity.
  - destruct (Nat.eqb i j); reflexivity.
  - apply IH.
Qed.

Lemma nth_error_set_nth_same i x l t :
  nth_error l i = Some t -> nth_error (set_nth i x l) i = Some x.
Proof.
  intros H. rewrite nth_error_set_nth, Nat.eqb_refl, H. reflexivity.
Qed.

Lemma set_nth_set_nth i x y : forall l,
  set_nth i x (set_nth i y l) = set_nth i x l.
Proof.
  induction i as [|i IH]; intros [|z l]; cbn; try reflexivity.
  rewrite IH. reflexivity.
Qed.

Lemma set_nth_same i t : forall l,
  nth_error l i = Some t -> set_nth i t l = l.
Proof.
  induction i as [|i IH]; intros [|y l] H; cbn in *; try discriminate.
  - inversion H. reflexivity.
  - rewrite (IH l H). reflexivity.
Qed.

Lemma run_schedule_app s1 : forall s2 s,
  run_schedule (s1 ++ s2) s = (s' <- run_schedule s1 s ;; run_schedule s2 s').
Proof.
  induction s1 as [|i s1 IH]; intros s2 s; cbn; [reflexivity|].
  destruct (system_step i s) as [s'| |]; cbn [bind]; auto.
Qed.

(** A thread that has returned does nothing more. *)
Lemma returned_steps k : forall i s t c,
  nth_error (threads s) i = Some t -> th_pc t = Returned c ->
  run_schedule (repeat i k) s = Ok s.
Proof.
  induction k as [|k IH]; intros i s t c Hi Hpc; cbn; [reflexivity|].
  assert (Hstep : system_step i s = Ok s).
  { unfold system_step. rewrite Hi. unfold thread_step.
    destruct (th_side t); unfold producer_step, consumer_step;
      rewrite Hpc; cbn [bind]; rewrite (set_nth_same _ _ _ Hi);
      destruct s; reflexivity. }
  rewrite Hstep. cbn [bind]. eapply IH; eauto.
Qed.

(** The producer's copy loop, run without interruption, is
    [enqueue_copy]. *)
Lemma producer_copy_steps todo : forall i s t n old_head new_head i0 d,
  nth_error (threads s) i = Some t -> th_side t = Producer ->
  th_pc t = AtCopy n old_head new_head i0 ->
  i0 + Z.of_nat todo <= n ->
  enqueue_copy todo (ring s) old_head i0 (th_table t) (data (ring s)) = Ok d ->
  run_schedule (repeat i todo) s
    = Ok (mk_system (set_data (ring s) d)
            (set_nth i (at_pc t (AtCopy n old_head new_head
                                   (i0 + Z.of_nat todo)))
               (threads s))).
Proof.
  induction todo as [|todo IH];
    intros i s t n old_head new_head i0 d Hi Hside Hpc Hn Hcopy.
  - cbn in *. inversion Hcopy; subst d.
    replace (i0 + 0) with i0 by lia.
    rewrite <- Hpc.
    replace (at_pc t (th_pc t)) with t by (destruct t; reflexivity).
    rewrite (set_nth_same _ _ _ Hi). destruct s as [[] ?]. reflexivity.
  - cbn [repeat run_schedule]. cbn [enqueue_copy] in Hcopy.
    destruct (memcpy (data (ring s)) (slot_offset (ring s) old_head i0)
                (th_table t) (table_offset (ring s) i0) (elemlen (ring s)))
      as [d1| |] eqn:E1; cbn [bind] in Hcopy; try discriminate.
    unfold system_step at 1. rewrite Hi. unfold thread_step. rewrite Hside.
    unfold producer_step. rewrite Hpc.
    destruct (Z.ltb_spec i0 n) as [_|Hge]; [|lia].
    rewrite E1. cbn [bind].
    rewrite (enqueue_copy_static todo (ring s) (set_data (ring s) d1)) in Hcopy
      by reflexivity.
    replace (i0 + Z.of_nat (S todo)) with (i0 + 1 + Z.of_nat todo) by lia.
    rewrite (IH i _ (at_pc t (AtCopy n old_head new_head (i0 + 1)))
               n old_head new_head (i0 + 1) d);
      cbn [ring threads th_side th_pc th_table at_pc data set_data];
      try reflexivity; try lia; try assumption.
    + rewrite set_nth_set_nth. reflexivity.
    + apply (nth_error_set_nth_same _ _ _ _ Hi).
Qed.

Lemma consumer_copy_steps todo : forall i s t n old_head new_head i0 out,
  nth_error (threads s) i = Some t -> th_side t = Consumer ->
  th_pc t = AtCopy n old_head new_head i0 ->
  i0 + Z.of_nat todo <= n ->
  dequeue_copy todo (ring s) old_head i0 (th_table t) = Ok out ->
  run_schedule (repeat i todo) s
    = Ok (mk_system (ring s)
            (set_nth i (with_table t out
                          (AtCopy n old_head new_head (i0 + Z.of_nat todo)))
               (threads s))).
Proof.
  induction todo as [|todo IH];
    intros i s t n old_head new_head i0 out Hi Hside Hpc Hn Hcopy.
  - cbn in *. inversion Hcopy; subst out.
    replace (i0 + 0) with i0 by lia.
    rewrite <- Hpc.
    replace (with_table t (th_table t) (th_pc t)) with t
      by (destruct t; reflexivity).
    rewrite (set_nth_same _ _ _ Hi). destruct s. reflexivity.
  - cbn [repeat run_schedule]. cbn [dequeue_copy] in Hcopy.
    destruct (memcpy (th_table t) (table_offset (ring s) i0) (data (ring s))
                (slot_offset (ring s) old_head i0) (elemlen (ring s)))
      as [t1| |] eqn:E1; cbn [bind] in Hcopy; try discriminate.
    unfold system_step at 1. rewrite Hi. unfold thread_step. rewrite Hside.
    unfold consumer_step. rewrite Hpc.
    destruct (Z.ltb_spec i0 n) as [_|Hge]; [|lia].
    rewrite E1. cbn [bind].
    replace (i0 + Z.of_nat (S todo)) with (i0 + 1 + Z.of_nat todo) by lia.
    rewrite (IH i _ (with_table t t1 (AtCopy n old_head new_head (i0 + 1)))
               n old_head new_head (i0 + 1) out);
      cbn [ring threads th_side th_pc th_table with_table];
      try reflexivity; try lia; try assumption.
    + rewrite set_nth_set_nth. reflexivity.
    + apply (nth_error_set_nth_same _ _ _ _ Hi).
Qed.

Ltac step_thread Hi Hside :=
  unfold system_step at 1; cbn [threads ring];
  rewrite ?(nth_error_set_nth_same _ _ _ _ Hi), ?Hi;
  unfold thread_step;
  cbn [th_side th_pc th_table th_max th_behavior at_pc with_table];
  rewrite Hside; unfold producer_step, consumer_step;
  cbn [th_side th_pc th_table th_max th_behavior at_pc with_table].

Lemma step_at i s t r' t' :
  nth_error (threads s) i = Some t ->
  thread_step (ring s) t = Ok (r', t') ->
  system_step i s = Ok (mk_system r' (set_nth i t' (threads s))).
Proof.
  intros Hi Hstep. unfold system_step. rewrite Hi, Hstep. reflexivity.
Qed.

Lemma repeat_plus {A} (x : A) a b :
  repeat x (a + b) = repeat x a ++ repeat x b.
Proof. apply repeat_app. Qed.

(** A producer that has settled on its range and is not interrupted
    from the exchange on: the exchange succeeds if the head still has the
    value it loaded, and it publishes if the tail stands there too. *)
Lemma producer_from_exchange i s t n old_head new_head d :
  nth_error (threads s) i = Some t -> th_side t = Producer ->
  th_pc t = AtExchange n old_head new_head ->
  0 <= n ->
  prod_head (ring s) = old_head -> prod_tail (ring s) = old_head ->
  enqueue_copy (Z.to_nat n) (ring s) old_head 0 (th_table t) (data (ring s))
    = Ok d ->
  run_schedule (repeat i (Z.to_nat n + 4)) s
    = Ok (mk_system
            (set_prod_tail (set_data (set_prod_head (ring s) new_head) d)
               new_head)
            (set_nth i (at_pc t (Returned n)) (threads s))).
Proof.
  intros Hi Hside Hpc Hn Hhead Htail Hcopy.
  replace (Z.to_nat n + 4)%nat with (1 + (Z.to_nat n + 3))%nat by lia.
  rewrite repeat_plus, run_schedule_app. cbn [repeat run_schedule].
  (* the exchange *)
  rewrite (step_at i s t (set_prod_head (ring s) new_head)
             (at_pc t (AtCopy n old_head new_head 0)) Hi).
  2:{ unfold thread_step. rewrite Hside. unfold producer_step.
      rewrite Hpc, Hhead, atomic_compare_exchange_same. reflexivity. }
  cbn [bind].
  (* the copies *)
  rewrite repeat_plus, run_schedule_app.
  rewrite (producer_copy_steps (Z.to_nat n) i _
             (at_pc t (AtCopy n old_head new_head 0))
             n old_head new_head 0 d);
    cbn [ring threads th_side th_pc th_table at_pc data set_prod_head];
    try reflexivity; try lia; try assumption.
  2:{ apply (nth_error_set_nth_same _ _ _ _ Hi). }
  2:{ rewrite <- Hcopy. apply enqueue_copy_static; reflexivity. }
  cbn [bind]. rewrite set_nth_set_nth.
  replace (0 + Z.of_nat (Z.to_nat n)) with n by lia.
  (* the loop test fails, the wait is over at once, the store *)
  cbn [repeat run_schedule].
  step_thread Hi Hside.
  rewrite Z.ltb_irrefl. cbn [bind]. rewrite set_nth_set_nth.
  step_thread Hi Hside.
  cbn [prod_tail set_data set_prod_head].
  rewrite Htail, Z.eqb_refl. cbn [negb bind]. rewrite set_nth_set_nth.
  step_thread Hi Hside.
  cbn [bind]. rewrite set_nth_set_nth.
  reflexivity.
Qed.

Lemma consumer_from_exchange i s t n old_head new_head out :
  nth_error (threads s) i = Some t -> th_side t = Consumer ->
  th_pc t = AtExchange n old_head new_head ->
  0 <= n ->
  cons_head (ring s) = old_head -> cons_tail (ring s) = old_head ->
  dequeue_copy (Z.to_nat n) (ring s) old_head 0 (th_table t) = Ok out ->
  run_schedule (repeat i (Z.to_nat n + 4)) s
    = Ok (mk_system
            (set_cons_tail (set_cons_head (ring s) new_head) new_head)
            (set_nth i (with_table t out (Returned n)) (threads s))).
Proof.
  intros Hi Hside Hpc Hn Hhead Htail Hcopy.
  replace (Z.to_nat n + 4)%nat with (1 + (Z.to_nat n + 3))%nat by lia.
  rewrite repeat_plus, run_schedule_app. cbn [repeat run_schedule].
  rewrite (step_at i s t (set_cons_head (ring s) new_head)
             (at_pc t (AtCopy n old_head new_head 0)) Hi).
  2:{ unfold thread_step. rewrite Hside. unfold consumer_step.
      rewrite Hpc, Hhead, atomic_compare_exchange_same. reflexivity. }
  cbn [bind].
  rewrite repeat_plus, run_schedule_app.
  rewrite (consumer_copy_steps (Z.to_nat n) i _
             (at_pc t (AtCopy n old_head new_head 0))
             n old_head new_head 0 out);
    cbn [ring threads th_side th_pc th_table at_pc data set_cons_head];
    try reflexivity; try lia; try assumption.
  2:{ apply (nth_error_set_nth_same _ _ _ _ Hi). }
  2:{ rewrite <- Hcopy. apply dequeue_copy_static; reflexivity. }
  cbn [bind]. rewrite set_nth_set_nth.
  replace (0 + Z.of_nat (Z.to_nat n)) with n by lia.
  cbn [repeat run_schedule].
  step_thread Hi Hside.
  rewrite Z.ltb_irrefl. cbn [bind]. rewrite set_nth_set_nth.
  step_thread Hi Hside.
  cbn [cons_tail set_cons_head].
  rewrite Htail, Z.eqb_refl. cbn [negb bind]. rewrite set_nth_set_nth.
  step_thread Hi Hside.
  cbn [bind]. rewrite set_nth_set_nth.
  reflexivity.
Qed.

(** A producer that has loaded the head and settled on its range. *)
Lemma producer_to_exchange i s t :
  nth_error (threads s) i = Some t -> th_side t = Producer ->
  th_pc t = AtLoad -> size (ring s) <> 0 ->
  run_schedule (repeat i 2) s
    = Ok (mk_system (ring s)
            (set_nth i
               (at_pc t
                  (let g := granted (th_behavior t) (th_max t)
                              (free_entries_of (ring s)) in
                   if g =? 0 then Returned 0
                   else AtExchange g (prod_head (ring s))
                          (next_head (ring s) (prod_head (ring s)) g)))
               (threads s))).
Proof.
  intros Hi Hside Hpc Hs. apply Z.eqb_neq in Hs.
  cbn [repeat run_schedule].
  step_thread Hi Hside. rewrite Hpc. cbn [bind].
  step_thread Hi Hside. rewrite Hs. cbn zeta.
  fold (free_entries_of (ring s)).
  fold (next_head (ring s) (prod_head (ring s))
          (granted (th_behavior t) (th_max t) (free_entries_of (ring s)))).
  destruct (granted _ _ _ =? 0); cbn [bind]; rewrite set_nth_set_nth;
    reflexivity.
Qed.

Lemma consumer_to_exchange i s t :
  nth_error (threads s) i = Some t -> th_side t = Consumer ->
  th_pc t = AtLoad -> size (ring s) <> 0 ->
  run_schedule (repeat i 2) s
    = Ok (mk_system (ring s)
            (set_nth i
               (at_pc t
                  (let g := granted (th_behavior t) (th_max t)
                              (entries_of (ring s)) in
                   if g =? 0 then Returned 0
                   else AtExchange g (cons_head (ring s))
                          (next_head (ring s) (cons_head (ring s)) g)))
               (threads s))).
Proof.
  intros Hi Hside Hpc Hs. apply Z.eqb_neq in Hs.
  cbn [repeat run_schedule].
  step_thread Hi Hside. rewrite Hpc. cbn [bind].
  step_thread Hi Hside. rewrite Hs. cbn zeta.
  fold (entries_of (ring s)).
  fold (next_head (ring s) (cons_head (ring s))
          (granted (th_behavior t) (th_max t) (entries_of (ring s)))).
  destruct (granted _ _ _ =? 0); cbn [bind]; rewrite set_nth_set_nth;
    reflexivity.
Qed.

(** A call that no other thread interrupts, run statement by statement,
    ends where the sequential function ends. *)
Lemma producer_alone i s t r' g :
  nth_error (threads s) i = Some t -> th_side t = Producer ->
  th_pc t = AtLoad ->
  0 < size (ring s) -> prod_tail (ring s) = prod_head (ring s) ->
  0 <= th_max t ->
  __rte_ring_do_enqueue 1 (ring s) (th_table t) (th_max t) (th_behavior t)
    = Ok (r', g) ->
  run_schedule (repeat i (Z.to_nat (th_max t) + 6)) s
    = Ok (mk_system r' (set_nth i (at_pc t (Returned g)) (threads s))).
Proof.
  intros Hi Hside Hpc Hs Htail Hmax Hseq.
  pose proof (free_entries_bound (ring s) Hs) as Hf.
  pose proof (granted_bounds (th_behavior t) (th_max t)
                (free_entries_of (ring s)) Hmax (proj1 Hf)) as [Hg _].
  rewrite do_enqueue_unfold in Hseq by lia. cbn zeta in Hseq.
  replace (Z.to_nat (th_max t) + 6)%nat
    with (2 + (Z.to_nat (th_max t) + 4))%nat by lia.
  rewrite repeat_plus, run_schedule_app.
  rewrite (producer_to_exchange i s t Hi Hside Hpc) by lia.
  cbn [bind]. cbn zeta.
  set (g0 := granted (th_behavior t) (th_max t) (free_entries_of (ring s)))
    in *.
  destruct (Z.eqb_spec g0 0) as [E0|E0].
  - assert (Er : r' = ring s) by (inversion Hseq; reflexivity).
    assert (Eg : g = 0) by (inversion Hseq; reflexivity).
    subst r' g.
    apply (returned_steps _ i _ (at_pc t (Returned 0)) 0);
      [apply (nth_error_set_nth_same _ _ _ _ Hi) | reflexivity].
  - destruct (enqueue_copy (Z.to_nat g0) (ring s) (prod_head (ring s)) 0
                (th_table t) (data (ring s))) as [d| |] eqn:Ec;
      cbn [bind] in Hseq; try discriminate.
    assert (Eg : g = g0) by (inversion Hseq; reflexivity).
    assert (Er : r' = set_prod_tail
                        (set_data
                           (set_prod_head (ring s)
                              (next_head (ring s) (prod_head (ring s)) g0)) d)
                        (next_head (ring s) (prod_head (ring s)) g0))
      by (inversion Hseq; reflexivity).
    subst r' g.
    replace (Z.to_nat (th_max t) + 4)%nat
      with ((Z.to_nat g0 + 4) + (Z.to_nat (th_max t) - Z.to_nat g0))%nat
      by lia.
    rewrite repeat_plus, run_schedule_app.
    rewrite (producer_from_exchange i _
               (at_pc t (AtExchange g0 (prod_head (ring s))
                           (next_head (ring s) (prod_head (ring s)) g0)))
               g0 (prod_head (ring s))
               (next_head (ring s) (prod_head (ring s)) g0) d);
      cbn [ring threads th_side th_pc th_table at_pc];
      try reflexivity; try lia; try assumption.
    2:{ apply (nth_error_set_nth_same _ _ _ _ Hi). }
    cbn [bind]. rewrite set_nth_set_nth.
    apply (returned_steps _ i _ (at_pc t (Returned g0)) g0);
      [apply (nth_error_set_nth_same _ _ _ _ Hi) | reflexivity].
Qed.

Lemma consumer_alone i s t r' out g :
  nth_error (threads s) i = Some t -> th_side t = Consumer ->
  th_pc t = AtLoad ->
  0 < size (ring s) -> cons_tail (ring s) = cons_head (ring s) ->
  0 <= th_max t ->
  __rte_ring_do_dequeue 1 (ring s) (th_table t) (th_max t) (th_behavior t)
    = Ok (r', out, g) ->
  run_schedule (repeat i (Z.to_nat (th_max t) + 6)) s
    = Ok (mk_system r' (set_nth i (with_table t out (Returned g)) (threads s))).
Proof.
  intros Hi Hside Hpc Hs Htail Hmax Hseq.
  pose proof (entries_bound (ring s) Hs) as Hf.
  pose proof (granted_bounds (th_behavior t) (th_max t)
                (entries_of (ring s)) Hmax (proj1 Hf)) as [Hg _].
  rewrite do_dequeue_unfold in Hseq by lia. cbn zeta in Hseq.
  replace (Z.to_nat (th_max t) + 6)%nat
    with (2 + (Z.to_nat (th_max t) + 4))%nat by lia.
  rewrite repeat_plus, run_schedule_app.
  rewrite (consumer_to_exchange i s t Hi Hside Hpc) by lia.
  cbn [bind]. cbn zeta.
  set (g0 := granted (th_behavior t) (th_max t) (entries_of (ring s))) in *.
  destruct (Z.eqb_spec g0 0) as [E0|E0].
  - assert (Er : r' = ring s) by (inversion Hseq; reflexivity).
    assert (Eo : out = th_table t) by (inversion Hseq; reflexivity).
    assert (Eg : g = 0) by (inversion Hseq; reflexivity).
    subst r' g out.
    replace (with_table t (th_table t) (Returned 0))
      with (at_pc t (Returned 0)) by reflexivity.
    apply (returned_steps _ i _ (at_pc t (Returned 0)) 0);
      [apply (nth_error_set_nth_same _ _ _ _ Hi) | reflexivity].
  - destruct (dequeue_copy (Z.to_nat g0) (ring s) (cons_head (ring s)) 0
                (th_table t)) as [o| |] eqn:Ec;
      cbn [bind] in Hseq; try discriminate.
    assert (Eg : g = g0) by (inversion Hseq; reflexivity).
    assert (Eo : out = o) by (inversion Hseq; reflexivity).
    assert (Er : r' = set_cons_tail
                        (set_cons_head (ring s)
                           (next_head (ring s) (cons_head (ring s)) g0))
                        (next_head (ring s) (cons_head (ring s)) g0))
      by (inversion Hseq; reflexivity).
    subst r' g out.
    replace (Z.to_nat (th_max t) + 4)%nat
      with ((Z.to_nat g0 + 4) + (Z.to_nat (th_max t) - Z.to_nat g0))%nat
      by lia.
    rewrite repeat_plus, run_schedule_app.
    rewrite (consumer_from_exchange i _
               (at_pc t (AtExchange g0 (cons_head (ring s))
                           (next_head (ring s) (cons_head (ring s)) g0)))
               g0 (cons_head (ring s))
               (next_head (ring s) (cons_head (ring s)) g0) o);
      cbn [ring threads th_side th_pc th_table at_pc];
      try reflexivity; try lia; try assumption.
    2:{ apply (nth_error_set_nth_same _ _ _ _ Hi). }
    cbn [bind]. rewrite set_nth_set_nth.
    apply (returned_steps _ i _ (with_table t o (Returned g0)) g0);
      [apply (nth_error_set_nth_same _ _ _ _ Hi) | reflexivity].
Qed.

End ConcurrentFacts.

(** ** A stale exchange *)

(** X15: the exchange compares head values, and head values come back
    after [size] slots.  On every empty ring at rest of capacity at
    least 1 there is an interleaving of three enqueue calls and one
    dequeue call in which the enqueues return [capacity], [capacity] and
    1, the dequeue returns [capacity], and the ring ends empty:
    [capacity + 1] accepted elements are never handed out.  Thread 0
    loads the head and settles on [capacity] slots, then waits; threads
    1, 2 and 3 enqueue [capacity], dequeue [capacity] and enqueue 1, which
    brings the head back to the loaded value with one element in the
    ring; thread 0's exchange then succeeds on a free count that is no
    longer true. *)
Theorem X15_stale_exchange_loses_elements :
  forall r tA tB tC tD bA bB bC bD,
    ring_inv r -> prod_head r = cons_head r -> 1 <= capacity r ->
    capacity r * elemlen r <= zlength tA ->
    capacity r * elemlen r <= zlength tB ->
    capacity r * elemlen r <= zlength tC ->
    elemlen r <= zlength tD ->
    exists s,
      Concurrent.run_schedule
        (repeat 0%nat 2
         ++ repeat 1%nat (Z.to_nat (capacity r) + 6)
         ++ repeat 2%nat (Z.to_nat (capacity r) + 6)
         ++ repeat 3%nat (Z.to_nat 1 + 6)
         ++ repeat 0%nat (Z.to_nat (capacity r) + 4))
        (Concurrent.mk_system r
           [Concurrent.enqueuer tA (capacity r) bA;
            Concurrent.enqueuer tB (capacity r) bB;
            Concurrent.dequeuer tC (capacity r) bC;
            Concurrent.enqueuer tD 1 bD])
      = Ok s
      /\ Concurrent.returned_counts s
         = [Some (capacity r); Some (capacity r); Some (capacity r); Some 1]
      /\ prod_tail (Concurrent.ring s) = prod_head (Concurrent.ring s)
      /\ cons_tail (Concurrent.ring s) = cons_head (Concurrent.ring s)
      /\ prod_head (Concurrent.ring s) = cons_head (Concurrent.ring s)
      /\ entries_of (Concurrent.ring s) = 0.
Proof.
  intros r tA tB tC tD bA bB bC bD Hinv Hempty Hcap HtA HtB HtC HtD.
  pose proof (free_plus_entries r Hinv) as Hsum.
  assert (Hent : entries_of r = 0).
  { rewrite (entries_of_inv r Hinv).
    destruct Hinv as [? _ _ _ _ Hpt _ _].
    rewrite Hpt, Hempty, Z.sub_diag. cbn. apply Z.mod_same. lia. }
  assert (Hfree : free_entries_of r = capacity r) by lia.
  (* what the three uninterrupted calls do, one after the other *)
  destruct (do_enqueue_spec 0 r tB (capacity r) bB Hinv ltac:(lia) HtB)
    as [r1 [E1 [Hinv1 [Hs1 [He1 [Hd1 [Hc1 [Hp1 Hent1]]]]]]]].
  rewrite Hfree, granted_all in E1, Hp1, Hent1.
  pose proof (free_plus_entries r1 Hinv1) as Hsum1.
  assert (Hcap1 : capacity r1 = capacity r).
  { destruct Hinv as [_ Hc _ _ _ _ _ _].
    destruct Hinv1 as [_ Hc' _ _ _ _ _ _]. lia. }
  destruct (do_dequeue_spec 0 r1 tC (capacity r) bC Hinv1 ltac:(lia)
              ltac:(rewrite He1; exact HtC))
    as [r2 [out [E2 [Hinv2 [Hs2 [He2 [Hd2 [_ [Hp2 [Hc2 Hent2]]]]]]]]]].
  assert (Hent1' : entries_of r1 = capacity r) by lia.
  rewrite Hent1', granted_all in E2, Hc2, Hent2.
  pose proof (free_plus_entries r2 Hinv2) as Hsum2.
  assert (Hcap2 : capacity r2 = capacity r).
  { destruct Hinv1 as [_ Hc _ _ _ _ _ _].
    destruct Hinv2 as [_ Hc' _ _ _ _ _ _]. lia. }
  destruct (do_enqueue_spec 0 r2 tD 1 bD Hinv2 ltac:(lia)
              ltac:(rewrite He2, He1; lia))
    as [r3 [E3 [Hinv3 [Hs3 [He3 [Hd3 [Hc3 [Hp3 Hent3]]]]]]]].
  assert (Hg3 : granted bD 1 (free_entries_of r2) = 1).
  { unfold granted. destruct (Z.gtb_spec 1 (free_entries_of r2)); [lia|].
    reflexivity. }
  rewrite Hg3 in E3, Hp3, Hent3.
  (* the head is back where thread 0 saw it *)
  assert (Hback : prod_head r3 = prod_head r).
  { rewrite Hp3, Hp2, Hp1, Hs2, Hs1.
    destruct Hinv as [Hs Hc _ _ Hp _ _ _].
    rewrite Z.add_mod_idemp_l by lia. rewrite Hc in *.
    replace (prod_head r + (size r - 1) + 1)
      with (prod_head r + 1 * size r) by lia.
    rewrite Z.mod_add by lia. apply Z.mod_small. lia. }
  assert (Hsz : 0 < size r) by (destruct Hinv as [Hs _ _ _ _ _ _ _]; lia).
  assert (Hsz3 : size r3 = size r) by congruence.
  assert (Hel3 : elemlen r3 = elemlen r) by congruence.
  destruct (enqueue_copy_ok (Z.to_nat (capacity r)) r3 (prod_head r) 0 tA
              (data r3)) as [d [Ec _]].
  { lia. }
  { destruct Hinv3 as [_ _ He _ _ _ _ _]. exact He. }
  { destruct Hinv3 as [_ _ _ Hd _ _ _ _]. exact Hd. }
  { lia. }
  { rewrite Hel3. lia. }
  eexists.
  (* thread 0 up to its exchange *)
  rewrite ConcurrentFacts.run_schedule_app.
  rewrite (ConcurrentFacts.producer_to_exchange 0 _
             (Concurrent.enqueuer tA (capacity r) bA))
    by (try reflexivity; cbn; lia).
  cbn [bind Concurrent.ring Concurrent.threads Concurrent.set_nth
       Concurrent.enqueuer Concurrent.th_behavior Concurrent.th_max].
  cbn zeta. rewrite Hfree, granted_all.
  destruct (Z.eqb_spec (capacity r) 0) as [E0|_]; [lia|].
  (* thread 1 enqueues capacity elements *)
  rewrite ConcurrentFacts.run_schedule_app.
  rewrite (ConcurrentFacts.producer_alone 1 _
             (Concurrent.enqueuer tB (capacity r) bB) r1 (capacity r));
    try reflexivity; cbn [Concurrent.ring Concurrent.enqueuer
                          Concurrent.th_max Concurrent.th_table
                          Concurrent.th_behavior]; try lia;
    try (destruct Hinv as [_ _ _ _ _ Hpt _ _]; exact Hpt); try exact E1.
  cbn [bind Concurrent.ring Concurrent.threads Concurrent.set_nth].
  (* thread 2 dequeues them *)
  rewrite ConcurrentFacts.run_schedule_app.
  rewrite (ConcurrentFacts.consumer_alone 2 _
             (Concurrent.dequeuer tC (capacity r) bC) r2 out (capacity r));
    try reflexivity; cbn [Concurrent.ring Concurrent.dequeuer
                          Concurrent.th_max Concurrent.th_table
                          Concurrent.th_behavior]; try lia;
    try (destruct Hinv1 as [_ _ _ _ _ _ _ Hct]; exact Hct); try exact E2.
  cbn [bind Concurrent.ring Concurrent.threads Concurrent.set_nth].
  (* thread 3 enqueues one element *)
  rewrite ConcurrentFacts.run_schedule_app.
  rewrite (ConcurrentFacts.producer_alone 3 _
             (Concurrent.enqueuer tD 1 bD) r3 1);
    try reflexivity; cbn [Concurrent.ring Concurrent.enqueuer
                          Concurrent.th_max Concurrent.th_table
                          Concurrent.th_behavior]; try lia;
    try (destruct Hinv2 as [_ _ _ _ _ Hpt _ _]; exact Hpt); try exact E3.
  cbn [bind Concurrent.ring Concurrent.threads Concurrent.set_nth].
  (* thread 0 resumes: its exchange succeeds *)
  rewrite (ConcurrentFacts.producer_from_exchange 0 _
             (Concurrent.at_pc (Concurrent.enqueuer tA (capacity r) bA)
                (Concurrent.AtExchange (capacity r) (prod_head r)
                   (next_head r (prod_head r) (capacity r))))
             (capacity r) (prod_head r)
             (next_head r (prod_head r) (capacity r)) d);
    try reflexivity; cbn [Concurrent.ring Concurrent.enqueuer
                          Concurrent.th_table Concurrent.at_pc]; try lia;
    try exact Hback; try exact Ec.
  2:{ destruct Hinv3 as [_ _ _ _ _ Hpt _ _]. rewrite Hpt. exact Hback. }
  cbn [Concurrent.threads Concurrent.set_nth].
  split; [reflexivity|].
  split; [reflexivity|].
  cbn [Concurrent.ring prod_tail prod_head cons_tail cons_head
       set_prod_tail set_data set_prod_head].
  split; [reflexivity|].
  assert (Hch3 : cons_head r3 = (cons_head r + capacity r) mod size r).
  { rewrite Hc3, Hc2, Hc1, Hs1. reflexivity. }
  assert (Hnh : next_head r (prod_head r) (capacity r)
                = (prod_head r + capacity r) mod size r).
  { destruct Hinv as [Hs Hc _ _ Hp _ _ _].
    apply next_head_inv; lia. }
  split; [destruct Hinv3 as [_ _ _ _ _ _ _ Hct]; exact Hct|].
  split; [rewrite Hnh, Hch3, Hempty; reflexivity|].
  unfold entries_of.
  cbn [prod_tail cons_head size set_prod_tail set_data set_prod_head].
  rewrite Hnh, Hch3, Hempty, Hsz3, Z.sub_diag. cbn [Z.add].
  destruct Hinv as [Hs _ _ _ _ _ _ _].
  rewrite U32Facts.wrap_small
    by (rewrite U32Facts.modulus_eq; change (2 ^ 31) with 2147483648 in Hs;
        lia).
  apply Z.mod_same. lia.
Qed.

Lemma X15_stale_exchange_loses_elements_witness :
  exists s,
    Concurrent.run_schedule
      (repeat 0%nat 2 ++ repeat 1%nat (Z.to_nat 7 + 6)
       ++ repeat 2%nat (Z.to_nat 7 + 6) ++ repeat 3%nat (Z.to_nat 1 + 6)
       ++ repeat 0%nat (Z.to_nat 7 + 4))
      (Concurrent.mk_system (mk_ring 8 7 7 4 0 0 0 0 (repeat x00 32))
         [Concurrent.enqueuer (ints_bytes [101;102;103;104;105;106;107]) 7
            RTE_RING_QUEUE_FIXED;
          Concurrent.enqueuer (ints_bytes [1;2;3;4;5;6;7]) 7
            RTE_RING_QUEUE_FIXED;
          Concurrent.dequeuer (out_table 7) 7 RTE_RING_QUEUE_FIXED;
          Concurrent.enqueuer (ints_bytes [8]) 1 RTE_RING_QUEUE_FIXED])
    = Ok s
    /\ Concurrent.returned_counts s = [Some 7; Some 7; Some 7; Some 1]
    /\ prod_tail (Concurrent.ring s) = prod_head (Concurrent.ring s)
    /\ cons_tail (Concurrent.ring s) = cons_head (Concurrent.ring s)
    /\ prod_head (Concurrent.ring s) = cons_head (Concurrent.ring s)
    /\ entries_of (Concurrent.ring s) = 0.
Proof.
  apply (X15_stale_exchange_loses_elements
           (mk_ring 8 7 7 4 0 0 0 0 (repeat x00 32))
           (ints_bytes [101;102;103;104;105;106;107])
           (ints_bytes [1;2;3;4;5;6;7]) (out_table 7) (ints_bytes [8])
           RTE_RING_QUEUE_FIXED RTE_RING_QUEUE_FIXED
           RTE_RING_QUEUE_FIXED RTE_RING_QUEUE_FIXED).
  - constructor; cbn; lia.
  - reflexivity.
  - cbn. lia.
  - cbn. lia.
  - cbn. lia.
  - cbn. lia.
  - cbn. lia.
Defined.

(** ** Producers only: what every run keeps *)

Module ProducersFacts.
Import Concurrent Producers.

Section Run.

Variable r0 : rte_ring.
Hypothesis Hinv0 : ring_inv r0.
Hypothesis H32 : size r0 * elemlen r0 < U32.modulus.

Lemma geometry :
  0 < size r0 <= 2147483648
  /\ capacity r0 = size r0 - 1
  /\ 0 <= elemlen r0
  /\ 0 <= prod_head r0 < size r0
  /\ 0 <= cons_head r0 < size r0
  /\ cons_tail r0 = cons_head r0
  /\ prod_tail r0 = prod_head r0
  /\ 0 <= free_entries_of r0 /\ 0 <= entries_of r0
  /\ free_entries_of r0 + entries_of r0 = size r0 - 1
  /\ (cons_head r0 + entries_of r0) mod size r0 = prod_head r0
  /\ size r0 * elemlen r0 <= zlength (data r0).
Proof.
  pose proof (free_plus_entries r0 Hinv0) as Hsum.
  pose proof (producer_head_position r0 Hinv0) as Hpos.
  destruct Hinv0 as [Hs Hcap He Hd Hp Hpt Hc Hct].
  change (2 ^ 31) with 2147483648 in Hs.
  pose proof (free_entries_bound r0 ltac:(lia)) as Hf.
  pose proof (entries_bound r0 ltac:(lia)) as Hb.
  repeat split; try lia; auto.
Qed.

Lemma slot_of_range off : 0 <= slot_of r0 off < size r0.
Proof.
  destruct geometry as [Hs _]. unfold slot_of. apply Z.mod_pos_bound. lia.
Qed.

Lemma slot_of_distinct a b :
  0 < b - a < size r0 -> slot_of r0 a <> slot_of r0 b.
Proof.
  intros H. destruct geometry as [Hs _]. unfold slot_of.
  apply mod_distinct; lia.
Qed.

Lemma slot_of_distinct_any a b :
  a <> b -> 0 <= a < free_entries_of r0 -> 0 <= b < free_entries_of r0 ->
  slot_of r0 a <> slot_of r0 b.
Proof.
  intros Hne Ha Hb.
  destruct geometry as [Hs [_ [_ [_ [_ [_ [_ [Hf [He Hsum]]]]]]]]].
  destruct Hsum as [Hsum _].
  destruct (Z.lt_total a b) as [L|[L|L]]; [|lia|].
  - apply slot_of_distinct. lia.
  - intros E. symmetry in E. revert E. apply slot_of_distinct. lia.
Qed.

Lemma slot_of_inj a b :
  0 <= a <= free_entries_of r0 -> 0 <= b <= free_entries_of r0 ->
  slot_of r0 a = slot_of r0 b -> a = b.
Proof.
  intros Ha Hb E.
  destruct geometry as [Hs [_ [_ [_ [_ [_ [_ [Hf [He [Hsum _]]]]]]]]]].
  destruct (Z.lt_trichotomy a b) as [H|[H|H]]; [|exact H|].
  - exfalso. apply (slot_of_distinct a b); [lia | exact E].
  - exfalso. apply (slot_of_distinct b a); [lia | symmetry; exact E].
Qed.

(** The free count a producer computes from a head it loaded earlier. *)
Lemma free_at T :
  0 <= T <= free_entries_of r0 ->
  U32.wrap (capacity r0 + cons_tail r0 - slot_of r0 T) mod size r0
    = free_entries_of r0 - T.
Proof.
  intros HT.
  destruct geometry as [Hs [Hcap [_ [Hp [Hc [Hct [_ [Hf [He [Hsum _]]]]]]]]]].
  pose proof (slot_of_range T) as Hr.
  rewrite (free_entries_of_inv r0 Hinv0) in *.
  rewrite Hcap, Hct.
  rewrite U32Facts.wrap_small by (rewrite U32Facts.modulus_eq; lia).
  unfold slot_of in *.
  split_mod (size r0) (size r0 - 1 + cons_head r0 - prod_head r0);
    assert (Hm := Z.div_mod (prod_head r0 + T) (size r0) ltac:(lia));
    assert (Hq : (prod_head r0 + T) / size r0 = 0
                 \/ (prod_head r0 + T) / size r0 = 1) by nia;
    destruct Hq as [Hq|Hq]; rewrite Hq in Hm;
    match goal with |- (?x) mod _ = _ => split_mod (size r0) x end; lia.
Qed.

Lemma next_slot T n :
  0 <= T -> 0 <= n -> T + n <= free_entries_of r0 ->
  U32.wrap (slot_of r0 T + n) mod size r0 = slot_of r0 (T + n).
Proof.
  intros HT Hn Hb.
  destruct geometry as [Hs [_ [_ [_ [_ [_ [_ [Hf [He [Hsum _]]]]]]]]]].
  pose proof (slot_of_range T) as Hr.
  rewrite U32Facts.wrap_small by (rewrite U32Facts.modulus_eq; lia).
  unfold slot_of. rewrite Z.add_mod_idemp_l by lia.
  f_equal. lia.
Qed.

(** The offset the copy loop computes, for a ring of the same shape. *)
Lemma slot_offset_of r off i :
  size r = size r0 -> elemlen r = elemlen r0 ->
  0 <= off -> 0 <= i -> off + i <= free_entries_of r0 ->
  slot_offset r (slot_of r0 off) i = slot_of r0 (off + i) * elemlen r0.
Proof.
  intros Hsz Hel Hoff Hi Hb.
  destruct geometry as [Hs [_ [Hel0 [_ [_ [_ [_ [Hf [He [Hsum _]]]]]]]]]].
  pose proof (slot_of_range off) as Hr.
  rewrite slot_offset_exact;
    rewrite ?Hsz, ?Hel; try lia;
    try (rewrite U32Facts.modulus_eq; lia).
  unfold slot_of. rewrite Z.add_mod_idemp_l by lia.
  do 2 f_equal. lia.
Qed.

(** A slot of what the ring held at the start is no slot a producer
    reserves. *)
Lemma kept_slot_distinct i off :
  0 <= i < entries_of r0 -> 0 <= off < free_entries_of r0 ->
  (cons_head r0 + i) mod size r0 <> slot_of r0 off.
Proof.
  intros Hi Hoff.
  destruct geometry
    as [Hs [_ [_ [_ [_ [_ [_ [Hf [He [Hsum [Hpos _]]]]]]]]]]].
  unfold slot_of. rewrite <- Hpos, Z.add_mod_idemp_l by lia.
  apply mod_distinct; lia.
Qed.

(** *** The log *)

Lemma reserved_app log x : reserved (log ++ [x]) = reserved log + res_count x.
Proof.
  unfold reserved.
  induction log as [|y log IH]; cbn [app fold_right]; [lia | rewrite IH; lia].
Qed.

Lemma chained_bounds log : forall start x,
  chained start log -> In x log ->
  start <= res_off x /\ 0 < res_count x
  /\ res_off x + res_count x <= start + reserved log.
Proof.
  induction log as [|y log IH]; intros start x Hc Hin; [destruct Hin|].
  cbn in Hc. destruct Hc as [Ho [Hn Hc]]. cbn [reserved fold_right].
  fold (reserved log).
  assert (Hr : 0 <= reserved log).
  { clear - Hc. revert Hc. generalize (start + res_count y).
    induction log as [|z log IH]; intros st Hc; cbn; [lia|].
    destruct Hc as [_ [Hz Hc]]. fold (reserved log).
    specialize (IH _ Hc). lia. }
  destruct Hin as [<-|Hin].
  - lia.
  - destruct (IH _ x Hc Hin) as [H1 [H2 H3]]. lia.
Qed.

Lemma reserved_nonneg log start : chained start log -> 0 <= reserved log.
Proof.
  revert start. induction log as [|z log IH]; intros st Hc; cbn; [lia|].
  destruct Hc as [_ [Hz Hc]]. fold (reserved log).
  specialize (IH _ Hc). lia.
Qed.

Lemma chained_app log : forall start i n,
  chained start log -> 0 < n ->
  chained start (log ++ [mk_reservation i (start + reserved log) n]).
Proof.
  induction log as [|y log IH]; intros start i n Hc Hn; cbn.
  - repeat split; cbn; try lia.
  - cbn in Hc. destruct Hc as [Ho [Hy Hc]]. fold (reserved log).
    repeat split; try assumption.
    replace (start + (res_count y + reserved log))
      with (start + res_count y + reserved log) by lia.
    apply IH; assumption.
Qed.

(** Two reservations of a chain do not overlap. *)
Lemma chained_disjoint log : forall start x y,
  chained start log -> In x log -> In y log ->
  x = y \/ res_off x + res_count x <= res_off y
  \/ res_off y + res_count y <= res_off x.
Proof.
  induction log as [|z log IH]; intros start x y Hc Hx Hy; [destruct Hx|].
  cbn in Hc. destruct Hc as [Ho [Hz Hc]].
  destruct Hx as [<-|Hx]; destruct Hy as [<-|Hy].
  - left. reflexivity.
  - destruct (chained_bounds log _ y Hc Hy) as [H1 _]. right. left. lia.
  - destruct (chained_bounds log _ x Hc Hx) as [H1 _]. right. right. lia.
  - apply (IH _ x y Hc Hx Hy).
Qed.

Lemma once_same_thread log x y :
  NoDup (map res_thread log) -> In x log -> In y log ->
  res_thread x = res_thread y -> x = y.
Proof.
  induction log as [|z log IH]; intros Hnd Hx Hy E; [destruct Hx|].
  cbn in Hnd. inversion Hnd as [|? ? Hnot Hnd']; subst.
  destruct Hx as [<-|Hx]; destruct Hy as [<-|Hy].
  - reflexivity.
  - exfalso. apply Hnot. rewrite E. apply in_map. exact Hy.
  - exfalso. apply Hnot. rewrite <- E. apply in_map. exact Hx.
  - apply IH; assumption.
Qed.

Lemma thread_ok_more log x j t :
  0 <= res_count x -> thread_ok r0 log j t -> thread_ok r0 (log ++ [x]) j t.
Proof.
  intros Hx [Hside [Hmax [Htbl Hpc]]]. unfold thread_ok.
  repeat split; try assumption.
  destruct (th_pc t); try exact Hpc.
  - destruct Hpc as [T [HT E]]. exists T. rewrite reserved_app.
    split; [lia | exact E].
  - destruct Hpc as [Hn [T [HT E]]]. split; [exact Hn|]. exists T.
    rewrite reserved_app. split; [lia | exact E].
  - destruct Hpc as [Hn [y [Hy E]]]. split; [exact Hn|]. exists y.
    split; [apply in_or_app; left; exact Hy | exact E].
  - destruct Hpc as [Hn [y [Hy E]]]. split; [exact Hn|]. exists y.
    split; [apply in_or_app; left; exact Hy | exact E].
  - destruct Hpc as [Hn [y [Hy E]]]. split; [exact Hn|]. exists y.
    split; [apply in_or_app; left; exact Hy | exact E].
  - destruct Hpc as [Hc|[y [Hy E]]]; [left; exact Hc|]. right. exists y.
    split; [apply in_or_app; left; exact Hy | exact E].
Qed.

(** *** Frames *)

Lemma memcpy_bounds dst doff src soff len d :
  memcpy dst doff src soff len = Ok d ->
  0 <= doff /\ 0 <= soff /\ 0 <= len
  /\ doff + len <= zlength dst /\ soff + len <= zlength src.
Proof.
  unfold memcpy.
  destruct ((0 <=? doff) && (0 <=? soff) && (0 <=? len)
            && (doff + len <=? zlength dst) && (soff + len <=? zlength src))
    eqn:E; [|discriminate].
  rewrite !andb_true_iff, !Z.leb_le in E. intros _. tauto.
Qed.

Lemma read_after_memcpy dst doff src soff len d :
  memcpy dst doff src soff len = Ok d ->
  read_bytes d doff len = read_bytes src soff len
  /\ forall off m, 0 <= off -> 0 <= m ->
       off + m <= doff \/ doff + len <= off ->
       read_bytes d off m = read_bytes dst off m.
Proof.
  intros E. destruct (memcpy_bounds _ _ _ _ _ _ E) as [H1 [H2 [H3 [H4 H5]]]].
  split.
  - apply (read_memcpy_same dst doff src soff len d); assumption.
  - intros off m Ho Hm Hd.
    apply (read_memcpy_other dst doff src soff len d); assumption.
Qed.

(** A copy into one slot leaves the elements of the other slots. *)
Lemma filled_frame r d tbl off count w src soff :
  memcpy (data r) (slot_of r0 w * elemlen r0) src soff (elemlen r0) = Ok d ->
  (forall i, 0 <= i < count -> slot_of r0 (off + i) <> slot_of r0 w) ->
  filled r0 r tbl off count -> filled r0 (set_data r d) tbl off count.
Proof.
  intros E Hne Hf i Hi. cbn [data set_data].
  destruct (read_after_memcpy _ _ _ _ _ _ E) as [_ Hother].
  destruct geometry as [Hs [_ [Hel _]]].
  pose proof (slot_of_range (off + i)) as R1.
  pose proof (slot_of_range w) as R2.
  specialize (Hne i Hi).
  rewrite Hother; [apply Hf; exact Hi | nia | lia | nia].
Qed.

Lemma filled_less r tbl off count count' :
  count' <= count -> filled r0 r tbl off count -> filled r0 r tbl off count'.
Proof. intros H Hf i Hi. apply Hf. lia. Qed.

(** Only the storage and the tail distance matter to [entry_ok]. *)
Lemma entry_ok_frame r r' published published' t x :
  entry_ok r0 r published t x ->
  (forall count, count <= res_count x ->
     filled r0 r (th_table t) (res_off x) count ->
     filled r0 r' (th_table t) (res_off x) count) ->
  (published <= res_off x -> published' <= res_off x) ->
  (res_off x + res_count x <= published ->
   res_off x + res_count x <= published') ->
  (published = res_off x -> th_pc t = AtStore (res_count x)
                              (slot_of r0 (res_off x))
                              (slot_of r0 (res_off x + res_count x)) ->
   published' = res_off x) ->
  entry_ok r0 r' published' t x.
Proof.
  unfold entry_ok. intros H Hf Hun Hpub Hst.
  destruct (th_pc t) as [| | | n o nw i | n o nw | n o nw | c];
    try contradiction.
  - destruct H as [Hn [Ho [Hnw [Hi [Hp Hfl]]]]].
    repeat split; try assumption; try lia; auto.
    apply Hf; [lia | exact Hfl].
  - destruct H as [Hn [Ho [Hnw [Hp Hfl]]]].
    repeat split; try assumption; auto.
    apply Hf; [lia | exact Hfl].
  - destruct H as [Hn [Ho [Hnw [Hp Hfl]]]].
    repeat split; try assumption.
    + apply Hst; [exact Hp|]. subst. reflexivity.
    + apply Hf; [lia | exact Hfl].
  - destruct H as [Hc [Hp Hfl]].
    repeat split; try assumption.
    + subst c. apply Hpub. exact Hp.
    + apply Hf; [lia | exact Hfl].
Qed.

(** *** One statement of one thread *)

Lemma own_entry s log published j t x :
  inv r0 s log published -> nth_error (threads s) j = Some t ->
  In x log -> res_thread x = j ->
  entry_ok r0 (ring s) published t x.
Proof.
  intros Hinv Ej Hx Hj.
  destruct (inv_entries _ _ _ _ Hinv x Hx) as [t0 [E0 Hok]].
  rewrite Hj, Ej in E0. inversion E0; subst t0. exact Hok.
Qed.

(** A statement that touches nothing shared. *)
Lemma inv_thread_only s log published j t t' :
  inv r0 s log published -> nth_error (threads s) j = Some t ->
  thread_ok r0 log j t' ->
  (forall x, In x log -> res_thread x = j ->
     entry_ok r0 (ring s) published t x ->
     entry_ok r0 (ring s) published t' x) ->
  inv r0 (mk_system (ring s) (set_nth j t' (threads s))) log published.
Proof.
  intros Hinv Ej Hok Hent.
  destruct Hinv as [Hst Hch Hroom Honce Hhead Hpub Htail Hth Hen Hkept].
  constructor; cbn [ring threads]; try assumption.
  - intros j' u Hu. rewrite ConcurrentFacts.nth_error_set_nth in Hu.
    destruct (Nat.eqb_spec j j') as [<-|Hne].
    + rewrite Ej in Hu. inversion Hu; subst u. exact Hok.
    + apply Hth. exact Hu.
  - intros x Hx. destruct (Hen x Hx) as [tx [Ex Hokx]].
    rewrite ConcurrentFacts.nth_error_set_nth.
    destruct (Nat.eqb_spec j (res_thread x)) as [E|Hne].
    + rewrite <- E in Ex. rewrite Ej in Ex. inversion Ex; subst tx.
      rewrite <- E, Ej. exists t'. split; [reflexivity|].
      apply Hent; auto.
    + exists tx. split; assumption.
Qed.

Lemma set_prod_head_same r : set_prod_head r (prod_head r) = r.
Proof. destruct r. reflexivity. Qed.

Lemma system_same s j t :
  nth_error (threads s) j = Some t ->
  mk_system (ring s) (set_nth j t (threads s)) = s.
Proof.
  intros H. rewrite (ConcurrentFacts.set_nth_same _ _ _ H).
  destruct s. reflexivity.
Qed.

Ltac open_step Hinv Ej Epc :=
  let Hok := fresh "Hok" in
  pose proof (inv_threads _ _ _ _ Hinv _ _ Ej) as Hok;
  destruct Hok as [Hside [Hmax [Htbl Hpcok]]];
  rewrite Epc in Hpcok;
  unfold system_step, log_step; rewrite Ej;
  unfold thread_step; rewrite Hside;
  unfold producer_step; rewrite Epc.

Ltac no_entry Hinv Ej Epc :=
  let x := fresh "x" in
  let Hx := fresh "Hx" in
  let Hj := fresh "Hj" in
  let Hold := fresh "Hold" in
  intros x Hx Hj Hold; exfalso;
  unfold entry_ok in Hold; rewrite Epc in Hold; exact Hold.

Lemma step_load s log published j t :
  inv r0 s log published -> nth_error (threads s) j = Some t ->
  th_pc t = AtLoad ->
  exists s' published',
    system_step j s = Ok s' /\ inv r0 s' (log_step j s log) published'.
Proof.
  intros Hinv Ej Epc. open_step Hinv Ej Epc. cbn [bind].
  eexists. exists published. split; [reflexivity|].
  apply (inv_thread_only s log published j t); try assumption.
  - unfold thread_ok. cbn [at_pc th_side th_max th_table th_pc].
    repeat split; try assumption.
    exists (reserved log). split.
    + pose proof (reserved_nonneg log 0 (inv_chain _ _ _ _ Hinv)). lia.
    + apply (inv_head _ _ _ _ Hinv).
  - no_entry Hinv Ej Epc.
Qed.

Lemma step_compute s log published j t old_head :
  inv r0 s log published -> nth_error (threads s) j = Some t ->
  th_pc t = AtCompute old_head ->
  exists s' published',
    system_step j s = Ok s' /\ inv r0 s' (log_step j s log) published'.
Proof.
  intros Hinv Ej Epc. open_step Hinv Ej Epc.
  destruct Hpcok as [T [HT Hold]].
  destruct (inv_static _ _ _ _ Hinv) as [Hsz [Hcap [Hel [Hch Hct]]]].
  destruct geometry as [Hs [_ [_ [_ [_ [_ [_ [Hf _]]]]]]]].
  pose proof (inv_room _ _ _ _ Hinv) as Hroom.
  rewrite Hsz, Hcap, (proj1 Hct).
  destruct (Z.eqb_spec (size r0) 0) as [E|_]; [lia|].
  rewrite Hold, free_at by lia. cbn zeta.
  pose proof (granted_bounds (th_behavior t) (th_max t)
                (free_entries_of r0 - T) Hmax ltac:(lia)) as [Hg1 Hg2].
  destruct (Z.eqb_spec (granted (th_behavior t) (th_max t)
                          (free_entries_of r0 - T)) 0) as [E0|E0];
    cbn [bind]; eexists; exists published; (split; [reflexivity|]);
    apply (inv_thread_only s log published j t); try assumption;
    try (no_entry Hinv Ej Epc).
  - unfold thread_ok. cbn [at_pc th_side th_max th_table th_pc].
    repeat split; try assumption. left. reflexivity.
  - unfold thread_ok. cbn [at_pc th_side th_max th_table th_pc].
    repeat split; try assumption; try lia.
    exists T. repeat split; try lia.
    apply next_slot; lia.
Qed.

Lemma step_returned s log published j t c :
  inv r0 s log published -> nth_error (threads s) j = Some t ->
  th_pc t = Returned c ->
  exists s' published',
    system_step j s = Ok s' /\ inv r0 s' (log_step j s log) published'.
Proof.
  intros Hinv Ej Epc. open_step Hinv Ej Epc. cbn [bind].
  exists s, published. rewrite (system_same s j t Ej).
  split; [reflexivity | exact Hinv].
Qed.

Lemma step_wait s log published j t n old_head new_head :
  inv r0 s log published -> nth_error (threads s) j = Some t ->
  th_pc t = AtWait n old_head new_head ->
  exists s' published',
    system_step j s = Ok s' /\ inv r0 s' (log_step j s log) published'.
Proof.
  intros Hinv Ej Epc. open_step Hinv Ej Epc.
  destruct Hpcok as [Hn [x [Hx [Hxj Hxn]]]].
  pose proof (own_entry s log published j t x Hinv Ej Hx Hxj) as Hown.
  unfold entry_ok in Hown. rewrite Epc in Hown.
  destruct Hown as [Hcnt [Hold [Hnew [Hp Hfl]]]].
  destruct (Z.eqb_spec (prod_tail (ring s)) old_head) as [E|E]; cbn [negb bind].
  - (* the tail stands at the start of the range *)
    assert (Hoff : published = res_off x).
    { pose proof (inv_room _ _ _ _ Hinv) as Hroom.
      pose proof (inv_published _ _ _ _ Hinv) as Hpub.
      destruct (chained_bounds log 0 x (inv_chain _ _ _ _ Hinv) Hx)
        as [B1 [B2 B3]].
      apply slot_of_inj; try lia.
      rewrite <- (inv_tail _ _ _ _ Hinv), E. exact Hold. }
    eexists. exists published. split; [reflexivity|].
    apply (inv_thread_only s log published j t); try assumption.
    + unfold thread_ok. cbn [at_pc th_side th_max th_table th_pc].
      repeat split; try assumption. exists x. auto.
    + intros y Hy Hyj _.
      assert (y = x).
      { apply (once_same_thread log); try assumption.
        - apply (inv_once _ _ _ _ Hinv).
        - congruence. }
      subst y. unfold entry_ok. cbn [at_pc th_pc th_table].
      repeat split; assumption.
  - exists s, published. rewrite (system_same s j t Ej).
    split; [reflexivity | exact Hinv].
Qed.

Lemma filled_same_data r r' tbl off count :
  data r' = data r -> filled r0 r tbl off count -> filled r0 r' tbl off count.
Proof.
  intros E Hf i Hi. rewrite E. apply Hf. exact Hi.
Qed.

Lemma step_exchange s log published j t n old_head new_head :
  inv r0 s log published -> nth_error (threads s) j = Some t ->
  th_pc t = AtExchange n old_head new_head ->
  exists s' published',
    system_step j s = Ok s' /\ inv r0 s' (log_step j s log) published'.
Proof.
  intros Hinv Ej Epc. open_step Hinv Ej Epc.
  destruct Hpcok as [Hn [T [HT [Hold [Hfree Hnew]]]]].
  pose proof (inv_room _ _ _ _ Hinv) as Hroom.
  unfold atomic_compare_exchange.
  destruct (Z.eqb_spec (prod_head (ring s)) old_head) as [E|E]; cbn [bind].
  - (* the exchange succeeds *)
    assert (ET : T = reserved log).
    { apply slot_of_inj; try lia.
      rewrite <- Hold, <- E. apply (inv_head _ _ _ _ Hinv). }
    subst T.
    assert (Hfresh : forall x, In x log -> res_thread x <> j).
    { intros x Hx Hj.
      pose proof (own_entry s log published j t x Hinv Ej Hx Hj) as Hown.
      unfold entry_ok in Hown. rewrite Epc in Hown. exact Hown. }
    eexists. exists published. split; [reflexivity|].
    destruct Hinv as [Hst Hch _ Honce Hhead Hpub Htail Hth Hen Hkept].
    constructor; cbn [ring threads set_prod_head size capacity elemlen
                      cons_head cons_tail data prod_head prod_tail];
      try assumption.
    + apply (chained_app log 0 j n Hch). lia.
    + rewrite reserved_app. cbn [res_count]. lia.
    + rewrite map_app. cbn [map res_thread]. apply NoDup_app.
      * exact Honce.
      * constructor; [intros []|constructor].
      * intros a Ha [<-|[]]. apply in_map_iff in Ha.
        destruct Ha as [x [Ex Hx]]. exact (Hfresh x Hx Ex).
    + rewrite reserved_app. cbn [res_count]. exact Hnew.
    + rewrite reserved_app. cbn [res_count]. lia.
    + intros j' u Hu. rewrite ConcurrentFacts.nth_error_set_nth in Hu.
      destruct (Nat.eqb_spec j j') as [<-|Hne].
      * rewrite Ej in Hu. inversion Hu; subst u.
        unfold thread_ok. cbn [at_pc th_side th_max th_table th_pc].
        repeat split; try assumption.
        exists (mk_reservation j (reserved log) n).
        split; [apply in_or_app; right; left; reflexivity|].
        split; reflexivity.
      * apply thread_ok_more; [cbn [res_count]; lia|]. apply Hth. exact Hu.
    + intros x Hx. apply in_app_or in Hx. destruct Hx as [Hx|[<-|[]]].
      * destruct (Hen x Hx) as [tx [Ex Hokx]].
        exists tx. split.
        -- rewrite ConcurrentFacts.nth_error_set_nth.
           destruct (Nat.eqb_spec j (res_thread x)) as [Ejx|_];
             [exfalso; exact (Hfresh x Hx (eq_sym Ejx)) | exact Ex].
        -- apply (entry_ok_frame (ring s) _ published published tx x Hokx);
             intros; assumption.
      * cbn [res_thread]. exists (at_pc t (AtCopy n old_head new_head 0)).
        split; [apply (ConcurrentFacts.nth_error_set_nth_same _ _ _ t Ej)|].
        unfold entry_ok. cbn [at_pc th_pc th_table res_count res_off].
        repeat split; try lia; try assumption.
        intros i Hi. lia.
  - (* another producer moved the head: start over *)
    rewrite set_prod_head_same.
    eexists. exists published. split; [reflexivity|].
    apply (inv_thread_only s log published j t); try assumption.
    + unfold thread_ok. cbn [at_pc th_side th_max th_table th_pc].
      repeat split; assumption.
    + no_entry Hinv Ej Epc.
Qed.

Lemma step_store s log published j t n old_head new_head :
  inv r0 s log published -> nth_error (threads s) j = Some t ->
  th_pc t = AtStore n old_head new_head ->
  exists s' published',
    system_step j s = Ok s' /\ inv r0 s' (log_step j s log) published'.
Proof.
  intros Hinv Ej Epc. open_step Hinv Ej Epc. cbn [bind].
  destruct Hpcok as [Hn [x [Hx [Hxj Hxn]]]].
  pose proof (own_entry s log published j t x Hinv Ej Hx Hxj) as Hown.
  unfold entry_ok in Hown. rewrite Epc in Hown.
  destruct Hown as [Hcnt [Hold [Hnew [Hp Hfl]]]].
  destruct (chained_bounds log 0 x (inv_chain _ _ _ _ Hinv) Hx)
    as [B1 [B2 B3]].
  eexists. exists (res_off x + n). split; [reflexivity|].
  destruct Hinv as [Hst Hch Hroom Honce Hhead Hpub Htail Hth Hen Hkept].
  constructor; cbn [ring threads set_prod_tail size capacity elemlen
                    cons_head cons_tail data prod_head prod_tail];
    try assumption.
  - lia.
  - intros j' u Hu. rewrite ConcurrentFacts.nth_error_set_nth in Hu.
    destruct (Nat.eqb_spec j j') as [<-|Hne].
    + rewrite Ej in Hu. inversion Hu; subst u.
      unfold thread_ok. cbn [at_pc th_side th_max th_table th_pc].
      repeat split; try assumption.
      right. exists x. auto.
    + apply Hth. exact Hu.
  - intros y Hy. destruct (Hen y Hy) as [ty [Ey Hoky]].
    rewrite ConcurrentFacts.nth_error_set_nth.
    destruct (Nat.eqb_spec j (res_thread y)) as [Ejy|Hne].
    + assert (y = x) by (apply (once_same_thread log); auto; congruence).
      subst y. rewrite <- Ejy, Ej.
      exists (at_pc t (Returned n)). split; [reflexivity|].
      unfold entry_ok. cbn [at_pc th_pc th_table].
      repeat split; try lia. exact Hfl.
    + exists ty. split; [exact Ey|].
      assert (Hxy : y <> x) by (intros ->; congruence).
      destruct (chained_bounds log 0 y Hch Hy) as [C1 [C2 C3]].
      destruct (chained_disjoint log 0 x y Hch Hx Hy) as [D|D];
        [congruence|].
      apply (entry_ok_frame (ring s) _ published (res_off x + n) ty y Hoky);
        intros; try assumption; lia.
Qed.

Lemma step_copy s log published j t n old_head new_head i :
  inv r0 s log published -> nth_error (threads s) j = Some t ->
  th_pc t = AtCopy n old_head new_head i ->
  exists s' published',
    system_step j s = Ok s' /\ inv r0 s' (log_step j s log) published'.
Proof.
  intros Hinv Ej Epc. open_step Hinv Ej Epc.
  destruct Hpcok as [Hn [x [Hx [Hxj Hxn]]]].
  pose proof (own_entry s log published j t x Hinv Ej Hx Hxj) as Hown.
  unfold entry_ok in Hown. rewrite Epc in Hown.
  destruct Hown as [Hcnt [Hold [Hnew [Hi [Hp Hfl]]]]].
  subst old_head.
  destruct (chained_bounds log 0 x (inv_chain _ _ _ _ Hinv) Hx)
    as [B1 [B2 B3]].
  pose proof (inv_room _ _ _ _ Hinv) as Hroom.
  destruct (inv_static _ _ _ _ Hinv) as [Hsz [Hcap [Hel [Hch' [Hct Hlen]]]]].
  destruct geometry as [Hs [Hc0 [He0 [_ [_ [_ [_ [Hf [He Hsum]]]]]]]]].
  destruct Hsum as [Hsum [_ Hdata]].
  destruct (Z.ltb_spec i n) as [Hlt|Hge].
  - (* one more element goes into its slot *)
    rewrite (slot_offset_of (ring s) (res_off x) i) by lia.
    rewrite table_offset_exact by (rewrite ?Hel; nia).
    rewrite Hel.
    pose proof (slot_of_range (res_off x + i)) as Rs.
    destruct (memcpy_ok (data (ring s))
                (slot_of r0 (res_off x + i) * elemlen r0)
                (th_table t) (i * elemlen r0) (elemlen r0))
      as [d [Ed Hd]]; try nia.
    rewrite Ed. cbn [bind].
    eexists. exists published. split; [reflexivity|].
    destruct (read_after_memcpy _ _ _ _ _ _ Ed) as [Hwritten Hother].
    destruct Hinv as [Hst Hch _ Honce Hhead Hpub Htail Hth Hen Hkept].
    constructor; cbn [ring threads set_data size capacity elemlen
                      cons_head cons_tail data prod_head prod_tail];
      try assumption.
    + repeat split; try assumption. lia.
    + intros j' u Hu. rewrite ConcurrentFacts.nth_error_set_nth in Hu.
      destruct (Nat.eqb_spec j j') as [<-|Hne].
      * rewrite Ej in Hu. inversion Hu; subst u.
        unfold thread_ok. cbn [at_pc th_side th_max th_table th_pc].
        repeat split; try assumption. exists x. auto.
      * apply Hth. exact Hu.
    + intros y Hy. destruct (Hen y Hy) as [ty [Ey Hoky]].
      rewrite ConcurrentFacts.nth_error_set_nth.
      destruct (Nat.eqb_spec j (res_thread y)) as [Ejy|Hne].
      * assert (y = x) by (apply (once_same_thread log); auto; congruence).
        subst y. rewrite <- Ejy, Ej.
        exists (at_pc t (AtCopy n (slot_of r0 (res_off x)) new_head (i + 1))).
        split; [reflexivity|].
        unfold entry_ok. cbn [at_pc th_pc th_table].
        repeat split; try lia; try assumption; try reflexivity.
        intros k Hk. cbn [data set_data].
        destruct (Z.eq_dec k i) as [->|Hki].
        -- exact Hwritten.
        -- pose proof (slot_of_range (res_off x + k)) as Rk.
           assert (Hne : slot_of r0 (res_off x + k)
                         <> slot_of r0 (res_off x + i))
             by (apply slot_of_distinct_any; lia).
           rewrite Hother; [apply Hfl; lia | nia | lia | nia].
      * exists ty. split; [exact Ey|].
        assert (Hxy : y <> x) by (intros ->; congruence).
        destruct (chained_bounds log 0 y Hch Hy) as [C1 [C2 C3]].
        destruct (chained_disjoint log 0 x y Hch Hx Hy) as [D|D];
          [congruence|].
        apply (entry_ok_frame (ring s) _ published published ty y Hoky);
          try (intros; assumption).
        intros count Hcount Hfy.
        apply (filled_frame (ring s) d (th_table ty) (res_off y) count
                 (res_off x + i) (th_table t) (i * elemlen r0) Ed);
          [|exact Hfy].
        intros k Hk. apply slot_of_distinct_any; lia.
    + intros k Hk.
      pose proof (kept_slot_distinct k (res_off x + i) Hk ltac:(lia)) as Hne.
      pose proof (Z.mod_pos_bound (cons_head r0 + k) (size r0) ltac:(lia))
        as Rk.
      rewrite Hother; [apply Hkept; exact Hk | nia | lia | nia].
  - (* the loop is over *)
    cbn [bind]. eexists. exists published. split; [reflexivity|].
    apply (inv_thread_only s log published j t); try assumption.
    + unfold thread_ok. cbn [at_pc th_side th_max th_table th_pc].
      repeat split; try assumption. exists x. auto.
    + intros y Hy Hyj _.
      assert (y = x) by (apply (once_same_thread log); auto;
                         try apply (inv_once _ _ _ _ Hinv); congruence).
      subst y. unfold entry_ok. cbn [at_pc th_pc th_table].
      assert (i = n) by lia. subst i.
      repeat split; try assumption; reflexivity.
Qed.

(** Every statement of every producer keeps the invariant, and none is
    undefined. *)
Lemma step_inv s log published j :
  inv r0 s log published ->
  exists s' published',
    system_step j s = Ok s' /\ inv r0 s' (log_step j s log) published'.
Proof.
  intros Hinv. destruct (nth_error (threads s) j) as [t|] eqn:Ej.
  - destruct (th_pc t) eqn:Epc.
    + exact (step_load s log published j t Hinv Ej Epc).
    + exact (step_compute s log published j t _ Hinv Ej Epc).
    + exact (step_exchange s log published j t _ _ _ Hinv Ej Epc).
    + exact (step_copy s log published j t _ _ _ _ Hinv Ej Epc).
    + exact (step_wait s log published j t _ _ _ Hinv Ej Epc).
    + exact (step_store s log published j t _ _ _ Hinv Ej Epc).
    + exact (step_returned s log published j t _ Hinv Ej Epc).
  - exists s, published. unfold system_step, log_step. rewrite Ej.
    split; [reflexivity | exact Hinv].
Qed.

Lemma map_set_nth_table j t t' : forall l,
  nth_error l j = Some t -> th_table t' = th_table t ->
  map th_table (set_nth j t' l) = map th_table l.
Proof.
  induction j as [|j IH]; intros [|y l] H E; cbn in *; try discriminate.
  - inversion H; subst y. rewrite E. reflexivity.
  - rewrite (IH l H E). reflexivity.
Qed.

(** A producer never writes to its own table. *)
Lemma producer_step_table r t r' t' :
  producer_step r t = Ok (r', t') -> th_table t' = th_table t.
Proof.
  unfold producer_step. destruct (th_pc t).
  - intros H. inversion H. reflexivity.
  - destruct (size r =? 0); [discriminate|]. cbn zeta.
    destruct (granted _ _ _ =? 0); intros H; inversion H; reflexivity.
  - unfold atomic_compare_exchange.
    destruct (prod_head r =? old_head); intros H; inversion H; reflexivity.
  - destruct (i <? n).
    + destruct (memcpy _ _ _ _ _); cbn [bind]; try discriminate.
      intros H; inversion H; reflexivity.
    + intros H; inversion H; reflexivity.
  - destruct (negb _); intros H; inversion H; reflexivity.
  - intros H; inversion H; reflexivity.
  - intros H; inversion H; reflexivity.
Qed.

Lemma step_tables s log published j s' :
  inv r0 s log published -> system_step j s = Ok s' ->
  map th_table (threads s') = map th_table (threads s).
Proof.
  intros Hinv. unfold system_step.
  destruct (nth_error (threads s) j) as [t|] eqn:Ej.
  - destruct (inv_threads _ _ _ _ Hinv _ _ Ej) as [Hside _].
    unfold thread_step. rewrite Hside.
    destruct (producer_step (ring s) t) as [[r' t']| |] eqn:E;
      cbn [bind]; try discriminate.
    intros H; inversion H; subst s'. cbn [threads].
    apply (map_set_nth_table j t); [exact Ej|].
    apply (producer_step_table _ _ _ _ E).
  - intros H; inversion H; reflexivity.
Qed.

Lemma producers_run_inv schedule : forall s log published,
  inv r0 s log published ->
  exists s' published',
    run_schedule schedule s = Ok s'
    /\ inv r0 s' (exchange_log schedule s log) published'
    /\ map th_table (threads s') = map th_table (threads s).
Proof.
  induction schedule as [|j schedule IH]; intros s log published Hinv.
  - exists s, published. cbn. auto.
  - destruct (step_inv s log published j Hinv) as [s1 [p1 [E1 H1]]].
    destruct (IH s1 _ p1 H1) as [s' [p' [E' [H' T']]]].
    exists s', p'. cbn [run_schedule exchange_log]. rewrite E1. cbn [bind].
    split; [exact E'|]. split; [exact H'|].
    rewrite T'. apply (step_tables s log published j s1 Hinv E1).
Qed.

Lemma producers_initial_inv ts :
  Forall (ready r0) ts -> inv r0 (mk_system r0 ts) [] 0.
Proof.
  intros Hts.
  destruct geometry as [Hs [_ [_ [Hph [_ [_ [Hpt [Hf _]]]]]]]].
  constructor; cbn [ring threads reserved fold_right map chained];
    auto; try lia.
  - constructor.
  - unfold slot_of. rewrite Z.add_0_r, Z.mod_small by lia. reflexivity.
  - unfold slot_of. rewrite Z.add_0_r, Z.mod_small by lia. exact Hpt.
  - intros j t Ej. apply nth_error_In in Ej.
    rewrite Forall_forall in Hts.
    destruct (Hts t Ej) as [H1 [H2 [H3 H4]]].
    unfold thread_ok. rewrite H4. auto.
  - intros x [].
Qed.

(** The newest range ends where the reserved slots end. *)
Lemma chained_last log : forall start,
  chained start log -> log <> [] ->
  exists x, In x log /\ res_off x + res_count x = start + reserved log.
Proof.
  induction log as [|y log IH]; intros start Hch Hne; [congruence|].
  destruct Hch as [Hoff [Hcnt Hrest]].
  destruct log as [|z log].
  - exists y. split; [left; reflexivity|]. cbn. lia.
  - destruct (IH _ Hrest ltac:(discriminate)) as [x [Hx Hend]].
    exists x. split; [right; exact Hx|].
    rewrite Hend. change (reserved (y :: z :: log))
      with (res_count y + reserved (z :: log)). lia.
Qed.

(** Read range by range, the reserved slots hold what [g] says each
    reservation brought. *)
Lemma log_contents (d : list byte) (g : reservation -> list byte) log :
  forall start,
    chained start log ->
    (forall x i, In x log -> 0 <= i < res_count x ->
       read_bytes d (slot_of r0 (res_off x + i) * elemlen r0) (elemlen r0)
       = read_bytes (g x) (i * elemlen r0) (elemlen r0)) ->
    flat_map (fun i => read_bytes d
                         (slot_of r0 (start + Z.of_nat i) * elemlen r0)
                         (elemlen r0))
             (seq 0 (Z.to_nat (reserved log)))
    = flat_map (fun x => read_bytes (g x) 0 (res_count x * elemlen r0)) log.
Proof.
  destruct geometry as [_ [_ [He _]]].
  induction log as [|x log IH]; intros start Hch Hf; [reflexivity|].
  destruct Hch as [Hoff [Hcnt Hrest]].
  pose proof (reserved_nonneg log _ Hrest) as Hr.
  change (reserved (x :: log)) with (res_count x + reserved log).
  rewrite Z2Nat.inj_add by lia.
  rewrite seq_app, flat_map_app. cbn [flat_map]. f_equal.
  - rewrite (flat_map_ext_in _
               (fun i => firstn (Z.to_nat (elemlen r0))
                           (skipn (i * Z.to_nat (elemlen r0))%nat (g x)))).
    + rewrite flat_map_seq_chunks. unfold read_bytes.
      rewrite Z2Nat.inj_mul by lia. reflexivity.
    + intros i Hi. apply in_seq in Hi.
      rewrite <- Hoff, Hf; [|left; reflexivity|lia].
      unfold read_bytes. rewrite Z2Nat.inj_mul, Nat2Z.id by lia.
      reflexivity.
  - rewrite flat_map_seq_shift, <- (IH (start + res_count x) Hrest).
    + apply flat_map_ext_in. intros i _. do 3 f_equal.
      rewrite Nat.add_0_l, Nat2Z.inj_add, Z2Nat.id by lia. lia.
    + intros y i Hy Hi. apply Hf; [right; exact Hy | exact Hi].
Qed.

Lemma accepted_read s x :
  accepted s (elemlen r0) x
  = read_bytes match nth_error (threads s) (res_thread x) with
               | Some t => th_table t
               | None => []
               end 0 (res_count x * elemlen r0).
Proof.
  unfold accepted. destruct (nth_error (threads s) (res_thread x));
    [reflexivity|].
  unfold read_bytes. rewrite firstn_nil. reflexivity.
Qed.

(** Once every call has returned. *)
Lemma finished s log published :
  inv r0 s log published ->
  (forall t, In t (threads s) -> exists c, th_pc t = Returned c) ->
  ring_inv (ring s)
  /\ entries_of (ring s) = entries_of r0 + reserved log
  /\ ring_contents (ring s)
     = ring_contents r0 ++ flat_map (accepted s (elemlen r0)) log
  /\ forall x, In x log ->
       exists t, nth_error (threads s) (res_thread x) = Some t
                 /\ th_pc t = Returned (res_count x).
Proof.
  intros Hinv Hall.
  destruct geometry
    as [Hs [Hc0 [He0 [Hph [Hch [Hct0 [Hpt0 [Hf [He [Hsum [Hpos Hd]]]]]]]]]]].
  (* what the log says of each thread *)
  assert (Hdone : forall x, In x log ->
            exists t, nth_error (threads s) (res_thread x) = Some t
                      /\ th_pc t = Returned (res_count x)
                      /\ res_off x + res_count x <= published
                      /\ filled r0 (ring s) (th_table t) (res_off x)
                           (res_count x)).
  { intros x Hx.
    destruct (inv_entries _ _ _ _ Hinv x Hx) as [t [Et Hok]].
    exists t. split; [exact Et|].
    destruct (Hall t (nth_error_In _ _ Et)) as [c Ec].
    unfold entry_ok in Hok. rewrite Ec in Hok.
    destruct Hok as [-> [Hp Hfl]]. auto. }
  (* the tail has caught up with the head *)
  assert (Hpub : published = reserved log).
  { pose proof (inv_published _ _ _ _ Hinv) as Hp.
    destruct log as [|y log']; [cbn in Hp; cbn; lia|].
    destruct (chained_last _ 0 (inv_chain _ _ _ _ Hinv) ltac:(discriminate))
      as [x [Hx Hend]].
    destruct (Hdone x Hx) as [t [_ [_ [Hle _]]]]. lia. }
  subst published.
  pose proof (inv_room _ _ _ _ Hinv) as Hroom.
  pose proof (reserved_nonneg log 0 (inv_chain _ _ _ _ Hinv)) as Hr.
  destruct (inv_static _ _ _ _ Hinv) as [Hsz [Hcap [Hel [Hch' [Hct Hlen]]]]].
  pose proof (slot_of_range (reserved log)) as Rs.
  assert (Hring : ring_inv (ring s)).
  { constructor.
    - rewrite Hsz. change (2 ^ 31) with 2147483648. lia.
    - rewrite Hcap, Hsz. exact Hc0.
    - rewrite Hel. exact He0.
    - rewrite Hsz, Hel, Hlen. exact Hd.
    - rewrite (inv_head _ _ _ _ Hinv), Hsz. exact Rs.
    - rewrite (inv_head _ _ _ _ Hinv). apply (inv_tail _ _ _ _ Hinv).
    - rewrite Hch', Hsz. exact Hch.
    - rewrite Hct, Hch'. exact Hct0. }
  assert (Hent : entries_of (ring s) = entries_of r0 + reserved log).
  { pose proof (producer_head_position (ring s) Hring) as Hpos'.
    pose proof (entries_bound (ring s) ltac:(lia)) as Hb.
    rewrite (inv_head _ _ _ _ Hinv), Hch', Hsz in Hpos'.
    unfold slot_of in Hpos'.
    rewrite <- Hpos, Z.add_mod_idemp_l in Hpos' by lia.
    rewrite Hsz in Hb.
    destruct (Z.lt_total (entries_of (ring s))
                (entries_of r0 + reserved log)) as [L|[L|L]]; [|exact L|].
    - exfalso. revert Hpos'. apply mod_distinct; lia.
    - exfalso. symmetry in Hpos'. revert Hpos'. apply mod_distinct; lia. }
  split; [exact Hring|]. split; [exact Hent|].
  split; [|intros x Hx; destruct (Hdone x Hx) as [t [Et [Ec _]]]; eauto].
  (* the contents *)
  pose proof U32Facts.modulus_eq as Hm.
  unfold ring_contents at 1. rewrite Hent.
  rewrite Z2Nat.inj_add, seq_app, flat_map_app by lia. f_equal.
  - unfold ring_contents. apply flat_map_ext_in. intros i Hi.
    apply in_seq in Hi. unfold slot_bytes.
    rewrite !slot_offset_exact
      by (rewrite ?Hsz, ?Hel, ?Hch'; lia).
    rewrite Hsz, Hel, Hch'.
    apply (inv_kept _ _ _ _ Hinv). lia.
  - rewrite flat_map_seq_shift.
    rewrite (flat_map_ext_in _
               (fun x => read_bytes
                           match nth_error (threads s) (res_thread x) with
                           | Some t => th_table t
                           | None => []
                           end 0 (res_count x * elemlen r0))
               log)
      by (intros x _; apply accepted_read).
    rewrite <- (log_contents (data (ring s)) _ log 0
                  (inv_chain _ _ _ _ Hinv)).
    + apply flat_map_ext_in. intros i Hi. apply in_seq in Hi.
      unfold slot_bytes.
      rewrite slot_offset_exact
        by (rewrite ?Hsz, ?Hel, ?Hch'; lia).
      rewrite Hsz, Hel, Hch'. do 2 f_equal.
      unfold slot_of. rewrite <- Hpos, Z.add_mod_idemp_l by lia.
      f_equal. rewrite Nat.add_0_l, Nat2Z.inj_add, Z2Nat.id by lia. lia.
    + intros x i Hx Hi.
      destruct (Hdone x Hx) as [t [Et [_ [_ Hfl]]]].
      rewrite Et. apply Hfl. exact Hi.
Qed.

End Run.

Lemma accepted_tables s s' e x :
  map th_table (threads s') = map th_table (threads s) ->
  accepted s' e x = accepted s e x.
Proof.
  intros H. unfold accepted.
  assert (A : nth_error (map th_table (threads s)) (res_thread x)
              = option_map th_table (nth_error (threads s) (res_thread x)))
    by apply nth_error_map.
  assert (B : nth_error (map th_table (threads s')) (res_thread x)
              = option_map th_table (nth_error (threads s') (res_thread x)))
    by apply nth_error_map.
  rewrite H, A in B.
  destruct (nth_error (threads s) (res_thread x)),
           (nth_error (threads s') (res_thread x));
    cbn in B; try discriminate; [|reflexivity].
  inversion B. congruence.
Qed.

Lemma returned_counts_nth s j :
  nth_error (returned_counts s) j
  = option_map (fun t => match th_pc t with
                         | Returned c => Some c
                         | _ => None
                         end) (nth_error (threads s) j).
Proof. unfold returned_counts. apply nth_error_map. Qed.

End ProducersFacts.

(** X16: producers alone, under every schedule.  Any number of threads
    start an enqueue on a ring at rest, each with a table that holds the
    elements it offers, and nobody dequeues.  Whatever the order in
    which their statements are interleaved, no statement is undefined
    (every copy stays inside the storage and the table), and no thread
    wins more than one exchange.  Once all the calls have returned the
    ring is at rest again, it holds what it held plus the counts of the
    exchanges that succeeded, and its contents are what it held followed
    by the elements of each thread that won an exchange, in the order
    the exchanges succeeded, as many from the front of its table as its
    call returned; a call returns a count other than 0 exactly when it
    won an exchange. *)
Theorem X16_producers_only_contents r0 ts schedule :
  ring_inv r0 -> size r0 * elemlen r0 < U32.modulus ->
  Forall (Producers.ready r0) ts ->
  exists s',
    Concurrent.run_schedule schedule (Concurrent.mk_system r0 ts) = Ok s'
    /\ NoDup (map Producers.res_thread
                (Producers.exchange_log schedule
                   (Concurrent.mk_system r0 ts) []))
    /\ ((forall t, In t (Concurrent.threads s') ->
           exists c, Concurrent.th_pc t = Concurrent.Returned c) ->
        ring_inv (Concurrent.ring s')
        /\ entries_of (Concurrent.ring s')
           = entries_of r0
             + Producers.reserved
                 (Producers.exchange_log schedule
                    (Concurrent.mk_system r0 ts) [])
        /\ ring_contents (Concurrent.ring s')
           = ring_contents r0
             ++ flat_map (Producers.accepted (Concurrent.mk_system r0 ts)
                            (elemlen r0))
                  (Producers.exchange_log schedule
                     (Concurrent.mk_system r0 ts) [])
        /\ (forall x,
              In x (Producers.exchange_log schedule
                      (Concurrent.mk_system r0 ts) []) ->
              nth_error (Concurrent.returned_counts s')
                        (Producers.res_thread x)
              = Some (Some (Producers.res_count x)))
        /\ (forall j c,
              nth_error (Concurrent.returned_counts s') j = Some (Some c) ->
              c <> 0 ->
              exists x,
                In x (Producers.exchange_log schedule
                        (Concurrent.mk_system r0 ts) [])
                /\ Producers.res_thread x = j
                /\ Producers.res_count x = c)).
Proof.
  intros Hinv H32 Hts.
  destruct (ProducersFacts.producers_run_inv r0 Hinv H32 schedule
              (Concurrent.mk_system r0 ts) [] 0
              (ProducersFacts.producers_initial_inv r0 Hinv ts Hts))
    as [s' [published [Erun [Hfin Htables]]]].
  exists s'. split; [exact Erun|].
  split; [apply (Producers.inv_once _ _ _ _ Hfin)|].
  intros Hall.
  destruct (ProducersFacts.finished r0 Hinv H32 s' _ published Hfin Hall)
    as [Hring [Hent [Hcont Hret]]].
  split; [exact Hring|]. split; [exact Hent|]. split; [|split].
  - rewrite Hcont. f_equal. apply flat_map_ext_in. intros x _.
    apply ProducersFacts.accepted_tables. exact Htables.
  - intros x Hx. destruct (Hret x Hx) as [t [Et Ec]].
    rewrite ProducersFacts.returned_counts_nth, Et. cbn [option_map].
    rewrite Ec. reflexivity.
  - intros j c Ej Hc. rewrite ProducersFacts.returned_counts_nth in Ej.
    destruct (nth_error (Concurrent.threads s') j) as [t|] eqn:Et;
      [|discriminate].
    cbn [option_map] in Ej.
    destruct (Concurrent.th_pc t) eqn:Ec; try discriminate.
    inversion Ej; subst count.
    destruct (Producers.inv_threads _ _ _ _ Hfin j t Et) as [_ [_ [_ Hpc]]].
    rewrite Ec in Hpc. destruct Hpc as [E0|Hx]; [contradiction|exact Hx].
Qed.

Lemma X16_producers_only_contents_witness :
  exists s',
    Concurrent.run_schedule
      [0; 0; 1; 1; 1; 0; 0; 0; 0; 0; 0; 0; 0; 0; 1; 1; 1; 1; 1; 0; 0]%nat
      (Concurrent.mk_system (mk_ring 8 7 7 4 0 0 0 0 (repeat x00 32))
         [Concurrent.enqueuer (ints_bytes [1; 2; 3]) 3 RTE_RING_QUEUE_FIXED;
          Concurrent.enqueuer (ints_bytes [4; 5]) 2 RTE_RING_QUEUE_VARIABLE])
    = Ok s'
    /\ Concurrent.returned_counts s' = [Some 3; Some 2]
    /\ entries_of (Concurrent.ring s') = 5
    /\ ring_contents (Concurrent.ring s') = ints_bytes [4; 5; 1; 2; 3].
Proof.
  destruct (X16_producers_only_contents
              (mk_ring 8 7 7 4 0 0 0 0 (repeat x00 32))
              [Concurrent.enqueuer (ints_bytes [1; 2; 3]) 3
                 RTE_RING_QUEUE_FIXED;
               Concurrent.enqueuer (ints_bytes [4; 5]) 2
                 RTE_RING_QUEUE_VARIABLE]
              [0; 0; 1; 1; 1; 0; 0; 0; 0; 0; 0; 0; 0; 0; 1; 1; 1; 1; 1; 0; 0]%nat)
    as [s' [Erun [_ Hfin]]].
  - constructor; cbn; lia.
  - reflexivity.
  - repeat constructor; cbn; lia.
  - exists s'. split; [exact Erun|].
    assert (Hcounts : Concurrent.returned_counts s' = [Some 3; Some 2]).
    { vm_compute in Erun. inversion Erun. reflexivity. }
    split; [exact Hcounts|].
    destruct Hfin as [_ [Hent [Hcont _]]].
    + intros t Ht. apply (in_map Concurrent.th_pc) in Ht.
      vm_compute in Erun. inversion Erun; subst s'.
      cbn in Ht. destruct Ht as [<-|[<-|[]]]; eexists; reflexivity.
    + split; [rewrite Hent; reflexivity|].
      rewrite Hcont. reflexivity.
Defined.

(** ** Consumers only: what every run keeps *)

Module ConsumersFacts.
Import Concurrent Producers Consumers.

Section Run.

Variable r0 : rte_ring.
Hypothesis Hinv0 : ring_inv r0.
Hypothesis H32 : size r0 * elemlen r0 < U32.modulus.

Lemma taker_slot_range off : 0 <= slot_of r0 off < size r0.
Proof.
  destruct (ProducersFacts.geometry r0 Hinv0) as [Hs _].
  unfold slot_of. apply Z.mod_pos_bound. lia.
Qed.

Lemma taker_slot_inj a b :
  0 <= a <= entries_of r0 -> 0 <= b <= entries_of r0 ->
  slot_of r0 a = slot_of r0 b -> a = b.
Proof.
  intros Ha Hb E.
  destruct (ProducersFacts.geometry r0 Hinv0)
    as [Hs [_ [_ [_ [_ [_ [_ [Hf [He [Hsum _]]]]]]]]]].
  unfold slot_of in E.
  destruct (Z.lt_trichotomy a b) as [H|[H|H]]; [|exact H|].
  - exfalso. revert E. apply mod_distinct; lia.
  - exfalso. symmetry in E. revert E. apply mod_distinct; lia.
Qed.

(** The count of entries a consumer computes from a head it loaded
    earlier. *)
Lemma entries_at T :
  0 <= T <= entries_of r0 ->
  U32.wrap (prod_tail r0 - slot_of r0 T + size r0) mod size r0
    = entries_of r0 - T.
Proof.
  intros HT.
  destruct (ProducersFacts.geometry r0 Hinv0)
    as [Hs [_ [_ [Hp [Hc [_ [Hpt [Hf [He [Hsum [Hpos _]]]]]]]]]]].
  pose proof (taker_slot_range T) as Hr.
  rewrite U32Facts.wrap_small by (rewrite U32Facts.modulus_eq; lia).
  rewrite Hpt, <- Hpos. unfold slot_of.
  pose proof (Z.div_mod (cons_head r0 + entries_of r0) (size r0) ltac:(lia))
    as D1.
  pose proof (Z.div_mod (cons_head r0 + T) (size r0) ltac:(lia)) as D2.
  replace ((cons_head r0 + entries_of r0) mod size r0
           - (cons_head r0 + T) mod size r0 + size r0)
    with (entries_of r0 - T
          + (1 - (cons_head r0 + entries_of r0) / size r0
             + (cons_head r0 + T) / size r0) * size r0) by lia.
  rewrite Z_mod_plus_full. apply Z.mod_small. lia.
Qed.

Lemma taker_next_slot T n :
  0 <= T -> 0 <= n -> T + n <= entries_of r0 ->
  U32.wrap (slot_of r0 T + n) mod size r0 = slot_of r0 (T + n).
Proof.
  intros HT Hn Hb.
  destruct (ProducersFacts.geometry r0 Hinv0)
    as [Hs [_ [_ [_ [_ [_ [_ [Hf [He [Hsum _]]]]]]]]]].
  pose proof (taker_slot_range T) as Hr.
  rewrite U32Facts.wrap_small by (rewrite U32Facts.modulus_eq; lia).
  unfold slot_of. rewrite Z.add_mod_idemp_l by lia.
  f_equal. lia.
Qed.

Lemma taker_slot_offset r off i :
  size r = size r0 -> elemlen r = elemlen r0 ->
  0 <= off -> 0 <= i -> off + i <= entries_of r0 ->
  slot_offset r (slot_of r0 off) i = slot_of r0 (off + i) * elemlen r0.
Proof.
  intros Hsz Hel Hoff Hi Hb.
  destruct (ProducersFacts.geometry r0 Hinv0)
    as [Hs [_ [Hel0 [_ [_ [_ [_ [Hf [He [Hsum _]]]]]]]]]].
  pose proof (taker_slot_range off) as Hr.
  rewrite slot_offset_exact;
    rewrite ?Hsz, ?Hel; try lia;
    try (rewrite U32Facts.modulus_eq; lia).
  unfold slot_of. rewrite Z.add_mod_idemp_l by lia.
  do 2 f_equal. lia.
Qed.

Lemma taker_ok_more log x j t :
  0 <= res_count x -> thread_ok r0 log j t -> thread_ok r0 (log ++ [x]) j t.
Proof.
  intros Hx [Hside [Hmax [Htbl Hpc]]]. unfold thread_ok.
  repeat split; try assumption.
  destruct (th_pc t); try exact Hpc.
  - destruct Hpc as [T [HT E]]. exists T.
    rewrite ProducersFacts.reserved_app. split; [lia | exact E].
  - destruct Hpc as [Hn [T [HT E]]]. split; [exact Hn|]. exists T.
    rewrite ProducersFacts.reserved_app. split; [lia | exact E].
  - destruct Hpc as [Hn [y [Hy E]]]. split; [exact Hn|]. exists y.
    split; [apply in_or_app; left; exact Hy | exact E].
  - destruct Hpc as [Hn [y [Hy E]]]. split; [exact Hn|]. exists y.
    split; [apply in_or_app; left; exact Hy | exact E].
  - destruct Hpc as [Hn [y [Hy E]]]. split; [exact Hn|]. exists y.
    split; [apply in_or_app; left; exact Hy | exact E].
  - destruct Hpc as [Hc|[y [Hy E]]]; [left; exact Hc|]. right. exists y.
    split; [apply in_or_app; left; exact Hy | exact E].
Qed.

(** Only the tail distance matters to the entry of a thread that does
    not move. *)
Lemma taker_entry_frame published published' t x :
  entry_ok r0 published t x ->
  (published <= res_off x -> published' <= res_off x) ->
  (res_off x + res_count x <= published ->
   res_off x + res_count x <= published') ->
  (published = res_off x -> th_pc t = AtStore (res_count x)
                              (slot_of r0 (res_off x))
                              (slot_of r0 (res_off x + res_count x)) ->
   published' = res_off x) ->
  entry_ok r0 published' t x.
Proof.
  unfold entry_ok. intros H Hun Hpub Hst.
  destruct (th_pc t) as [| | | n o nw i | n o nw | n o nw | c];
    try contradiction.
  - destruct H as [Hn [Ho [Hnw [Hi [Hp Hfl]]]]].
    repeat split; try assumption; try lia; auto.
  - destruct H as [Hn [Ho [Hnw [Hp Hfl]]]].
    repeat split; try assumption; auto.
  - destruct H as [Hn [Ho [Hnw [Hp Hfl]]]].
    repeat split; try assumption.
    apply Hst; [exact Hp|]. subst. reflexivity.
  - destruct H as [Hc [Hp Hfl]].
    repeat split; try assumption.
    subst c. apply Hpub. exact Hp.
Qed.

(** *** One statement of one thread *)

Lemma taker_own_entry s log published j t x :
  inv r0 s log published -> nth_error (threads s) j = Some t ->
  In x log -> res_thread x = j ->
  entry_ok r0 published t x.
Proof.
  intros Hinv Ej Hx Hj.
  destruct (inv_entries _ _ _ _ Hinv x Hx) as [t0 [E0 Hok]].
  rewrite Hj, Ej in E0. inversion E0; subst t0. exact Hok.
Qed.

(** A statement that leaves the ring as it is. *)
Lemma taker_thread_only s log published j t t' :
  inv r0 s log published -> nth_error (threads s) j = Some t ->
  thread_ok r0 log j t' ->
  (forall x, In x log -> res_thread x = j ->
     entry_ok r0 published t x -> entry_ok r0 published t' x) ->
  inv r0 (mk_system (ring s) (set_nth j t' (threads s))) log published.
Proof.
  intros Hinv Ej Hok Hent.
  destruct Hinv as [Hst Hch Hroom Honce Hhead Hpub Htail Hth Hen].
  constructor; cbn [ring threads]; try assumption.
  - intros j' u Hu. rewrite ConcurrentFacts.nth_error_set_nth in Hu.
    destruct (Nat.eqb_spec j j') as [<-|Hne].
    + rewrite Ej in Hu. inversion Hu; subst u. exact Hok.
    + apply Hth. exact Hu.
  - intros x Hx. destruct (Hen x Hx) as [tx [Ex Hokx]].
    rewrite ConcurrentFacts.nth_error_set_nth.
    destruct (Nat.eqb_spec j (res_thread x)) as [E|Hne].
    + rewrite <- E in Ex. rewrite Ej in Ex. inversion Ex; subst tx.
      rewrite <- E, Ej. exists t'. split; [reflexivity|].
      apply Hent; auto.
    + exists tx. split; assumption.
Qed.

Lemma set_cons_head_same r : set_cons_head r (cons_head r) = r.
Proof. destruct r. reflexivity. Qed.

Ltac open_step Hinv Ej Epc :=
  let Hok := fresh "Hok" in
  pose proof (inv_threads _ _ _ _ Hinv _ _ Ej) as Hok;
  destruct Hok as [Hside [Hmax [Htbl Hpcok]]];
  rewrite Epc in Hpcok;
  unfold system_step, log_step; rewrite Ej;
  unfold thread_step; rewrite Hside;
  unfold consumer_step; rewrite Epc.

Ltac no_entry Hinv Ej Epc :=
  let x := fresh "x" in
  let Hx := fresh "Hx" in
  let Hj := fresh "Hj" in
  let Hold := fresh "Hold" in
  intros x Hx Hj Hold; exfalso;
  unfold entry_ok in Hold; rewrite Epc in Hold; exact Hold.

Lemma taker_step_load s log published j t :
  inv r0 s log published -> nth_error (threads s) j = Some t ->
  th_pc t = AtLoad ->
  exists s' published',
    system_step j s = Ok s' /\ inv r0 s' (log_step j s log) published'.
Proof.
  intros Hinv Ej Epc. open_step Hinv Ej Epc. cbn [bind].
  eexists. exists published. split; [reflexivity|].
  apply (taker_thread_only s log published j t); try assumption.
  - unfold thread_ok. cbn [at_pc th_side th_max th_table th_pc].
    repeat split; try assumption.
    exists (reserved log). split.
    + pose proof (ProducersFacts.reserved_nonneg log 0
                    (inv_chain _ _ _ _ Hinv)). lia.
    + apply (inv_head _ _ _ _ Hinv).
  - no_entry Hinv Ej Epc.
Qed.

Lemma taker_step_compute s log published j t old_head :
  inv r0 s log published -> nth_error (threads s) j = Some t ->
  th_pc t = AtCompute old_head ->
  exists s' published',
    system_step j s = Ok s' /\ inv r0 s' (log_step j s log) published'.
Proof.
  intros Hinv Ej Epc. open_step Hinv Ej Epc.
  destruct Hpcok as [T [HT Hold]].
  destruct (inv_static _ _ _ _ Hinv) as [Hsz [Hcap [Hel [Hph [Hpt Hd]]]]].
  destruct (ProducersFacts.geometry r0 Hinv0)
    as [Hs [_ [_ [_ [_ [_ [_ [Hf [He _]]]]]]]]].
  pose proof (inv_room _ _ _ _ Hinv) as Hroom.
  rewrite Hsz, Hpt.
  destruct (Z.eqb_spec (size r0) 0) as [E|_]; [lia|].
  rewrite Hold, entries_at by lia. cbn zeta.
  pose proof (granted_bounds (th_behavior t) (th_max t)
                (entries_of r0 - T) Hmax ltac:(lia)) as [Hg1 Hg2].
  destruct (Z.eqb_spec (granted (th_behavior t) (th_max t)
                          (entries_of r0 - T)) 0) as [E0|E0];
    cbn [bind]; eexists; exists published; (split; [reflexivity|]);
    apply (taker_thread_only s log published j t); try assumption;
    try (no_entry Hinv Ej Epc).
  - unfold thread_ok. cbn [at_pc th_side th_max th_table th_pc].
    repeat split; try assumption. left. reflexivity.
  - unfold thread_ok. cbn [at_pc th_side th_max th_table th_pc].
    repeat split; try assumption; try lia.
    exists T. repeat split; try lia.
    apply taker_next_slot; lia.
Qed.

Lemma taker_step_returned s log published j t c :
  inv r0 s log published -> nth_error (threads s) j = Some t ->
  th_pc t = Returned c ->
  exists s' published',
    system_step j s = Ok s' /\ inv r0 s' (log_step j s log) published'.
Proof.
  intros Hinv Ej Epc. open_step Hinv Ej Epc. cbn [bind].
  exists s, published. rewrite (ProducersFacts.system_same s j t Ej).
  split; [reflexivity | exact Hinv].
Qed.

Lemma taker_step_wait s log published j t n old_head new_head :
  inv r0 s log published -> nth_error (threads s) j = Some t ->
  th_pc t = AtWait n old_head new_head ->
  exists s' published',
    system_step j s = Ok s' /\ inv r0 s' (log_step j s log) published'.
Proof.
  intros Hinv Ej Epc. open_step Hinv Ej Epc.
  destruct Hpcok as [Hn [x [Hx [Hxj Hxn]]]].
  pose proof (taker_own_entry s log published j t x Hinv Ej Hx Hxj) as Hown.
  unfold entry_ok in Hown. rewrite Epc in Hown.
  destruct Hown as [Hcnt [Hold [Hnew [Hp Hfl]]]].
  destruct (Z.eqb_spec (cons_tail (ring s)) old_head) as [E|E]; cbn [negb bind].
  - eexists. exists published. split; [reflexivity|].
    assert (Hoff : published = res_off x).
    { pose proof (inv_room _ _ _ _ Hinv) as Hroom.
      pose proof (inv_published _ _ _ _ Hinv) as Hpub.
      destruct (ProducersFacts.chained_bounds log 0 x
                  (inv_chain _ _ _ _ Hinv) Hx) as [B1 [B2 B3]].
      apply taker_slot_inj; try lia.
      rewrite <- (inv_tail _ _ _ _ Hinv), E. exact Hold. }
    apply (taker_thread_only s log published j t); try assumption.
    + unfold thread_ok. cbn [at_pc th_side th_max th_table th_pc].
      repeat split; try assumption. exists x. auto.
    + intros y Hy Hyj _.
      assert (y = x).
      { apply (ProducersFacts.once_same_thread log); try assumption.
        - apply (inv_once _ _ _ _ Hinv).
        - congruence. }
      subst y. unfold entry_ok. cbn [at_pc th_pc th_table].
      repeat split; assumption.
  - exists s, published. rewrite (ProducersFacts.system_same s j t Ej).
    split; [reflexivity | exact Hinv].
Qed.

Lemma taker_step_exchange s log published j t n old_head new_head :
  inv r0 s log published -> nth_error (threads s) j = Some t ->
  th_pc t = AtExchange n old_head new_head ->
  exists s' published',
    system_step j s = Ok s' /\ inv r0 s' (log_step j s log) published'.
Proof.
  intros Hinv Ej Epc. open_step Hinv Ej Epc.
  destruct Hpcok as [Hn [T [HT [Hold [Hfree Hnew]]]]].
  pose proof (inv_room _ _ _ _ Hinv) as Hroom.
  unfold atomic_compare_exchange.
  destruct (Z.eqb_spec (cons_head (ring s)) old_head) as [E|E]; cbn [bind].
  - (* the exchange succeeds *)
    assert (ET : T = reserved log).
    { apply taker_slot_inj; try lia.
      rewrite <- Hold, <- E. apply (inv_head _ _ _ _ Hinv). }
    subst T.
    assert (Hfresh : forall x, In x log -> res_thread x <> j).
    { intros x Hx Hj.
      pose proof (taker_own_entry s log published j t x Hinv Ej Hx Hj)
        as Hown.
      unfold entry_ok in Hown. rewrite Epc in Hown. exact Hown. }
    eexists. exists published. split; [reflexivity|].
    destruct Hinv as [Hst Hch _ Honce Hhead Hpub Htail Hth Hen].
    constructor; cbn [ring threads set_cons_head size capacity elemlen
                      cons_head cons_tail data prod_head prod_tail];
      try assumption.
    + apply (ProducersFacts.chained_app log 0 j n Hch). lia.
    + rewrite ProducersFacts.reserved_app. cbn [res_count]. lia.
    + rewrite map_app. cbn [map res_thread]. apply NoDup_app.
      * exact Honce.
      * constructor; [intros []|constructor].
      * intros a Ha [<-|[]]. apply in_map_iff in Ha.
        destruct Ha as [x [Ex Hx]]. exact (Hfresh x Hx Ex).
    + rewrite ProducersFacts.reserved_app. cbn [res_count]. exact Hnew.
    + rewrite ProducersFacts.reserved_app. cbn [res_count]. lia.
    + intros j' u Hu. rewrite ConcurrentFacts.nth_error_set_nth in Hu.
      destruct (Nat.eqb_spec j j') as [<-|Hne].
      * rewrite Ej in Hu. inversion Hu; subst u.
        unfold thread_ok. cbn [at_pc th_side th_max th_table th_pc].
        repeat split; try assumption.
        exists (mk_reservation j (reserved log) n).
        split; [apply in_or_app; right; left; reflexivity|].
        split; reflexivity.
      * apply taker_ok_more; [cbn [res_count]; lia|]. apply Hth. exact Hu.
    + intros x Hx. apply in_app_or in Hx. destruct Hx as [Hx|[<-|[]]].
      * destruct (Hen x Hx) as [tx [Ex Hokx]].
        exists tx. split; [|exact Hokx].
        rewrite ConcurrentFacts.nth_error_set_nth.
        destruct (Nat.eqb_spec j (res_thread x)) as [Ejx|_];
          [exfalso; exact (Hfresh x Hx (eq_sym Ejx)) | exact Ex].
      * cbn [res_thread]. exists (at_pc t (AtCopy n old_head new_head 0)).
        split; [apply (ConcurrentFacts.nth_error_set_nth_same _ _ _ t Ej)|].
        unfold entry_ok. cbn [at_pc th_pc th_table res_count res_off].
        repeat split; try lia; try assumption.
        intros i Hi. lia.
  - (* another consumer moved the head: start over *)
    rewrite set_cons_head_same.
    eexists. exists published. split; [reflexivity|].
    apply (taker_thread_only s log published j t); try assumption.
    + unfold thread_ok. cbn [at_pc th_side th_max th_table th_pc].
      repeat split; assumption.
    + no_entry Hinv Ej Epc.
Qed.

Lemma taker_step_store s log published j t n old_head new_head :
  inv r0 s log published -> nth_error (threads s) j = Some t ->
  th_pc t = AtStore n old_head new_head ->
  exists s' published',
    system_step j s = Ok s' /\ inv r0 s' (log_step j s log) published'.
Proof.
  intros Hinv Ej Epc. open_step Hinv Ej Epc. cbn [bind].
  destruct Hpcok as [Hn [x [Hx [Hxj Hxn]]]].
  pose proof (taker_own_entry s log published j t x Hinv Ej Hx Hxj) as Hown.
  unfold entry_ok in Hown. rewrite Epc in Hown.
  destruct Hown as [Hcnt [Hold [Hnew [Hp Hfl]]]].
  destruct (ProducersFacts.chained_bounds log 0 x
              (inv_chain _ _ _ _ Hinv) Hx) as [B1 [B2 B3]].
  eexists. exists (res_off x + n). split; [reflexivity|].
  destruct Hinv as [Hst Hch Hroom Honce Hhead Hpub Htail Hth Hen].
  constructor; cbn [ring threads set_cons_tail size capacity elemlen
                    cons_head cons_tail data prod_head prod_tail];
    try assumption.
  - lia.
  - intros j' u Hu. rewrite ConcurrentFacts.nth_error_set_nth in Hu.
    destruct (Nat.eqb_spec j j') as [<-|Hne].
    + rewrite Ej in Hu. inversion Hu; subst u.
      unfold thread_ok. cbn [at_pc th_side th_max th_table th_pc].
      repeat split; try assumption.
      right. exists x. auto.
    + apply Hth. exact Hu.
  - intros y Hy. destruct (Hen y Hy) as [ty [Ey Hoky]].
    rewrite ConcurrentFacts.nth_error_set_nth.
    destruct (Nat.eqb_spec j (res_thread y)) as [Ejy|Hne].
    + assert (y = x)
        by (apply (ProducersFacts.once_same_thread log); auto; congruence).
      subst y. rewrite <- Ejy, Ej.
      exists (at_pc t (Returned n)). split; [reflexivity|].
      unfold entry_ok. cbn [at_pc th_pc th_table].
      repeat split; try lia. exact Hfl.
    + exists ty. split; [exact Ey|].
      assert (Hxy : y <> x) by (intros ->; congruence).
      destruct (ProducersFacts.chained_bounds log 0 y Hch Hy)
        as [C1 [C2 C3]].
      destruct (ProducersFacts.chained_disjoint log 0 x y Hch Hx Hy)
        as [D|D]; [congruence|].
      apply (taker_entry_frame published (res_off x + n) ty y Hoky);
        intros; try assumption; lia.
Qed.

Lemma taker_step_copy s log published j t n old_head new_head i :
  inv r0 s log published -> nth_error (threads s) j = Some t ->
  th_pc t = AtCopy n old_head new_head i ->
  exists s' published',
    system_step j s = Ok s' /\ inv r0 s' (log_step j s log) published'.
Proof.
  intros Hinv Ej Epc. open_step Hinv Ej Epc.
  destruct Hpcok as [Hn [x [Hx [Hxj Hxn]]]].
  pose proof (taker_own_entry s log published j t x Hinv Ej Hx Hxj) as Hown.
  unfold entry_ok in Hown. rewrite Epc in Hown.
  destruct Hown as [Hcnt [Hold [Hnew [Hi [Hp Hfl]]]]].
  subst old_head.
  destruct (ProducersFacts.chained_bounds log 0 x
              (inv_chain _ _ _ _ Hinv) Hx) as [B1 [B2 B3]].
  pose proof (inv_room _ _ _ _ Hinv) as Hroom.
  destruct (inv_static _ _ _ _ Hinv) as [Hsz [Hcap [Hel [Hph [Hpt Hdat]]]]].
  destruct (ProducersFacts.geometry r0 Hinv0)
    as [Hs [Hc0 [He0 [_ [_ [_ [_ [Hf [He Hsum]]]]]]]]].
  destruct Hsum as [Hsum [_ Hdata]].
  destruct (Z.ltb_spec i n) as [Hlt|Hge].
  - (* one more element goes into the table *)
    rewrite (taker_slot_offset (ring s) (res_off x) i) by lia.
    rewrite table_offset_exact by (rewrite ?Hel; nia).
    rewrite Hel, Hdat.
    pose proof (taker_slot_range (res_off x + i)) as Rs.
    destruct (memcpy_ok (th_table t) (i * elemlen r0) (data r0)
                (slot_of r0 (res_off x + i) * elemlen r0) (elemlen r0))
      as [tbl [Ed Hd]]; try nia.
    rewrite Ed. cbn [bind].
    eexists. exists published. split; [reflexivity|].
    destruct (ProducersFacts.read_after_memcpy _ _ _ _ _ _ Ed)
      as [Hwritten Hother].
    apply (taker_thread_only s log published j t); try assumption.
    + unfold thread_ok.
      cbn [with_table th_side th_max th_table th_pc].
      repeat split; try assumption; try lia. exists x. auto.
    + intros y Hy Hyj _.
      assert (y = x).
      { apply (ProducersFacts.once_same_thread log); try assumption.
        - apply (inv_once _ _ _ _ Hinv).
        - congruence. }
      subst y. unfold entry_ok.
      cbn [with_table th_pc th_table].
      repeat split; try lia; try assumption; try reflexivity.
      intros k Hk.
      destruct (Z.eq_dec k i) as [->|Hki].
      * exact Hwritten.
      * rewrite Hother; [apply Hfl; lia | nia | lia | nia].
  - (* the loop is over *)
    cbn [bind]. eexists. exists published. split; [reflexivity|].
    apply (taker_thread_only s log published j t); try assumption.
    + unfold thread_ok. cbn [at_pc th_side th_max th_table th_pc].
      repeat split; try assumption. exists x. auto.
    + intros y Hy Hyj _.
      assert (y = x)
        by (apply (ProducersFacts.once_same_thread log); auto;
            try apply (inv_once _ _ _ _ Hinv); congruence).
      subst y. unfold entry_ok. cbn [at_pc th_pc th_table].
      assert (i = n) by lia. subst i.
      repeat split; try assumption; reflexivity.
Qed.

(** Every statement of every consumer keeps the invariant, and none is
    undefined. *)
Lemma taker_step_inv s log published j :
  inv r0 s log published ->
  exists s' published',
    system_step j s = Ok s' /\ inv r0 s' (log_step j s log) published'.
Proof.
  intros Hinv. destruct (nth_error (threads s) j) as [t|] eqn:Ej.
  - destruct (th_pc t) eqn:Epc.
    + exact (taker_step_load s log published j t Hinv Ej Epc).
    + exact (taker_step_compute s log published j t _ Hinv Ej Epc).
    + exact (taker_step_exchange s log published j t _ _ _ Hinv Ej Epc).
    + exact (taker_step_copy s log published j t _ _ _ _ Hinv Ej Epc).
    + exact (taker_step_wait s log published j t _ _ _ Hinv Ej Epc).
    + exact (taker_step_store s log published j t _ _ _ Hinv Ej Epc).
    + exact (taker_step_returned s log published j t _ Hinv Ej Epc).
  - exists s, published. unfold system_step, log_step. rewrite Ej.
    split; [reflexivity | exact Hinv].
Qed.

Lemma consumers_run_inv schedule : forall s log published,
  inv r0 s log published ->
  exists s' published',
    run_schedule schedule s = Ok s'
    /\ inv r0 s' (exchange_log schedule s log) published'.
Proof.
  induction schedule as [|j schedule IH]; intros s log published Hinv.
  - exists s, published. cbn. auto.
  - destruct (taker_step_inv s log published j Hinv) as [s1 [p1 [E1 H1]]].
    destruct (IH s1 _ p1 H1) as [s' [p' [E' H']]].
    exists s', p'. cbn [run_schedule exchange_log]. rewrite E1. cbn [bind].
    split; [exact E' | exact H'].
Qed.

Lemma consumers_initial_inv ts :
  Forall (ready r0) ts -> inv r0 (mk_system r0 ts) [] 0.
Proof.
  intros Hts.
  destruct (ProducersFacts.geometry r0 Hinv0)
    as [Hs [_ [_ [Hph [Hch [Hct [Hpt [Hf [He _]]]]]]]]].
  constructor; cbn [ring threads reserved fold_right map chained];
    auto; try lia.
  - repeat split.
  - constructor.
  - unfold slot_of. rewrite Z.add_0_r, Z.mod_small by lia. reflexivity.
  - unfold slot_of. rewrite Z.add_0_r, Z.mod_small by lia. exact Hct.
  - intros j t Ej. apply nth_error_In in Ej.
    rewrite Forall_forall in Hts.
    destruct (Hts t Ej) as [H1 [H2 [H3 H4]]].
    unfold thread_ok. rewrite H4. auto.
  - intros x [].
Qed.

(** A range of the contents the ring started with, slot by slot. *)
Lemma contents_range off count :
  0 <= off -> 0 <= count -> off + count <= entries_of r0 ->
  read_bytes (ring_contents r0) (off * elemlen r0) (count * elemlen r0)
  = flat_map (fun i => read_bytes (data r0)
                         (slot_of r0 (off + Z.of_nat i) * elemlen r0)
                         (elemlen r0))
             (seq 0 (Z.to_nat count)).
Proof.
  intros Hoff Hcount Hb.
  destruct (ProducersFacts.geometry r0 Hinv0)
    as [Hs [_ [He0 [_ [Hch [_ [_ [Hf [He [Hsum [_ Hd]]]]]]]]]]].
  pose proof U32Facts.modulus_eq as Hm.
  assert (Hlen : forall i, (i < Z.to_nat (entries_of r0))%nat ->
                   length (slot_bytes r0 (cons_head r0) (Z.of_nat i))
                   = Z.to_nat (elemlen r0)).
  { intros i _. apply slot_bytes_length; lia. }
  destruct (flat_map_seq_cut
              (fun i => slot_bytes r0 (cons_head r0) (Z.of_nat i))
              (Z.to_nat (elemlen r0)) (Z.to_nat off)
              (Z.to_nat (entries_of r0)) Hlen ltac:(lia)) as [_ Cskip].
  fold (ring_contents r0) in Cskip.
  unfold read_bytes at 1.
  rewrite !Z2Nat.inj_mul by lia. rewrite Cskip, flat_map_seq_shift.
  assert (Hlen' : forall i,
            (i < Z.to_nat (entries_of r0) - Z.to_nat off)%nat ->
            length (slot_bytes r0 (cons_head r0)
                      (Z.of_nat (Z.to_nat off + i)))
            = Z.to_nat (elemlen r0)).
  { intros i _. apply slot_bytes_length; lia. }
  destruct (flat_map_seq_cut
              (fun i => slot_bytes r0 (cons_head r0)
                          (Z.of_nat (Z.to_nat off + i)))
              (Z.to_nat (elemlen r0)) (Z.to_nat count)
              (Z.to_nat (entries_of r0) - Z.to_nat off) Hlen' ltac:(lia))
    as [Cfirst _].
  rewrite Cfirst. apply flat_map_ext_in. intros i Hi. apply in_seq in Hi.
  unfold slot_bytes. rewrite slot_offset_exact by lia.
  unfold slot_of. do 3 f_equal. lia.
Qed.

(** What a table holds once its range has been copied. *)
Lemma taken_all tbl off count :
  0 <= off -> 0 <= count -> off + count <= entries_of r0 ->
  taken r0 tbl off count ->
  read_bytes tbl 0 (count * elemlen r0)
  = read_bytes (ring_contents r0) (off * elemlen r0) (count * elemlen r0).
Proof.
  intros Hoff Hcount Hb Ht.
  destruct (ProducersFacts.geometry r0 Hinv0) as [_ [_ [He0 _]]].
  rewrite contents_range by assumption.
  unfold read_bytes at 1. cbn [Z.to_nat skipn].
  rewrite Z2Nat.inj_mul by lia.
  rewrite <- flat_map_seq_chunks.
  apply flat_map_ext_in. intros i Hi. apply in_seq in Hi.
  rewrite <- Ht by lia. unfold read_bytes.
  rewrite Z2Nat.inj_mul, Nat2Z.id by lia. reflexivity.
Qed.

(** Ranges that follow each other, read one after the other. *)
Lemma log_delivered (c : list byte) (g : reservation -> list byte) log :
  forall start,
    0 <= start -> chained start log ->
    (forall x, In x log ->
       g x = read_bytes c (res_off x * elemlen r0)
               (res_count x * elemlen r0)) ->
    flat_map g log
    = read_bytes c (start * elemlen r0) (reserved log * elemlen r0).
Proof.
  destruct (ProducersFacts.geometry r0 Hinv0) as [_ [_ [He0 _]]].
  induction log as [|x log IH]; intros start Hs Hch Hg.
  - cbn. unfold read_bytes. reflexivity.
  - destruct Hch as [Hoff [Hcnt Hrest]].
    pose proof (ProducersFacts.reserved_nonneg log _ Hrest) as Hr.
    change (reserved (x :: log)) with (res_count x + reserved log).
    cbn [flat_map].
    rewrite (Hg x (or_introl eq_refl)), Hoff.
    rewrite (IH (start + res_count x) ltac:(lia) Hrest)
      by (intros y Hy; apply Hg; right; exact Hy).
    unfold read_bytes.
    replace (Z.to_nat ((res_count x + reserved log) * elemlen r0))
      with (Z.to_nat (res_count x * elemlen r0)
            + Z.to_nat (reserved log * elemlen r0))%nat by nia.
    rewrite firstn_plus, skipn_skipn. do 3 f_equal. nia.
Qed.

(** Once every call has returned. *)
Lemma consumers_finished s log published :
  inv r0 s log published ->
  (forall t, In t (threads s) -> exists c, th_pc t = Returned c) ->
  ring_inv (ring s)
  /\ entries_of (ring s) = entries_of r0 - reserved log
  /\ ring_contents (ring s)
     = skipn (Z.to_nat (reserved log * elemlen r0)) (ring_contents r0)
  /\ flat_map (accepted s (elemlen r0)) log
     = read_bytes (ring_contents r0) 0 (reserved log * elemlen r0)
  /\ forall x, In x log ->
       exists t, nth_error (threads s) (res_thread x) = Some t
                 /\ th_pc t = Returned (res_count x).
Proof.
  intros Hinv Hall.
  destruct (ProducersFacts.geometry r0 Hinv0)
    as [Hs [Hc0 [He0 [Hph [Hch [Hct0 [Hpt0 [Hf [He [Hsum [Hpos Hd]]]]]]]]]]].
  assert (Hdone : forall x, In x log ->
            exists t, nth_error (threads s) (res_thread x) = Some t
                      /\ th_pc t = Returned (res_count x)
                      /\ res_off x + res_count x <= published
                      /\ taken r0 (th_table t) (res_off x) (res_count x)).
  { intros x Hx.
    destruct (inv_entries _ _ _ _ Hinv x Hx) as [t [Et Hok]].
    exists t. split; [exact Et|].
    destruct (Hall t (nth_error_In _ _ Et)) as [c Ec].
    unfold entry_ok in Hok. rewrite Ec in Hok.
    destruct Hok as [-> [Hp Hfl]]. auto. }
  assert (Hpub : published = reserved log).
  { pose proof (inv_published _ _ _ _ Hinv) as Hp.
    destruct log as [|y log']; [cbn in Hp; cbn; lia|].
    destruct (ProducersFacts.chained_last _ 0 (inv_chain _ _ _ _ Hinv)
                ltac:(discriminate)) as [x [Hx Hend]].
    destruct (Hdone x Hx) as [t [_ [_ [Hle _]]]]. lia. }
  subst published.
  pose proof (inv_room _ _ _ _ Hinv) as Hroom.
  pose proof (ProducersFacts.reserved_nonneg log 0 (inv_chain _ _ _ _ Hinv))
    as Hr.
  destruct (inv_static _ _ _ _ Hinv) as [Hsz [Hcap [Hel [Hph' [Hpt' Hdat]]]]].
  pose proof (taker_slot_range (reserved log)) as Rs.
  assert (Hring : ring_inv (ring s)).
  { constructor.
    - rewrite Hsz. change (2 ^ 31) with 2147483648. lia.
    - rewrite Hcap, Hsz. exact Hc0.
    - rewrite Hel. exact He0.
    - rewrite Hsz, Hel, Hdat. exact Hd.
    - rewrite Hph', Hsz. exact Hph.
    - rewrite Hpt', Hph'. exact Hpt0.
    - rewrite (inv_head _ _ _ _ Hinv), Hsz. exact Rs.
    - rewrite (inv_head _ _ _ _ Hinv). apply (inv_tail _ _ _ _ Hinv). }
  assert (Hent : entries_of (ring s) = entries_of r0 - reserved log).
  { pose proof (producer_head_position (ring s) Hring) as Hpos'.
    pose proof (entries_bound (ring s) ltac:(lia)) as Hb.
    rewrite (inv_head _ _ _ _ Hinv), Hph', Hsz in Hpos'.
    unfold slot_of in Hpos'.
    rewrite <- Hpos, Z.add_mod_idemp_l in Hpos' by lia.
    rewrite Hsz in Hb.
    destruct (Z.lt_total (reserved log + entries_of (ring s))
                (entries_of r0)) as [L|[L|L]]; [|lia|].
    - exfalso. revert Hpos'. apply mod_distinct; lia.
    - exfalso. symmetry in Hpos'. revert Hpos'. apply mod_distinct; lia. }
  pose proof U32Facts.modulus_eq as Hm.
  split; [exact Hring|]. split; [exact Hent|].
  split; [|split;
           [|intros x Hx; destruct (Hdone x Hx) as [t [Et [Ec _]]]; eauto]].
  - (* what is left *)
    assert (Hlen : forall i, (i < Z.to_nat (entries_of r0))%nat ->
                     length (slot_bytes r0 (cons_head r0) (Z.of_nat i))
                     = Z.to_nat (elemlen r0)).
    { intros i _. apply slot_bytes_length; lia. }
    destruct (flat_map_seq_cut
                (fun i => slot_bytes r0 (cons_head r0) (Z.of_nat i))
                (Z.to_nat (elemlen r0)) (Z.to_nat (reserved log))
                (Z.to_nat (entries_of r0)) Hlen ltac:(lia)) as [_ Cskip].
    fold (ring_contents r0) in Cskip.
    rewrite Z2Nat.inj_mul, Cskip, flat_map_seq_shift by lia.
    unfold ring_contents. rewrite Hent.
    replace (Z.to_nat (entries_of r0 - reserved log))
      with (Z.to_nat (entries_of r0) - Z.to_nat (reserved log))%nat by lia.
    apply flat_map_ext_in. intros i Hi. apply in_seq in Hi.
    unfold slot_bytes. rewrite Hdat, Hel. f_equal.
    rewrite (slot_offset_exact (ring s))
      by (rewrite ?Hsz, ?Hel, ?(inv_head _ _ _ _ Hinv); lia).
    rewrite (slot_offset_exact r0) by lia.
    rewrite Hsz, Hel, (inv_head _ _ _ _ Hinv). unfold slot_of.
    rewrite Z.add_mod_idemp_l by lia. do 2 f_equal. lia.
  - (* what was handed out *)
    rewrite (log_delivered (ring_contents r0) (accepted s (elemlen r0))
               log 0 ltac:(lia) (inv_chain _ _ _ _ Hinv)).
    + reflexivity.
    + intros x Hx. destruct (Hdone x Hx) as [t [Et [_ [Hle Htk]]]].
      unfold accepted. rewrite Et.
      destruct (ProducersFacts.chained_bounds log 0 x
                  (inv_chain _ _ _ _ Hinv) Hx) as [B1 [B2 B3]].
      apply taken_all; try lia. exact Htk.
Qed.

End Run.

End ConsumersFacts.

(** X17: consumers alone, under every schedule.  Any number of threads
    start a dequeue on a ring at rest, each with a table that has room
    for what it asks for, and nobody enqueues.  Whatever the order in
    which their statements are interleaved, no statement is undefined
    and no thread wins more than one exchange.  Once all the calls have
    returned the ring is at rest again; what the threads that won an
    exchange find at the front of their tables, each as many elements
    as its call returned, taken in the order the exchanges succeeded,
    is the front of what the ring held, and the ring holds the rest:
    every element is handed out once, to one thread, in order.  A call
    returns a count other than 0 exactly when it won an exchange. *)
Theorem X17_consumers_only_contents r0 ts schedule :
  ring_inv r0 -> size r0 * elemlen r0 < U32.modulus ->
  Forall (Consumers.ready r0) ts ->
  exists s',
    Concurrent.run_schedule schedule (Concurrent.mk_system r0 ts) = Ok s'
    /\ NoDup (map Producers.res_thread
                (Consumers.exchange_log schedule
                   (Concurrent.mk_system r0 ts) []))
    /\ ((forall t, In t (Concurrent.threads s') ->
           exists c, Concurrent.th_pc t = Concurrent.Returned c) ->
        ring_inv (Concurrent.ring s')
        /\ entries_of (Concurrent.ring s')
           = entries_of r0
             - Producers.reserved
                 (Consumers.exchange_log schedule
                    (Concurrent.mk_system r0 ts) [])
        /\ ring_contents (Concurrent.ring s')
           = skipn (Z.to_nat
                      (Producers.reserved
                         (Consumers.exchange_log schedule
                            (Concurrent.mk_system r0 ts) [])
                       * elemlen r0))
                   (ring_contents r0)
        /\ flat_map (Producers.accepted s' (elemlen r0))
             (Consumers.exchange_log schedule
                (Concurrent.mk_system r0 ts) [])
           = read_bytes (ring_contents r0) 0
               (Producers.reserved
                  (Consumers.exchange_log schedule
                     (Concurrent.mk_system r0 ts) [])
                * elemlen r0)
        /\ (forall x,
              In x (Consumers.exchange_log schedule
                      (Concurrent.mk_system r0 ts) []) ->
              nth_error (Concurrent.returned_counts s')
                        (Producers.res_thread x)
              = Some (Some (Producers.res_count x)))
        /\ (forall j c,
              nth_error (Concurrent.returned_counts s') j = Some (Some c) ->
              c <> 0 ->
              exists x,
                In x (Consumers.exchange_log schedule
                        (Concurrent.mk_system r0 ts) [])
                /\ Producers.res_thread x = j
                /\ Producers.res_count x = c)).
Proof.
  intros Hinv H32 Hts.
  destruct (ConsumersFacts.consumers_run_inv r0 Hinv H32 schedule
              (Concurrent.mk_system r0 ts) [] 0
              (ConsumersFacts.consumers_initial_inv r0 Hinv ts Hts))
    as [s' [published [Erun Hfin]]].
  exists s'. split; [exact Erun|].
  split; [apply (Consumers.inv_once _ _ _ _ Hfin)|].
  intros Hall.
  destruct (ConsumersFacts.consumers_finished r0 Hinv H32 s' _ published
              Hfin Hall)
    as [Hring [Hent [Hcont [Hgot Hret]]]].
  split; [exact Hring|]. split; [exact Hent|]. split; [exact Hcont|].
  split; [exact Hgot|]. split.
  - intros x Hx. destruct (Hret x Hx) as [t [Et Ec]].
    rewrite ProducersFacts.returned_counts_nth, Et. cbn [option_map].
    rewrite Ec. reflexivity.
  - intros j c Ej Hc. rewrite ProducersFacts.returned_counts_nth in Ej.
    destruct (nth_error (Concurrent.threads s') j) as [t|] eqn:Et;
      [|discriminate].
    cbn [option_map] in Ej.
    destruct (Concurrent.th_pc t) eqn:Ec; try discriminate.
    inversion Ej; subst count.
    destruct (Consumers.inv_threads _ _ _ _ Hfin j t Et) as [_ [_ [_ Hpc]]].
    rewrite Ec in Hpc. destruct Hpc as [E0|Hx]; [contradiction|exact Hx].
Qed.

Lemma X17_consumers_only_contents_witness :
  exists s',
    Concurrent.run_schedule
      [0; 0; 1; 1; 1; 0; 0; 0; 0; 0; 0; 0; 0; 0; 1; 1; 1; 1; 1; 0; 0]%nat
      (Concurrent.mk_system
         (mk_ring 8 7 7 4 5 5 0 0 (ints_bytes [1; 2; 3; 4; 5; 6; 7; 8]))
         [Concurrent.dequeuer (out_table 3) 3 RTE_RING_QUEUE_FIXED;
          Concurrent.dequeuer (out_table 2) 2 RTE_RING_QUEUE_VARIABLE])
    = Ok s'
    /\ Concurrent.returned_counts s' = [Some 3; Some 2]
    /\ map Concurrent.th_table (Concurrent.threads s')
       = [ints_bytes [3; 4; 5]; ints_bytes [1; 2]]
    /\ entries_of (Concurrent.ring s') = 0
    /\ ring_contents (Concurrent.ring s') = [].
Proof.
  destruct (X17_consumers_only_contents
              (mk_ring 8 7 7 4 5 5 0 0 (ints_bytes [1; 2; 3; 4; 5; 6; 7; 8]))
              [Concurrent.dequeuer (out_table 3) 3 RTE_RING_QUEUE_FIXED;
               Concurrent.dequeuer (out_table 2) 2 RTE_RING_QUEUE_VARIABLE]
              [0; 0; 1; 1; 1; 0; 0; 0; 0; 0; 0; 0; 0; 0; 1; 1; 1; 1; 1; 0; 0]%nat)
    as [s' [Erun [_ Hfin]]].
  - constructor; cbn; lia.
  - reflexivity.
  - repeat constructor; cbn; lia.
  - exists s'. split; [exact Erun|].
    assert (Hcounts : Concurrent.returned_counts s' = [Some 3; Some 2]).
    { vm_compute in Erun. inversion Erun. reflexivity. }
    split; [exact Hcounts|].
    split; [vm_compute in Erun; inversion Erun; reflexivity|].
    destruct Hfin as [_ [Hent [Hcont _]]].
    + intros t Ht. apply (in_map Concurrent.th_pc) in Ht.
      vm_compute in Erun. inversion Erun; subst s'.
      cbn in Ht. destruct Ht as [<-|[<-|[]]]; eexists; reflexivity.
    + split; [rewrite Hent; reflexivity|].
      rewrite Hcont. reflexivity.
Defined.

(** ** One producer thread and one consumer thread: what every run keeps *)

Module SpscFacts.
Import Concurrent Spsc.

(** *** Reading regions *)

Lemma read_prefix_app l1 l2 off len :
  0 <= off -> 0 <= len -> off + len <= zlength l1 ->
  read_bytes (l1 ++ l2) off len = read_bytes l1 off len.
Proof.
  intros Ho Hl Hb. unfold read_bytes, zlength in *.
  apply read_app_before. lia.
Qed.

Lemma read_suffix_app l1 l2 off len :
  0 <= off ->
  read_bytes (l1 ++ l2) (zlength l1 + off) len = read_bytes l2 off len.
Proof.
  intros Ho. unfold read_bytes, zlength. f_equal.
  rewrite skipn_app.
  replace (Z.to_nat (Z.of_nat (length l1) + off) - length l1)%nat
    with (Z.to_nat off) by lia.
  rewrite skipn_all2 by lia. reflexivity.
Qed.

Lemma read_of_front l m off len :
  0 <= off -> 0 <= len -> off + len <= m ->
  read_bytes (read_bytes l 0 m) off len = read_bytes l off len.
Proof.
  intros Ho Hl Hb. unfold read_bytes. cbn [Z.to_nat skipn].
  rewrite skipn_firstn_comm, firstn_firstn. f_equal. lia.
Qed.

Lemma read_split l a b :
  0 <= a -> 0 <= b ->
  read_bytes l 0 (a + b) = read_bytes l 0 a ++ read_bytes l a b.
Proof.
  intros Ha Hb. unfold read_bytes. cbn [Z.to_nat skipn].
  rewrite Z2Nat.inj_add by lia. apply firstn_plus.
Qed.

Lemma read_chunks l e a n :
  0 <= e -> 0 <= a -> 0 <= n ->
  read_bytes l a (n * e)
  = flat_map (fun k => read_bytes l (a + Z.of_nat k * e) e)
      (seq 0 (Z.to_nat n)).
Proof.
  intros He Ha Hn. unfold read_bytes at 1.
  rewrite Z2Nat.inj_mul by lia.
  rewrite <- flat_map_seq_chunks.
  apply flat_map_ext_in. intros k _. unfold read_bytes.
  rewrite skipn_skipn. do 2 f_equal. nia.
Qed.

Lemma read_to_end l a :
  0 <= a -> a <= zlength l ->
  read_bytes l a (zlength l - a) = skipn (Z.to_nat a) l.
Proof.
  intros Ha Hb. unfold read_bytes, zlength in *.
  apply firstn_all2. rewrite length_skipn. lia.
Qed.

Lemma read_front_length l m :
  0 <= m -> m <= zlength l -> zlength (read_bytes l 0 m) = m.
Proof.
  intros Hm Hb. unfold zlength in *.
  rewrite read_bytes_length; unfold zlength; lia.
Qed.

Lemma moved_bytes_app e l1 l2 :
  moved_bytes e (l1 ++ l2) = moved_bytes e l1 ++ moved_bytes e l2.
Proof. unfold moved_bytes. apply flat_map_app. Qed.

Lemma moved_bytes_one e tbl c :
  moved_bytes e [(tbl, c)] = read_bytes tbl 0 (c * e).
Proof. unfold moved_bytes. cbn. apply app_nil_r. Qed.

Section Run.

Variable r0 : rte_ring.
Hypothesis Hinv0 : ring_inv r0.
Hypothesis H32 : size r0 * elemlen r0 < U32.modulus.

Lemma slot_at_range k : 0 <= slot_at r0 k < size r0.
Proof.
  destruct (ProducersFacts.geometry r0 Hinv0) as [Hs _].
  unfold slot_at. apply Z.mod_pos_bound. lia.
Qed.

Lemma slot_at_distinct a b :
  a <> b -> - size r0 < b - a < size r0 -> slot_at r0 a <> slot_at r0 b.
Proof.
  intros Hne H. destruct (ProducersFacts.geometry r0 Hinv0) as [Hs _].
  unfold slot_at.
  destruct (Z.lt_total a b) as [L|[L|L]]; [|lia|].
  - apply mod_distinct; lia.
  - intros E. symmetry in E. revert E. apply mod_distinct; lia.
Qed.

Lemma slot_at_diff x a b :
  (x + slot_at r0 a - slot_at r0 b) mod size r0 = (x + a - b) mod size r0.
Proof.
  destruct (ProducersFacts.geometry r0 Hinv0) as [Hs _].
  unfold slot_at.
  rewrite Zminus_mod_idemp_r.
  replace (x + (cons_head r0 + a) mod size r0 - (cons_head r0 + b))
    with ((cons_head r0 + a) mod size r0 + (x - cons_head r0 - b)) by lia.
  rewrite Zplus_mod_idemp_l. f_equal. lia.
Qed.

Lemma slot_at_next a n :
  0 <= n <= size r0 ->
  U32.wrap (slot_at r0 a + n) mod size r0 = slot_at r0 (a + n).
Proof.
  intros Hn. destruct (ProducersFacts.geometry r0 Hinv0) as [Hs _].
  pose proof (slot_at_range a) as Hr.
  rewrite U32Facts.wrap_small by (rewrite U32Facts.modulus_eq; lia).
  unfold slot_at. rewrite Z.add_mod_idemp_l by lia.
  f_equal. lia.
Qed.

Lemma slot_at_offset r a i :
  size r = size r0 -> elemlen r = elemlen r0 -> 0 <= i <= size r0 ->
  slot_offset r (slot_at r0 a) i = slot_at r0 (a + i) * elemlen r0.
Proof.
  intros Hsz Hel Hi.
  destruct (ProducersFacts.geometry r0 Hinv0) as [Hs [_ [Hel0 _]]].
  pose proof (slot_at_range a) as Hr.
  rewrite slot_offset_exact;
    rewrite ?Hsz, ?Hel; try lia;
    try (rewrite U32Facts.modulus_eq; lia).
  unfold slot_at. rewrite Z.add_mod_idemp_l by lia.
  do 2 f_equal. lia.
Qed.

(** The free count the producer computes. *)
Lemma free_seen ct ph :
  ct <= ph <= ct + size r0 - 1 ->
  U32.wrap (capacity r0 + slot_at r0 ct - slot_at r0 ph) mod size r0
  = size r0 - 1 - (ph - ct).
Proof.
  intros H.
  destruct (ProducersFacts.geometry r0 Hinv0) as [Hs [Hcap _]].
  pose proof (slot_at_range ct) as R1. pose proof (slot_at_range ph) as R2.
  rewrite U32Facts.wrap_small by (rewrite U32Facts.modulus_eq; lia).
  rewrite slot_at_diff, Hcap.
  replace (size r0 - 1 - (ph - ct)) with (size r0 - 1 + ct - ph) by lia.
  apply Z.mod_small. lia.
Qed.

(** The count of entries the consumer computes. *)
Lemma entries_seen ch pt :
  ch <= pt <= ch + size r0 - 1 ->
  U32.wrap (slot_at r0 pt - slot_at r0 ch + size r0) mod size r0 = pt - ch.
Proof.
  intros H.
  destruct (ProducersFacts.geometry r0 Hinv0) as [Hs _].
  pose proof (slot_at_range ch) as R1. pose proof (slot_at_range pt) as R2.
  rewrite U32Facts.wrap_small by (rewrite U32Facts.modulus_eq; lia).
  replace (slot_at r0 pt - slot_at r0 ch + size r0)
    with (size r0 + slot_at r0 pt - slot_at r0 ch) by lia.
  rewrite slot_at_diff.
  replace (size r0 + pt - ch) with (pt - ch + 1 * size r0) by lia.
  rewrite Z_mod_plus_full. apply Z.mod_small. lia.
Qed.

(** *** Each side's facts survive the other side's moves *)

Lemma prod_ok_mono r r' ct ct' pt ph w :
  prod_ok r0 r ct pt ph w -> ct <= ct' -> data r' = data r ->
  prod_ok r0 r' ct' pt ph w.
Proof.
  unfold prod_ok. intros [Hc H] Hct Hd. split; [exact Hc|].
  destruct (w_cur w) as [t|]; [|exact H].
  destruct H as [Hs [Hm [Ht Hpc]]]. repeat split; try assumption.
  rewrite Hd. destruct (th_pc t); try exact Hpc.
  destruct Hpc as [H1 [H2 [H3 [H4 H5]]]]. repeat split; try assumption; lia.
Qed.

Lemma cons_ok_mono stream more ct ch pt pt' w :
  0 <= ct -> cons_ok r0 stream ct ch pt w -> pt <= pt' ->
  zlength stream = pt * elemlen r0 ->
  cons_ok r0 (stream ++ more) ct ch pt' w.
Proof.
  unfold cons_ok. intros Hct [Hc H] Hpt Hlen. split; [exact Hc|].
  destruct (ProducersFacts.geometry r0 Hinv0) as [_ [_ [He _]]].
  destruct (w_cur w) as [t|]; [|exact H].
  destruct H as [Hs [Hm [Ht Hpc]]]. repeat split; try assumption.
  destruct (th_pc t); try exact Hpc.
  - destruct Hpc as [H1 [H2 [H3 [H4 H5]]]].
    repeat split; try assumption; lia.
  - destruct Hpc as [H1 [H2 [H3 [H4 [H5 [H6 H7]]]]]].
    repeat split; try assumption; try lia.
    intros k Hk. rewrite read_prefix_app by nia. apply H7. exact Hk.
  - destruct Hpc as [H1 [H2 [H3 [H4 [H5 H7]]]]].
    repeat split; try assumption; try lia.
    intros k Hk. rewrite read_prefix_app by nia. apply H7. exact Hk.
  - destruct Hpc as [H1 [H2 [H3 [H4 [H5 H7]]]]].
    repeat split; try assumption; try lia.
    intros k Hk. rewrite read_prefix_app by nia. apply H7. exact Hk.
Qed.

(** A step of the producer that touches nothing shared. *)
Lemma inv_producer_local s ct ch pt ph w' :
  inv r0 s ct ch pt ph ->
  moved_bytes (elemlen r0) (finished_of w')
    = moved_bytes (elemlen r0) (finished_of (producer s)) ->
  prod_ok r0 (ring s) ct pt ph w' ->
  inv r0 (mk_system (ring s) w' (consumer s)) ct ch pt ph.
Proof.
  intros [H1 H2 H3 H4 H5 H6 H7 H8] Hm Hok.
  assert (Es : sent r0 (mk_system (ring s) w' (consumer s)) = sent r0 s)
    by (unfold sent; cbn [producer]; rewrite Hm; reflexivity).
  constructor; cbn [ring producer consumer]; rewrite ?Es; assumption.
Qed.

(** A step of the consumer that touches nothing shared. *)
Lemma inv_consumer_local s ct ch pt ph w' :
  inv r0 s ct ch pt ph ->
  moved_bytes (elemlen r0) (finished_of w')
    = moved_bytes (elemlen r0) (finished_of (consumer s)) ->
  cons_ok r0 (sent r0 s) ct ch pt w' ->
  inv r0 (mk_system (ring s) (producer s) w') ct ch pt ph.
Proof.
  intros [H1 H2 H3 H4 H5 H6 H7 H8] Hm Hok.
  assert (Er : received r0 (mk_system (ring s) (producer s) w')
               = received r0 s)
    by (unfold received; cbn [consumer]; rewrite Hm; reflexivity).
  constructor; cbn [ring producer consumer]; rewrite ?Er; assumption.
Qed.

Lemma system_eta_p s :
  mk_system (ring s) (producer s) (consumer s) = s.
Proof. destruct s. reflexivity. Qed.

Lemma worker_eta w : mk_worker (w_cur w) (w_calls w) (w_done w) = w.
Proof. destruct w. reflexivity. Qed.

Lemma finished_under_way w t :
  w_cur w = Some t -> under_way t -> finished_of w = w_done w ++ [].
Proof.
  intros E H. unfold finished_of. rewrite E. unfold under_way in H.
  destruct (th_pc t); try reflexivity. contradiction.
Qed.

(** *** The producer's steps *)

Lemma producer_exchanges s ct ch pt ph t n old_head new_head :
  inv r0 s ct ch pt ph -> w_cur (producer s) = Some t ->
  th_pc t = AtExchange n old_head new_head ->
  inv r0 (mk_system (set_prod_head (ring s) new_head)
            (mk_worker (Some (at_pc t (AtCopy n old_head new_head 0)))
               (w_calls (producer s)) (w_done (producer s)))
            (consumer s))
      ct ch pt (ph + n).
Proof.
  intros Hinv Ecur Epc.
  assert (Es : sent r0 (mk_system (set_prod_head (ring s) new_head)
                          (mk_worker
                             (Some (at_pc t (AtCopy n old_head new_head 0)))
                             (w_calls (producer s)) (w_done (producer s)))
                          (consumer s)) = sent r0 s).
  { unfold sent. cbn [producer].
    rewrite (finished_under_way (producer s) t Ecur)
      by (unfold under_way; rewrite Epc; exact I).
    reflexivity. }
  destruct Hinv as [H1 H2 H3 H4 H5 H6 [Hcalls Hp] H8].
  rewrite Ecur in Hp. destruct Hp as [Hside [Hmax [Htbl Hpc]]].
  rewrite Epc in Hpc. destruct Hpc as [E1 [E2 [E3 [E4 E5]]]].
  constructor; cbn [ring producer consumer set_prod_head size capacity
                    elemlen data cons_head cons_tail prod_head prod_tail];
    rewrite ?Es; try assumption.
  - lia.
  - destruct H3 as [C1 [C2 [C3 C4]]]. repeat split; assumption.
  - split; [exact Hcalls|]. cbn [w_cur at_pc th_side th_max th_table th_pc].
    repeat split; try assumption; try lia.
    subst. reflexivity.
Qed.

Lemma producer_copies s ct ch pt ph t n old_head new_head i d :
  inv r0 s ct ch pt ph -> w_cur (producer s) = Some t ->
  th_pc t = AtCopy n old_head new_head i -> i < n ->
  memcpy (data (ring s)) (slot_at r0 (pt + i) * elemlen r0)
         (th_table t) (i * elemlen r0) (elemlen r0) = Ok d ->
  inv r0 (mk_system (set_data (ring s) d)
            (mk_worker (Some (at_pc t (AtCopy n old_head new_head (i + 1))))
               (w_calls (producer s)) (w_done (producer s)))
            (consumer s))
      ct ch pt ph.
Proof.
  intros Hinv Ecur Epc Hlt Ed.
  assert (Es : sent r0 (mk_system (set_data (ring s) d)
                          (mk_worker
                             (Some (at_pc t
                                      (AtCopy n old_head new_head (i + 1))))
                             (w_calls (producer s)) (w_done (producer s)))
                          (consumer s)) = sent r0 s).
  { unfold sent. cbn [producer].
    rewrite (finished_under_way (producer s) t Ecur)
      by (unfold under_way; rewrite Epc; exact I).
    reflexivity. }
  destruct (ProducersFacts.geometry r0 Hinv0) as [Hs [_ [He _]]].
  destruct (ProducersFacts.read_after_memcpy _ _ _ _ _ _ Ed)
    as [Hwritten Hother].
  pose proof (memcpy_keeps_length _ _ _ _ _ _ Ed) as Hlen.
  destruct Hinv as [H1 H2 H3 H4 H5 H6 [Hcalls Hp] H8].
  rewrite Ecur in Hp. destruct Hp as [Hside [Hmax [Htbl Hpc]]].
  rewrite Epc in Hpc. destruct Hpc as [E1 [E2 [E3 [E4 [E5 E6]]]]].
  assert (Hframe : forall k, k <> pt + i -> - size r0 < pt + i - k < size r0 ->
            read_bytes d (slot_at r0 k * elemlen r0) (elemlen r0)
            = read_bytes (data (ring s)) (slot_at r0 k * elemlen r0)
                (elemlen r0)).
  { intros k Hne Hk.
    pose proof (slot_at_distinct k (pt + i) Hne Hk) as Hd.
    pose proof (slot_at_range k) as R1.
    pose proof (slot_at_range (pt + i)) as R2.
    apply Hother; nia. }
  constructor; cbn [ring producer consumer set_data size capacity
                    elemlen data cons_head cons_tail prod_head prod_tail];
    rewrite ?Es; try assumption.
  - destruct H1 as [S1 [S2 [S3 S4]]]. repeat split; try assumption. lia.
  - intros k Hk. rewrite Hframe by lia. apply H5. exact Hk.
  - split; [exact Hcalls|]. cbn [w_cur at_pc th_side th_max th_table th_pc].
    repeat split; try assumption; try lia.
    intros k Hk. destruct (Z.eq_dec k i) as [->|Hki].
    + exact Hwritten.
    + rewrite Hframe by lia. apply E6. lia.
Qed.

Lemma producer_publishes s ct ch pt ph t n old_head new_head :
  inv r0 s ct ch pt ph -> w_cur (producer s) = Some t ->
  th_pc t = AtStore n old_head new_head ->
  inv r0 (mk_system (set_prod_tail (ring s) new_head)
            (mk_worker (Some (at_pc t (Returned n)))
               (w_calls (producer s)) (w_done (producer s)))
            (consumer s))
      ct ch ph ph.
Proof.
  intros Hinv Ecur Epc.
  destruct (ProducersFacts.geometry r0 Hinv0) as [Hs [_ [He _]]].
  assert (Es : sent r0 (mk_system (set_prod_tail (ring s) new_head)
                          (mk_worker (Some (at_pc t (Returned n)))
                             (w_calls (producer s)) (w_done (producer s)))
                          (consumer s))
               = sent r0 s ++ read_bytes (th_table t) 0 (n * elemlen r0)).
  { unfold sent. cbn [producer].
    rewrite (finished_under_way (producer s) t Ecur)
      by (unfold under_way; rewrite Epc; exact I).
    unfold finished_of. cbn [w_cur w_done at_pc th_pc th_table].
    rewrite !moved_bytes_app, moved_bytes_one. cbn [moved_bytes flat_map].
    rewrite !app_nil_r, app_assoc. reflexivity. }
  destruct Hinv as [H1 H2 H3 H4 H5 H6 [Hcalls Hp] H8].
  rewrite Ecur in Hp. destruct Hp as [Hside [Hmax [Htbl Hpc]]].
  rewrite Epc in Hpc. destruct Hpc as [E1 [E2 [E3 [E4 E6]]]].
  constructor; cbn [ring producer consumer set_prod_tail size capacity
                    elemlen data cons_head cons_tail prod_head prod_tail];
    rewrite ?Es; try assumption.
  - lia.
  - destruct H3 as [C1 [C2 [C3 C4]]]. repeat split; assumption.
  - rewrite zlength_app, H4, read_front_length by nia. nia.
  - intros k Hk. destruct (Z_lt_le_dec k pt) as [L|L].
    + rewrite read_prefix_app by nia. apply H5. lia.
    + replace (k * elemlen r0)
        with (zlength (sent r0 s) + (k - pt) * elemlen r0) by nia.
      rewrite read_suffix_app, read_of_front by nia.
      replace k with (pt + (k - pt)) at 1 by lia. apply E6. lia.
  - rewrite read_prefix_app by nia. exact H6.
  - split; [exact Hcalls|]. cbn [w_cur at_pc th_side th_max th_table th_pc].
    repeat split; try assumption; lia.
  - apply (cons_ok_mono (sent r0 s) _ ct ch pt ph); try assumption; lia.
Qed.

(** *** The consumer's steps *)

Lemma consumer_exchanges s ct ch pt ph t n old_head new_head :
  inv r0 s ct ch pt ph -> w_cur (consumer s) = Some t ->
  th_pc t = AtExchange n old_head new_head ->
  inv r0 (mk_system (set_cons_head (ring s) new_head) (producer s)
            (mk_worker (Some (at_pc t (AtCopy n old_head new_head 0)))
               (w_calls (consumer s)) (w_done (consumer s))))
      ct (ch + n) pt ph.
Proof.
  intros Hinv Ecur Epc.
  assert (Er : received r0
                 (mk_system (set_cons_head (ring s) new_head) (producer s)
                    (mk_worker
                       (Some (at_pc t (AtCopy n old_head new_head 0)))
                       (w_calls (consumer s)) (w_done (consumer s))))
               = received r0 s).
  { unfold received. cbn [consumer].
    rewrite (finished_under_way (consumer s) t Ecur)
      by (unfold under_way; rewrite Epc; exact I).
    reflexivity. }
  destruct Hinv as [H1 H2 H3 H4 H5 H6 H7 [Hcalls Hc]].
  rewrite Ecur in Hc. destruct Hc as [Hside [Hmax [Htbl Hpc]]].
  rewrite Epc in Hpc. destruct Hpc as [E1 [E2 [E3 [E4 E5]]]].
  constructor; cbn [ring producer consumer set_cons_head size capacity
                    elemlen data cons_head cons_tail prod_head prod_tail];
    rewrite ?Er; try assumption.
  - lia.
  - destruct H3 as [C1 [C2 [C3 C4]]]. repeat split; assumption.
  - split; [exact Hcalls|]. cbn [w_cur at_pc th_side th_max th_table th_pc].
    repeat split; try assumption; try lia.
    subst. reflexivity.
Qed.

(** What a table holds once its range has been copied. *)
Lemma table_front stream tbl ct n :
  0 <= ct -> 0 <= n ->
  (forall k, 0 <= k < n ->
     read_bytes tbl (k * elemlen r0) (elemlen r0)
     = read_bytes stream ((ct + k) * elemlen r0) (elemlen r0)) ->
  read_bytes tbl 0 (n * elemlen r0)
  = read_bytes stream (ct * elemlen r0) (n * elemlen r0).
Proof.
  intros Hct Hn Ht.
  destruct (ProducersFacts.geometry r0 Hinv0) as [_ [_ [He _]]].
  rewrite !read_chunks by nia.
  apply flat_map_ext_in. intros k Hk. apply in_seq in Hk.
  cbn [Z.add]. rewrite Ht by lia. f_equal. lia.
Qed.

Lemma consumer_publishes s ct ch pt ph t n old_head new_head :
  inv r0 s ct ch pt ph -> w_cur (consumer s) = Some t ->
  th_pc t = AtStore n old_head new_head ->
  inv r0 (mk_system (set_cons_tail (ring s) new_head) (producer s)
            (mk_worker (Some (at_pc t (Returned n)))
               (w_calls (consumer s)) (w_done (consumer s))))
      ch ch pt ph.
Proof.
  intros Hinv Ecur Epc.
  destruct (ProducersFacts.geometry r0 Hinv0) as [Hs [_ [He _]]].
  assert (Er : received r0
                 (mk_system (set_cons_tail (ring s) new_head) (producer s)
                    (mk_worker (Some (at_pc t (Returned n)))
                       (w_calls (consumer s)) (w_done (consumer s))))
               = received r0 s ++ read_bytes (th_table t) 0 (n * elemlen r0)).
  { unfold received. cbn [consumer].
    rewrite (finished_under_way (consumer s) t Ecur)
      by (unfold under_way; rewrite Epc; exact I).
    unfold finished_of. cbn [w_cur w_done at_pc th_pc th_table].
    rewrite !moved_bytes_app, moved_bytes_one. cbn [moved_bytes flat_map].
    rewrite !app_nil_r. reflexivity. }
  destruct Hinv as [H1 H2 H3 H4 H5 H6 H7 [Hcalls Hc]].
  rewrite Ecur in Hc. destruct Hc as [Hside [Hmax [Htbl Hpc]]].
  rewrite Epc in Hpc. destruct Hpc as [E1 [E2 [E3 [E4 [E5 E6]]]]].
  constructor; cbn [ring producer consumer set_cons_tail size capacity
                    elemlen data cons_head cons_tail prod_head prod_tail];
    rewrite ?Er; try assumption.
  - lia.
  - destruct H3 as [C1 [C2 [C3 C4]]]. subst new_head.
    repeat split; assumption.
  - intros k Hk. apply H5. lia.
  - rewrite H6, (table_front (sent r0 s) (th_table t) ct n) by (lia || exact E6).
    rewrite E1. symmetry.
    replace ((ct + n) * elemlen r0) with (ct * elemlen r0 + n * elemlen r0)
      by lia.
    apply read_split; nia.
  - apply (prod_ok_mono (ring s) _ ct ch pt ph); [exact H7 | lia |].
    reflexivity.
  - split; [exact Hcalls|]. cbn [w_cur at_pc th_side th_max th_table th_pc].
    repeat split; try assumption; lia.
Qed.

Ltac same_moved Ecur Epc :=
  rewrite (finished_under_way _ _ Ecur)
    by (unfold under_way; rewrite Epc; exact I);
  reflexivity.

Ltac returns_nothing Ecur Epc :=
  rewrite (finished_under_way _ _ Ecur)
    by (unfold under_way; rewrite Epc; exact I);
  unfold finished_of; cbn [w_cur w_done at_pc th_pc th_table];
  rewrite !moved_bytes_app, moved_bytes_one;
  cbn [moved_bytes flat_map Z.mul];
  rewrite read_bytes_nothing; reflexivity.

(** Every step of the producer keeps the invariant, and none is
    undefined. *)
Lemma producer_turn s ct ch pt ph :
  inv r0 s ct ch pt ph ->
  exists s' ct' ch' pt' ph',
    system_step true s = Ok s' /\ inv r0 s' ct' ch' pt' ph'.
Proof.
  intros Hinv.
  pose proof (inv_producer _ _ _ _ _ _ Hinv) as [Hcalls Hcur].
  destruct (inv_static _ _ _ _ _ _ Hinv) as [Hsz [Hcap [Hel Hlen]]].
  destruct (inv_counters _ _ _ _ _ _ Hinv) as [Cct [Cch [Cpt Cph]]].
  pose proof (inv_order _ _ _ _ _ _ Hinv) as Hord.
  destruct (ProducersFacts.geometry r0 Hinv0)
    as [Hs [Hc0 [He0 [_ [_ [_ [_ [_ [_ [_ [_ Hd]]]]]]]]]]].
  pose proof U32Facts.modulus_eq as Hm.
  unfold system_step, worker_step.
  destruct (w_cur (producer s)) as [t|] eqn:Ecur.
  - destruct Hcur as [Hside [Hmax [Htbl Hpc]]].
    destruct (th_pc t) eqn:Epc;
      unfold thread_step; rewrite ?Hside; unfold producer_step; rewrite ?Epc.
    + (* the load of the head *)
      cbn [bind]. eexists. exists ct, ch, pt, ph. split; [reflexivity|].
      apply inv_producer_local; [exact Hinv | same_moved Ecur Epc |].
      split; [exact Hcalls|].
      cbn [w_cur at_pc th_side th_max th_table th_pc].
      repeat split; assumption.
    + (* the count is settled *)
      destruct Hpc as [E1 E2].
      rewrite Hsz. destruct (Z.eqb_spec (size r0) 0) as [E|_]; [lia|].
      rewrite Hcap, Cct, E2, free_seen by lia. cbn zeta.
      pose proof (granted_bounds (th_behavior t) (th_max t)
                    (size r0 - 1 - (ph - ct)) Hmax ltac:(lia)) as [Hg1 Hg2].
      destruct (Z.eqb_spec (granted (th_behavior t) (th_max t)
                              (size r0 - 1 - (ph - ct))) 0) as [E0|E0];
        cbn [bind]; eexists; exists ct, ch, pt, ph;
        (split; [reflexivity|]).
      * apply inv_producer_local; [exact Hinv | returns_nothing Ecur Epc |].
        split; [exact Hcalls|].
        cbn [w_cur at_pc th_side th_max th_table th_pc].
        repeat split; try assumption; lia.
      * apply inv_producer_local; [exact Hinv | same_moved Ecur Epc |].
        split; [exact Hcalls|].
        cbn [w_cur at_pc th_side th_max th_table th_pc].
        repeat split; try assumption; try lia.
        apply slot_at_next. lia.
    + (* the exchange: nobody else moves this head *)
      destruct Hpc as [E1 [E2 [E3 [E4 E5]]]].
      unfold atomic_compare_exchange. rewrite Cph, <- E2, Z.eqb_refl.
      cbn [bind]. eexists. exists ct, ch, pt, (ph + n).
      split; [reflexivity|].
      apply (producer_exchanges s ct ch pt ph t n old_head new_head);
        assumption.
    + (* the copy loop *)
      destruct Hpc as [E1 [E2 [E3 [E4 [E5 E6]]]]].
      destruct (Z.ltb_spec i n) as [Hlt|Hge].
      * rewrite E3, (slot_at_offset (ring s) pt i) by lia.
        rewrite table_offset_exact by (rewrite ?Hel; nia).
        rewrite Hel.
        pose proof (slot_at_range (pt + i)) as Rs.
        destruct (memcpy_ok (data (ring s))
                    (slot_at r0 (pt + i) * elemlen r0)
                    (th_table t) (i * elemlen r0) (elemlen r0))
          as [d [Ed _]]; try nia.
        rewrite Ed. cbn [bind]. eexists. exists ct, ch, pt, ph.
        split; [reflexivity|].
        apply (producer_copies s ct ch pt ph t n (slot_at r0 pt) new_head i d);
          try assumption.
        rewrite Epc, E3. reflexivity.
      * cbn [bind]. eexists. exists ct, ch, pt, ph. split; [reflexivity|].
        apply inv_producer_local; [exact Hinv | same_moved Ecur Epc |].
        split; [exact Hcalls|].
        cbn [w_cur at_pc th_side th_max th_table th_pc].
        assert (i = n) by lia. subst i.
        repeat split; try assumption; lia.
    + (* the wait: the tail is where this call expects it *)
      destruct Hpc as [E1 [E2 [E3 [E4 E6]]]].
      rewrite Cpt, <- E3, Z.eqb_refl. cbn [negb bind].
      eexists. exists ct, ch, pt, ph. split; [reflexivity|].
      apply inv_producer_local; [exact Hinv | same_moved Ecur Epc |].
      split; [exact Hcalls|].
      cbn [w_cur at_pc th_side th_max th_table th_pc].
      repeat split; try assumption; lia.
    + (* the store of the tail *)
      cbn [bind]. eexists. exists ct, ch, ph, ph. split; [reflexivity|].
      apply (producer_publishes s ct ch pt ph t n old_head new_head);
        assumption.
    + (* the result is taken *)
      eexists. exists ct, ch, pt, ph. split; [reflexivity|].
      apply inv_producer_local; [exact Hinv | |].
      * unfold finished_of. cbn [w_cur w_done]. rewrite Ecur, Epc.
        rewrite app_nil_r. reflexivity.
      * split; [exact Hcalls|]. cbn [w_cur]. apply Hpc.
  - destruct (w_calls (producer s)) as [|op calls] eqn:Ecalls.
    + exists s, ct, ch, pt, ph. cbn [bind]. rewrite system_eta_p.
      split; [reflexivity | exact Hinv].
    + apply Forall_cons_iff in Hcalls. destruct Hcalls as [Hop Hrest].
      destruct op as [tbl n b|]; [|contradiction]. destruct Hop as [Hn Ht].
      cbn [bind]. eexists. exists ct, ch, pt, ph. split; [reflexivity|].
      apply inv_producer_local; [exact Hinv | |].
      * unfold finished_of. cbn [w_cur w_done start enqueuer th_pc].
        rewrite Ecur. reflexivity.
      * split; [exact Hrest|].
        cbn [w_cur start enqueuer th_side th_max th_table th_pc].
        repeat split; assumption.
Qed.

(** Every step of the consumer keeps the invariant, and none is
    undefined. *)
Lemma consumer_turn s ct ch pt ph :
  inv r0 s ct ch pt ph ->
  exists s' ct' ch' pt' ph',
    system_step false s = Ok s' /\ inv r0 s' ct' ch' pt' ph'.
Proof.
  intros Hinv.
  pose proof (inv_consumer _ _ _ _ _ _ Hinv) as [Hcalls Hcur].
  destruct (inv_static _ _ _ _ _ _ Hinv) as [Hsz [Hcap [Hel Hlen]]].
  destruct (inv_counters _ _ _ _ _ _ Hinv) as [Cct [Cch [Cpt Cph]]].
  pose proof (inv_order _ _ _ _ _ _ Hinv) as Hord.
  destruct (ProducersFacts.geometry r0 Hinv0)
    as [Hs [Hc0 [He0 [_ [_ [_ [_ [_ [_ [_ [_ Hd]]]]]]]]]]].
  pose proof U32Facts.modulus_eq as Hm.
  unfold system_step, worker_step.
  destruct (w_cur (consumer s)) as [t|] eqn:Ecur.
  - destruct Hcur as [Hside [Hmax [Htbl Hpc]]].
    destruct (th_pc t) eqn:Epc;
      unfold thread_step; rewrite ?Hside; unfold consumer_step; rewrite ?Epc.
    + (* the load of the head *)
      cbn [bind]. eexists. exists ct, ch, pt, ph. split; [reflexivity|].
      apply inv_consumer_local; [exact Hinv | same_moved Ecur Epc |].
      split; [exact Hcalls|].
      cbn [w_cur at_pc th_side th_max th_table th_pc].
      repeat split; assumption.
    + (* the count is settled *)
      destruct Hpc as [E1 E2].
      rewrite Hsz. destruct (Z.eqb_spec (size r0) 0) as [E|_]; [lia|].
      rewrite Cpt, E2, entries_seen by lia. cbn zeta.
      pose proof (granted_bounds (th_behavior t) (th_max t)
                    (pt - ch) Hmax ltac:(lia)) as [Hg1 Hg2].
      destruct (Z.eqb_spec (granted (th_behavior t) (th_max t) (pt - ch)) 0)
        as [E0|E0];
        cbn [bind]; eexists; exists ct, ch, pt, ph;
        (split; [reflexivity|]).
      * apply inv_consumer_local; [exact Hinv | returns_nothing Ecur Epc |].
        split; [exact Hcalls|].
        cbn [w_cur at_pc th_side th_max th_table th_pc].
        repeat split; try assumption; lia.
      * apply inv_consumer_local; [exact Hinv | same_moved Ecur Epc |].
        split; [exact Hcalls|].
        cbn [w_cur at_pc th_side th_max th_table th_pc].
        repeat split; try assumption; try lia.
        apply slot_at_next. lia.
    + (* the exchange: nobody else moves this head *)
      destruct Hpc as [E1 [E2 [E3 [E4 E5]]]].
      unfold atomic_compare_exchange. rewrite Cch, <- E2, Z.eqb_refl.
      cbn [bind]. eexists. exists ct, (ch + n), pt, ph.
      split; [reflexivity|].
      apply (consumer_exchanges s ct ch pt ph t n old_head new_head);
        assumption.
    + (* the copy loop *)
      destruct Hpc as [E1 [E2 [E3 [E4 [E5 [E6 E7]]]]]].
      destruct (Z.ltb_spec i n) as [Hlt|Hge].
      * rewrite E4, (slot_at_offset (ring s) ct i) by lia.
        rewrite table_offset_exact by (rewrite ?Hel; nia).
        rewrite Hel.
        pose proof (slot_at_range (ct + i)) as Rs.
        destruct (memcpy_ok (th_table t) (i * elemlen r0)
                    (data (ring s)) (slot_at r0 (ct + i) * elemlen r0)
                    (elemlen r0))
          as [tbl [Ed Hdl]]; try nia.
        rewrite Ed. cbn [bind]. eexists. exists ct, ch, pt, ph.
        split; [reflexivity|].
        destruct (ProducersFacts.read_after_memcpy _ _ _ _ _ _ Ed)
          as [Hwritten Hother].
        apply inv_consumer_local; [exact Hinv | same_moved Ecur Epc |].
        split; [exact Hcalls|].
        cbn [w_cur with_table th_side th_max th_table th_pc].
        repeat split; try assumption; try lia.
        intros k Hk. destruct (Z.eq_dec k i) as [->|Hki].
        -- rewrite Hwritten. apply (inv_stored _ _ _ _ _ _ Hinv). lia.
        -- rewrite Hother; [apply E7; lia | nia | lia | nia].
      * cbn [bind]. eexists. exists ct, ch, pt, ph. split; [reflexivity|].
        apply inv_consumer_local; [exact Hinv | same_moved Ecur Epc |].
        split; [exact Hcalls|].
        cbn [w_cur at_pc th_side th_max th_table th_pc].
        assert (i = n) by lia. subst i.
        repeat split; try assumption; lia.
    + (* the wait: the tail is where this call expects it *)
      destruct Hpc as [E1 [E2 [E3 [E4 [E5 E6]]]]].
      rewrite Cct, <- E4, Z.eqb_refl. cbn [negb bind].
      eexists. exists ct, ch, pt, ph. split; [reflexivity|].
      apply inv_consumer_local; [exact Hinv | same_moved Ecur Epc |].
      split; [exact Hcalls|].
      cbn [w_cur at_pc th_side th_max th_table th_pc].
      repeat split; try assumption; lia.
    + (* the store of the tail *)
      cbn [bind]. eexists. exists ch, ch, pt, ph. split; [reflexivity|].
      apply (consumer_publishes s ct ch pt ph t n old_head new_head);
        assumption.
    + (* the result is taken *)
      eexists. exists ct, ch, pt, ph. split; [reflexivity|].
      apply inv_consumer_local; [exact Hinv | |].
      * unfold finished_of. cbn [w_cur w_done]. rewrite Ecur, Epc.
        rewrite app_nil_r. reflexivity.
      * split; [exact Hcalls|]. cbn [w_cur]. apply Hpc.
  - destruct (w_calls (consumer s)) as [|op calls] eqn:Ecalls.
    + exists s, ct, ch, pt, ph. cbn [bind]. rewrite system_eta_p.
      split; [reflexivity | exact Hinv].
    + apply Forall_cons_iff in Hcalls. destruct Hcalls as [Hop Hrest].
      destruct op as [|tbl n b]; [contradiction|]. destruct Hop as [Hn Ht].
      cbn [bind]. eexists. exists ct, ch, pt, ph. split; [reflexivity|].
      apply inv_consumer_local; [exact Hinv | |].
      * unfold finished_of. cbn [w_cur w_done start dequeuer th_pc].
        rewrite Ecur. reflexivity.
      * split; [exact Hrest|].
        cbn [w_cur start dequeuer th_side th_max th_table th_pc].
        repeat split; assumption.
Qed.

Lemma spsc_run_inv schedule : forall s ct ch pt ph,
  inv r0 s ct ch pt ph ->
  exists s' ct' ch' pt' ph',
    run_schedule schedule s = Ok s' /\ inv r0 s' ct' ch' pt' ph'.
Proof.
  induction schedule as [|p schedule IH]; intros s ct ch pt ph Hinv.
  - exists s, ct, ch, pt, ph. split; [reflexivity | exact Hinv].
  - assert (Hstep : exists s1 ct1 ch1 pt1 ph1,
              system_step p s = Ok s1 /\ inv r0 s1 ct1 ch1 pt1 ph1).
    { destruct p; [apply (producer_turn s ct ch pt ph Hinv)
                  | apply (consumer_turn s ct ch pt ph Hinv)]. }
    destruct Hstep as [s1 [ct1 [ch1 [pt1 [ph1 [E1 H1]]]]]].
    destruct (IH s1 ct1 ch1 pt1 ph1 H1) as [s' [a [b [c [d [E' H']]]]]].
    exists s', a, b, c, d. cbn [run_schedule]. rewrite E1. cbn [bind].
    split; [exact E' | exact H'].
Qed.

Lemma spsc_initial_inv enqueues dequeues :
  Forall (is_enqueue (elemlen r0)) enqueues ->
  Forall (is_dequeue (elemlen r0)) dequeues ->
  inv r0 (initial r0 enqueues dequeues) 0 0 (entries_of r0) (entries_of r0).
Proof.
  intros Henq Hdeq.
  destruct (ProducersFacts.geometry r0 Hinv0)
    as [Hs [Hc0 [He0 [Hph [Hch [Hct0 [Hpt0 [Hf [He [Hsum [Hpos Hd]]]]]]]]]]].
  assert (Es : sent r0 (initial r0 enqueues dequeues) = ring_contents r0).
  { unfold sent, initial, finished_of. cbn. apply app_nil_r. }
  constructor; rewrite ?Es; cbn [initial ring producer consumer].
  - repeat split.
  - lia.
  - unfold slot_at. rewrite Z.add_0_r, Hpos, Z.mod_small by lia.
    repeat split; assumption.
  - apply ring_contents_length. exact Hinv0.
  - intros k Hk.
    rewrite <- (Z.mul_1_l (elemlen r0)) at 4.
    rewrite (ConsumersFacts.contents_range r0 Hinv0 H32 k 1) by lia.
    change (Z.to_nat 1) with 1%nat. cbn [seq flat_map Z.of_nat].
    rewrite app_nil_r, Z.add_0_r. reflexivity.
  - unfold received. cbn. reflexivity.
  - split; [exact Henq | reflexivity].
  - split; [exact Hdeq | reflexivity].
Qed.

(** When no call is under way. *)
Lemma spsc_quiescent s ct ch pt ph :
  inv r0 s ct ch pt ph ->
  w_cur (producer s) = None -> w_cur (consumer s) = None ->
  ring_inv (ring s)
  /\ received r0 s ++ ring_contents (ring s) = sent r0 s.
Proof.
  intros Hinv Ep Ec.
  destruct (ProducersFacts.geometry r0 Hinv0)
    as [Hs [Hc0 [He0 [_ [_ [_ [_ [_ [_ [_ [_ Hd]]]]]]]]]]].
  destruct (inv_static _ _ _ _ _ _ Hinv) as [Hsz [Hcap [Hel Hlen]]].
  destruct (inv_counters _ _ _ _ _ _ Hinv) as [Cct [Cch [Cpt Cph]]].
  pose proof (inv_order _ _ _ _ _ _ Hinv) as Hord.
  pose proof (inv_producer _ _ _ _ _ _ Hinv) as [_ Hp].
  pose proof (inv_consumer _ _ _ _ _ _ Hinv) as [_ Hc].
  rewrite Ep in Hp. rewrite Ec in Hc. subst ph ch.
  pose proof (slot_at_range ct) as R1. pose proof (slot_at_range pt) as R2.
  assert (Hring : ring_inv (ring s)).
  { constructor.
    - rewrite Hsz. change (2 ^ 31) with 2147483648. lia.
    - rewrite Hcap, Hsz. exact Hc0.
    - rewrite Hel. exact He0.
    - rewrite Hsz, Hel, Hlen. exact Hd.
    - rewrite Cph, Hsz. exact R2.
    - rewrite Cpt, Cph. reflexivity.
    - rewrite Cch, Hsz. exact R1.
    - rewrite Cct, Cch. reflexivity. }
  split; [exact Hring|].
  assert (Hent : entries_of (ring s) = pt - ct).
  { unfold entries_of. rewrite Cpt, Cch, Hsz. apply entries_seen. lia. }
  assert (Hcont : ring_contents (ring s)
                  = skipn (Z.to_nat (ct * elemlen r0)) (sent r0 s)).
  { rewrite <- read_to_end
      by (rewrite ?(inv_sent _ _ _ _ _ _ Hinv); nia).
    rewrite (inv_sent _ _ _ _ _ _ Hinv).
    replace (pt * elemlen r0 - ct * elemlen r0)
      with ((pt - ct) * elemlen r0) by lia.
    rewrite read_chunks by nia.
    unfold ring_contents. rewrite Hent.
    apply flat_map_ext_in. intros i Hi. apply in_seq in Hi.
    unfold slot_bytes.
    rewrite Cch, (slot_at_offset (ring s) ct (Z.of_nat i)) by lia.
    rewrite Hel, (inv_stored _ _ _ _ _ _ Hinv) by lia.
    f_equal. lia. }
  rewrite Hcont, (inv_received _ _ _ _ _ _ Hinv).
  unfold read_bytes. cbn [Z.to_nat skipn]. apply firstn_skipn.
Qed.

End Run.

End SpscFacts.

(** X18: one producer thread and one consumer thread.  On a ring at
    rest, one thread makes enqueue calls one after the other and
    another makes dequeue calls one after the other, every table
    holding as many elements as its call names.  Whatever the order in
    which the statements of the two threads are interleaved, no
    statement is undefined; at every moment what the dequeue calls have
    handed out is a front part of what the ring held at the start
    followed by what the enqueue calls have accepted; and whenever no
    call is under way the ring is at rest and holds exactly the rest:
    nothing is lost, repeated or reordered. *)
Theorem X18_one_producer_one_consumer r0 enqueues dequeues schedule :
  ring_inv r0 -> size r0 * elemlen r0 < U32.modulus ->
  Forall (Spsc.is_enqueue (elemlen r0)) enqueues ->
  Forall (Spsc.is_dequeue (elemlen r0)) dequeues ->
  exists s',
    Spsc.run_schedule schedule (Spsc.initial r0 enqueues dequeues) = Ok s'
    /\ (exists n, Spsc.received r0 s' = firstn n (Spsc.sent r0 s'))
    /\ (Spsc.w_cur (Spsc.producer s') = None ->
        Spsc.w_cur (Spsc.consumer s') = None ->
        ring_inv (Spsc.ring s')
        /\ Spsc.received r0 s' ++ ring_contents (Spsc.ring s')
           = Spsc.sent r0 s').
Proof.
  intros Hinv H32 Henq Hdeq.
  destruct (SpscFacts.spsc_run_inv r0 Hinv H32 schedule _ _ _ _ _
              (SpscFacts.spsc_initial_inv r0 Hinv H32 enqueues dequeues
                 Henq Hdeq))
    as [s' [ct [ch [pt [ph [Erun Hfin]]]]]].
  exists s'. split; [exact Erun|]. split.
  - exists (Z.to_nat (ct * elemlen r0)).
    rewrite (Spsc.inv_received _ _ _ _ _ _ Hfin). reflexivity.
  - intros Ep Ec.
    apply (SpscFacts.spsc_quiescent r0 Hinv H32 s' ct ch pt ph Hfin Ep Ec).
Qed.

Lemma X18_one_producer_one_consumer_witness :
  exists s',
    Spsc.run_schedule (flat_map (fun _ => [true; false]) (seq 0 30))
      (Spsc.initial (mk_ring 4 3 3 4 2 2 1 1 (ints_bytes [90; 91; 92; 93]))
         [Enqueue (ints_bytes [1; 2]) 2 RTE_RING_QUEUE_FIXED;
          Enqueue (ints_bytes [3; 4; 5]) 3 RTE_RING_QUEUE_VARIABLE]
         [Dequeue (out_table 2) 2 RTE_RING_QUEUE_VARIABLE;
          Dequeue (out_table 3) 3 RTE_RING_QUEUE_VARIABLE])
    = Ok s'
    /\ Spsc.sent (mk_ring 4 3 3 4 2 2 1 1 (ints_bytes [90; 91; 92; 93])) s'
       = ints_bytes [91; 1; 2; 3]
    /\ ring_contents (Spsc.ring s') = ints_bytes [3]
    /\ Spsc.received (mk_ring 4 3 3 4 2 2 1 1 (ints_bytes [90; 91; 92; 93]))
         s' ++ ring_contents (Spsc.ring s')
       = Spsc.sent (mk_ring 4 3 3 4 2 2 1 1 (ints_bytes [90; 91; 92; 93])) s'.
Proof.
  destruct (X18_one_producer_one_consumer
              (mk_ring 4 3 3 4 2 2 1 1 (ints_bytes [90; 91; 92; 93]))
              [Enqueue (ints_bytes [1; 2]) 2 RTE_RING_QUEUE_FIXED;
               Enqueue (ints_bytes [3; 4; 5]) 3 RTE_RING_QUEUE_VARIABLE]
              [Dequeue (out_table 2) 2 RTE_RING_QUEUE_VARIABLE;
               Dequeue (out_table 3) 3 RTE_RING_QUEUE_VARIABLE]
              (flat_map (fun _ => [true; false]) (seq 0 30)))
    as [s' [Erun [_ Hrest]]].
  - constructor; cbn; lia.
  - reflexivity.
  - repeat constructor; cbn; lia.
  - repeat constructor; cbn; lia.
  - exists s'. split; [exact Erun|].
    assert (Es : Spsc.w_cur (Spsc.producer s') = None
                 /\ Spsc.w_cur (Spsc.consumer s') = None
                 /\ Spsc.sent
                      (mk_ring 4 3 3 4 2 2 1 1 (ints_bytes [90; 91; 92; 93]))
                      s' = ints_bytes [91; 1; 2; 3]
                 /\ ring_contents (Spsc.ring s') = ints_bytes [3]).
    { vm_compute in Erun. inversion Erun.
      repeat split; vm_compute; reflexivity. }
    destruct Es as [Ep [Ec [Esent Econt]]].
    split; [exact Esent|]. split; [exact Econt|].
    apply (Hrest Ep Ec).
Defined.
